(** * PokesweepApp: the page-to-record extraction pipeline of [api/scrapeSet.js]

    A shallow embedding of the scraper's pure core and the properties of its
    specification.  Three generations of the handler are covered:

    - [Structural]: [src/api/scrapeSet.js] (and its two near-duplicates in
      [src/unnamed/part_002]), which picks card blocks with CSS selectors;
    - [Loose]: [src/unnamed/part_003], the broad sweep with loose heuristics;
    - [Strict]: the first file of [src/unnamed/part_002], the broad sweep with
      tight heuristics.

    [App] is the card list of [src/src/App.jsx]: its state, its handlers and
    the total it shows.

    Modelling choices.

    - A JavaScript string is a [list ascii]; a character is a UTF-16 code unit
      below 256.  On that range [\s] and [trim] agree on the set
      {TAB, LF, VT, FF, CR, SP, NBSP}, and [toLowerCase] moves [A-Z] and
      U+00C0..U+00DE (except U+00D7) up by 32.
    - A regular expression is a term of [regex] run by a backtracking matcher
      that follows the priorities of the ECMAScript one (greedy quantifiers,
      left alternative first, leftmost start position).
    - A number is [NaN], an infinity or a finite double, given as the
      rational it denotes.  [Number] applied to a string of decimal digits
      is the double nearest to their value, ties to even, as the engines
      compute it: the value itself up to 2^53, [Infinity] from
      2^1024 - 2^970 on.
    - The loaded document is a capability: [$ sel] lists the nodes a selector
      finds, and a node gives its text and the text of the first descendant a
      selector finds.  Fetching and rendering the page are outside the model;
      the address fetched is in it.
    - The sum and the product of [App] are those of the language, whatever
      they are: the properties of the total hold for any. *)

From Stdlib Require Import ZArith QArith Qround Ascii String List Bool Lia.
From stdpp Require Import base option list gmap strings fin_maps.

Open Scope Z_scope.
Open Scope list_scope.
Set Warnings "-clear-no-such-hyp".

(** ** Characters and strings *)

Abbreviation jsstring := (list ascii).

(** A string literal of the source. *)
Definition str (s : string) : jsstring := list_ascii_of_string s.

Definition code (a : ascii) : nat := nat_of_ascii a.

(** [\d] and [[0-9]]. *)
Definition is_digit (a : ascii) : bool :=
  (48 <=? code a)%nat && (code a <=? 57)%nat.

(** [\s]: TAB, LF, VT, FF, CR, SP, NBSP. *)
Definition is_space (a : ascii) : bool :=
  ((9 <=? code a)%nat && (code a <=? 13)%nat)
  || (code a =? 32)%nat || (code a =? 160)%nat.

(** [[0-9,]]. *)
Definition is_digit_or_comma (a : ascii) : bool :=
  is_digit a || (code a =? 44)%nat.

(** [\w]: [[A-Za-z0-9_]]. *)
Definition is_word (a : ascii) : bool :=
  ((65 <=? code a)%nat && (code a <=? 90)%nat)
  || ((97 <=? code a)%nat && (code a <=? 122)%nat)
  || is_digit a || (code a =? 95)%nat.

(** [[A-Za-z0-9'’\- :]] of [fallbackNameFromText]; U+2019 is not a character
    of the model. *)
Definition is_name_char (a : ascii) : bool :=
  ((65 <=? code a)%nat && (code a <=? 90)%nat)
  || ((97 <=? code a)%nat && (code a <=? 122)%nat)
  || is_digit a
  || (code a =? 39)%nat || (code a =? 45)%nat
  || (code a =? 32)%nat || (code a =? 58)%nat.

Definition is_upper (a : ascii) : bool :=
  ((65 <=? code a)%nat && (code a <=? 90)%nat)
  || ((192 <=? code a)%nat && (code a <=? 222)%nat && negb (code a =? 215)%nat).

Definition is_lower (a : ascii) : bool :=
  ((97 <=? code a)%nat && (code a <=? 122)%nat)
  || ((224 <=? code a)%nat && (code a <=? 254)%nat && negb (code a =? 247)%nat).

Definition lower_char (a : ascii) : ascii :=
  if is_upper a then ascii_of_nat (code a + 32) else a.

(** [Canonicalize] of a case-insensitive regular expression without the
    unicode flag: the upper-case form of the code unit. *)
Definition canonicalize (a : ascii) : ascii :=
  if is_lower a then ascii_of_nat (code a - 32) else a.

(** [String.prototype.toLowerCase]. *)
Definition toLowerCase (s : jsstring) : jsstring := map lower_char s.

Definition ascii_eqb (a b : ascii) : bool := (code a =? code b)%nat.

Fixpoint jsstring_eqb (s t : jsstring) : bool :=
  match s, t with
  | [], [] => true
  | a :: s', b :: t' => ascii_eqb a b && jsstring_eqb s' t'
  | _, _ => false
  end.

Fixpoint starts_with (s needle : jsstring) : bool :=
  match needle, s with
  | [], _ => true
  | b :: needle', a :: s' => ascii_eqb a b && starts_with s' needle'
  | _ :: _, [] => false
  end.

(** [String.prototype.includes]. *)
Fixpoint includes (s needle : jsstring) : bool :=
  starts_with s needle
  || match s with
     | [] => false
     | _ :: s' => includes s' needle
     end.

Fixpoint drop_spaces (s : jsstring) : jsstring :=
  match s with
  | a :: s' => if is_space a then drop_spaces s' else s
  | [] => []
  end.

(** [String.prototype.trim]. *)
Definition trim (s : jsstring) : jsstring :=
  rev (drop_spaces (rev (drop_spaces s))).

(** [s.replace(/\s+/g, "")]: every run of white space is removed. *)
Definition remove_spaces (s : jsstring) : jsstring :=
  List.filter (fun a => negb (is_space a)) s.

(** [s.replace(/\s+/g, " ")]: every maximal run of white space becomes one
    space; [in_run] tells that the previous character was white space. *)
Fixpoint collapse_spaces_from (in_run : bool) (s : jsstring) : jsstring :=
  match s with
  | [] => []
  | a :: s' =>
      if is_space a
      then if in_run then collapse_spaces_from true s'
           else " "%char :: collapse_spaces_from true s'
      else a :: collapse_spaces_from false s'
  end.

Definition collapse_spaces (s : jsstring) : jsstring :=
  collapse_spaces_from false s.

(** [s.replace(/[^\d]/g, "")]: only the digits stay. *)
Definition keep_digits (s : jsstring) : jsstring := List.filter is_digit s.

(** The truth value of a string: the empty string is falsy. *)
Definition truthy (s : jsstring) : bool :=
  match s with [] => false | _ => true end.

(** The truth value of a value that is a string, [null] or [undefined]. *)
Definition truthy_opt (o : option jsstring) : bool :=
  match o with Some s => truthy s | None => false end.

(** [a || b] on strings. *)
Definition or_else (a b : jsstring) : jsstring := if truthy a then a else b.

(** [x || null] on a value that is a string or [null]. *)
Definition or_null (o : option jsstring) : option jsstring :=
  if truthy_opt o then o else None.

(** ** Numbers *)

(** A number: [NaN], the infinities, or a finite double as the rational it
    denotes. *)
Inductive jsnum : Type :=
| NaN
| PInf
| NInf
| Fin (q : Q).

(** The double nearest to the natural number [n], a tie going to the even
    significand.  Below 2^53 every natural number is a double.  From there
    on a double has 53 significant bits: with [2^e] the distance between
    neighbouring doubles around [n], [n] is [q * 2^e + r], and [q] goes up
    by one when [r] is more than half of [2^e], or is half of it and [q] is
    odd.  What reaches 2^1024 is [Infinity]. *)
Definition to_double (n : Z) : jsnum :=
  if n <? 2 ^ 53 then Fin (inject_Z n)
  else
    let e := Z.log2 n - 52 in
    let q := n / 2 ^ e in
    let r := n mod 2 ^ e in
    let half := 2 ^ (e - 1) in
    let q' := if (half <? r) || ((r =? half) && Z.odd q) then q + 1 else q in
    let v := q' * 2 ^ e in
    if 2 ^ 1024 <=? v then PInf else Fin (inject_Z v).

(** ** The numeric normalizer *)

Definition digit_val (a : ascii) : Z := Z.of_nat (code a) - 48.

(** The value in base ten of a string of decimal digits, read from the
    left. *)
Definition digits_value (m : jsstring) : Z :=
  fold_left (fun acc a => 10 * acc + digit_val a) m 0.

(** [Number(m)] for a string [m] of decimal digits: the double nearest to
    its value. *)
Definition Number_digits (m : jsstring) : jsnum := to_double (digits_value m).

(** [cleanNum] (the same text in every generation of the file). *)
Definition cleanNum (s : jsstring) : option jsnum :=
  if negb (truthy s) then None
  else
    let m := keep_digits s in
    if truthy m then Some (Number_digits m) else None.

(** ** Regular expressions

    The fragment of the ECMAScript pattern language that the source uses.  A
    quantifier is always applied to a one-character atom there, so [Rep]
    carries a character class. *)

Inductive regex : Type :=
| Lit (l : jsstring)                                   (* pattern characters *)
| Cls (p : ascii -> bool)                              (* a class or an escape *)
| Seq (r1 r2 : regex)
| Alt (r1 r2 : regex)                                  (* r1|r2 *)
| Rep (p : ascii -> bool) (lo : nat) (hi : option nat) (* p{lo,hi}, p*, p+ *)
| Opt (r : regex)                                      (* r? *)
| Grp (i : nat) (r : regex)                            (* capture group i *)
| WordB.                                               (* \b *)

(** [p*] and [p+]. *)
Definition Star (p : ascii -> bool) : regex := Rep p 0 None.
Definition Plus (p : ascii -> bool) : regex := Rep p 1 None.

(** The captures of a match: group number to captured text. *)
Abbreviation captures := (gmap nat jsstring).

(** Comparison of a pattern character with an input character; [ic] is the
    [i] flag. *)
Definition char_match (ic : bool) (pat a : ascii) : bool :=
  if ic then ascii_eqb (canonicalize pat) (canonicalize a) else ascii_eqb pat a.

(** The pattern characters [l] at the head of [s]: the text they consume and
    the rest. *)
Fixpoint lit_match (ic : bool) (l s : jsstring) : option (jsstring * jsstring) :=
  match l, s with
  | [], _ => Some ([], s)
  | b :: l', a :: s' =>
      if char_match ic b a
      then match lit_match ic l' s' with
           | Some (w, rest) => Some (a :: w, rest)
           | None => None
           end
      else None
  | _ :: _, [] => None
  end.

(** The character before the position reached after consuming [w]. *)
Definition last_char (prev : option ascii) (w : jsstring) : option ascii :=
  match last w with Some a => Some a | None => prev end.

Definition word_before (prev : option ascii) : bool :=
  match prev with Some a => is_word a | None => false end.

Definition word_after (s : jsstring) : bool :=
  match s with a :: _ => is_word a | [] => false end.

(** [\b] holds between a word character and a non-word character or an end
    of the input. *)
Definition word_boundary (prev : option ascii) (s : jsstring) : bool :=
  xorb (word_before prev) (word_after s).

Definition hi_allows (hi : option nat) : bool :=
  match hi with Some O => false | _ => true end.

(** A greedy quantifier: as many characters of the class as allowed, then
    fewer, down to [lo], until the continuation [k] accepts. *)
Fixpoint rep_greedy {A : Type} (p : ascii -> bool) (lo : nat) (hi : option nat)
    (s : jsstring) (k : jsstring -> jsstring -> option A) : option A :=
  let stop := match lo with O => k [] s | S _ => None end in
  match s with
  | a :: s' =>
      if p a && hi_allows hi
      then match rep_greedy p (Nat.pred lo) (Nat.pred <$> hi) s'
                   (fun w rest => k (a :: w) rest) with
           | Some x => Some x
           | None => stop
           end
      else stop
  | [] => stop
  end.

(** The backtracking matcher.  [rmatch ic r prev s c k] runs [r] at the head
    of [s], [prev] being the character before it; the continuation [k]
    receives the text consumed, the remaining input and the captures, and
    its failure makes the matcher try its next choice. *)
Fixpoint rmatch {A : Type} (ic : bool) (r : regex) (prev : option ascii)
    (s : jsstring) (c : captures)
    (k : jsstring -> jsstring -> captures -> option A) : option A :=
  match r with
  | Lit l =>
      match lit_match ic l s with
      | Some (w, rest) => k w rest c
      | None => None
      end
  | Cls p =>
      match s with
      | a :: rest => if p a then k [a] rest c else None
      | [] => None
      end
  | Seq r1 r2 =>
      rmatch ic r1 prev s c (fun w1 s1 c1 =>
        rmatch ic r2 (last_char prev w1) s1 c1 (fun w2 s2 c2 =>
          k (w1 ++ w2) s2 c2))
  | Alt r1 r2 =>
      match rmatch ic r1 prev s c k with
      | Some x => Some x
      | None => rmatch ic r2 prev s c k
      end
  | Rep p lo hi => rep_greedy p lo hi s (fun w rest => k w rest c)
  | Opt r' =>
      match rmatch ic r' prev s c k with
      | Some x => Some x
      | None => k [] s c
      end
  | Grp i r' => rmatch ic r' prev s c (fun w rest c1 => k w rest (<[i:=w]> c1))
  | WordB => if word_boundary prev s then k [] s c else None
  end.

(** The result of [RegExp.prototype.exec]: the text before the match, the
    match ([m[0]]), the text after it, and the groups ([m[i]]; a group that
    took no part is [undefined]). *)
Record match_result : Type := MatchResult {
  m_pre : jsstring;
  m_all : jsstring;
  m_post : jsstring;
  m_caps : captures
}.

(** The search for the leftmost match in [s], which follows [pre] in the
    subject: [pre] is the subject up to [lastIndex]. *)
Fixpoint exec_from (ic : bool) (r : regex) (pre s : jsstring) : option match_result :=
  match rmatch ic r (last pre) s ∅ (fun w rest c => Some (MatchResult pre w rest c)) with
  | Some m => Some m
  | None =>
      match s with
      | [] => None
      | a :: s' => exec_from ic r (pre ++ [a]) s'
      end
  end.

(** [rx.exec(text)] for a regular expression without the [g] flag. *)
Definition exec (ic : bool) (r : regex) (text : jsstring) : option match_result :=
  exec_from ic r [] text.

(** [rx.test(text)]. *)
Definition test (ic : bool) (r : regex) (text : jsstring) : bool :=
  match exec ic r text with Some _ => true | None => false end.

(** [text.replace(rx, "")] for a regular expression without the [g] flag:
    the first match is cut out. *)
Definition replace_first_empty (ic : bool) (r : regex) (text : jsstring) : jsstring :=
  match exec ic r text with
  | Some m => m_pre m ++ m_post m
  | None => text
  end.

(** [m[i]]: group [i] of a match, [undefined] when it took no part. *)
Definition group (m : match_result) (i : nat) : option jsstring := m_caps m !! i.

(** *** The patterns of the source *)

(** "/PSA\s*([0-9]{1,2})\s*([0-9,]+)/gi" *)
Definition rx_grade : regex :=
  Seq (Lit (str "PSA"))
 (Seq (Star is_space)
 (Seq (Grp 1 (Rep is_digit 1 (Some 2%nat)))
 (Seq (Star is_space)
      (Grp 2 (Plus is_digit_or_comma))))).

(** "/Total\s*Population\s*([0-9,]+)/i" *)
Definition rx_total : regex :=
  Seq (Lit (str "Total"))
 (Seq (Star is_space)
 (Seq (Lit (str "Population"))
 (Seq (Star is_space)
      (Grp 1 (Plus is_digit_or_comma))))).

(** "/(Total\s* )?Population\s*([0-9,]+)/i", written here with a blank
    after the first star that the source does not have. *)
Definition rx_total_opt : regex :=
  Seq (Opt (Grp 1 (Seq (Lit (str "Total")) (Star is_space))))
 (Seq (Lit (str "Population"))
 (Seq (Star is_space)
      (Grp 2 (Plus is_digit_or_comma)))).

(** "\d{1,4}\s*\/\s*\d{1,4}", the card-number fraction *)
Definition rx_fraction : regex :=
  Seq (Rep is_digit 1 (Some 4%nat))
 (Seq (Star is_space)
 (Seq (Lit (str "/"))
 (Seq (Star is_space)
      (Rep is_digit 1 (Some 4%nat))))).

(** "/(\d{1,4}\s*\/\s*\d{1,4})/" *)
Definition rx_card_number : regex := Grp 1 rx_fraction.

(** "/total\s*population/i" *)
Definition rx_total_marker : regex :=
  Seq (Lit (str "total")) (Seq (Star is_space) (Lit (str "population"))).

(** "/(PSA\s*\d)|(\d{1,4}\s*\/\s*\d{1,4})/i" *)
Definition rx_card_hint : regex :=
  Alt (Grp 1 (Seq (Lit (str "PSA")) (Seq (Star is_space) (Cls is_digit))))
      (Grp 2 rx_fraction).

(** "/([A-Za-z0-9'’\- :]{2,60})\s+\d{1,4}\s*\/\s*\d{1,4}/" *)
Definition rx_name_before_number : regex :=
  Seq (Grp 1 (Rep is_name_char 2 (Some 60%nat)))
 (Seq (Plus is_space) rx_fraction).

(** "/\b(Pop(ulation)?\s*Report)\b/i" *)
Definition rx_pop_report : regex :=
  Seq WordB
 (Seq (Grp 1 (Seq (Lit (str "Pop"))
             (Seq (Opt (Grp 2 (Lit (str "ulation"))))
             (Seq (Star is_space) (Lit (str "Report"))))))
      WordB).

(** ** Field extractors *)

(** [cleanNum(m[i])]: [cleanNum(undefined)] is [null]. *)
Definition cleanNum_group (o : option jsstring) : option jsnum :=
  match o with Some s => cleanNum s | None => None end.

(** [m[i]] inside a template literal or pushed as a string; every group of
    [rx_grade] and [rx_card_number] takes part in every match. *)
Definition group_text (m : match_result) (i : nat) : jsstring :=
  default [] (group m i).

(** The key [`PSA ${grade}`]. *)
Definition grade_key (g : jsstring) : jsstring := str "PSA " ++ g.

(** [if (val != null) grades[`PSA ${grade}`] = val]. *)
Definition set_grade (grades : gmap jsstring jsnum) (g : jsstring)
    (val : option jsnum) : gmap jsstring jsnum :=
  match val with
  | Some v => <[grade_key g := v]> grades
  | None => grades
  end.

(** The loop of [extractGrades]: [while ((m = rx.exec(text))) { ... }] with
    the global [rx_grade]; [pre] is the text up to [rx.lastIndex].  A match
    of [rx_grade] is never empty, so the loop ends; [fuel] bounds its
    iterations. *)
Fixpoint extractGrades_loop (fuel : nat) (pre s : jsstring)
    (grades : gmap jsstring jsnum) : gmap jsstring jsnum :=
  match fuel with
  | O => grades
  | S fuel' =>
      match exec_from true rx_grade pre s with
      | None => grades
      | Some m =>
          let grade := group_text m 1 in
          let val := cleanNum_group (group m 2) in
          extractGrades_loop fuel' (m_pre m ++ m_all m) (m_post m)
            (set_grade grades grade val)
      end
  end.

(** [extractGrades] of [src/api/scrapeSet.js] and [src/unnamed/part_003]. *)
Definition extractGrades (text : jsstring) : gmap jsstring jsnum :=
  extractGrades_loop (S (length text)) [] text ∅.

(** [extractCardNumberChunk]; [extractCardNumber] in the strict variant. *)
Definition extractCardNumberChunk (text : jsstring) : option jsstring :=
  match exec false rx_card_number text with
  | Some m => Some (remove_spaces (group_text m 1))
  | None => None
  end.

(** ** Documents and records *)

(** A node of the loaded document: [$(el).text()] and
    [$(el).find(sel).first().text()] (empty when [sel] finds nothing). *)
Record node : Type := Node {
  node_text : jsstring;
  find_first_text : jsstring -> jsstring
}.

(** The loaded document: [$(sel).toArray()]. *)
Definition document : Type := jsstring -> list node.

(** The record of a card in the response. *)
Record CardRecord : Type := Card {
  name : jsstring;
  details : jsstring;
  cardNumber : option jsstring;
  totalPop : option jsnum;
  grades : gmap jsstring jsnum
}.

(** A record of the broad sweeps before the response is built: the fields of
    the card and [_len], the length of the block's text. *)
Record block : Type := Block {
  rest : CardRecord;
  _len : nat
}.

(** The parameters of the request that the pipeline reads. *)
Record query : Type := Query {
  pokemonName : option jsstring;
  q_cardNumber : option jsstring;
  limit : option jsstring
}.

(** ** Filter and limit *)

(** [a || b] on values that are a string or [null]. *)
Definition or_opt (a b : option jsstring) : option jsstring :=
  if truthy_opt a then a else b.

(** The text of a parameter known to be truthy. *)
Definition String_of (o : option jsstring) : jsstring := default [] o.

(** The predicate of the name filter:
    [(r.name && r.name.toLowerCase().includes(q)) || (r.details && ...)]. *)
Definition name_matches (q : jsstring) (r : CardRecord) : bool :=
  (truthy (name r) && includes (toLowerCase (name r)) q)
  || (truthy (details r) && includes (toLowerCase (details r)) q).

(** [r.cardNumber && r.cardNumber.replace(/\s+/g, "") === want]. *)
Definition number_matches (want : jsstring) (r : CardRecord) : bool :=
  match cardNumber r with
  | Some c => truthy c && jsstring_eqb (remove_spaces c) want
  | None => false
  end.

(** [if (pokemonName) { filtered = filtered.filter(...) }]. *)
Definition filter_by_name {A : Type} (card : A -> CardRecord)
    (pokemonName : option jsstring) (rows : list A) : list A :=
  if truthy_opt pokemonName
  then let q := toLowerCase (String_of pokemonName) in
       List.filter (fun r => name_matches q (card r)) rows
  else rows.

(** [if (cardNumber) { filtered = filtered.filter(...) }]. *)
Definition filter_by_number {A : Type} (card : A -> CardRecord)
    (cardNumber : option jsstring) (rows : list A) : list A :=
  if truthy_opt cardNumber
  then let want := remove_spaces (String_of cardNumber) in
       List.filter (fun r => number_matches want (card r)) rows
  else rows.

(** [Math.min(200, x)]. *)
Definition Math_min_200 (x : jsnum) : jsnum :=
  match x with
  | NaN => NaN
  | PInf => Fin 200
  | NInf => NInf
  | Fin q => if Qle_bool q 200 then Fin q else Fin 200
  end.

(** [Math.max(1, x)]. *)
Definition Math_max_1 (x : jsnum) : jsnum :=
  match x with
  | NaN => NaN
  | PInf => PInf
  | NInf => Fin 1
  | Fin q => if Qle_bool 1 q then Fin q else Fin 1
  end.

(** The truth value of a number: [NaN] and zero are falsy. *)
Definition truthy_num (x : jsnum) : bool :=
  match x with
  | NaN => false
  | Fin q => negb (Qeq_bool q 0)
  | _ => true
  end.

(** [ToIntegerOrInfinity] of a finite number: truncation towards zero. *)
Definition Qtrunc (q : Q) : Z :=
  if Qle_bool 0 q then Qfloor q else Qceiling q.

(** [l.slice(0, lim)]. *)
Definition slice_to {A : Type} (lim : jsnum) (l : list A) : list A :=
  match lim with
  | NaN => []
  | NInf => []
  | PInf => l
  | Fin q =>
      let k := Qtrunc q in
      if (k <? 0)%Z
      then take (Z.to_nat (Z.max (Z.of_nat (length l) + k) 0)) l
      else take (Z.to_nat k) l
  end.

(** [const lim = limit ? Math.max(1, Math.min(200, Number(limit))) : null;
     const out = lim ? filtered.slice(0, lim) : filtered;]
    [Number] is the conversion of a string to a number of the language. *)
Definition lim_of (Number : jsstring -> jsnum) (limit : option jsstring)
    : option jsnum :=
  if truthy_opt limit
  then Some (Math_max_1 (Math_min_200 (Number (String_of limit))))
  else None.

Definition apply_limit {A : Type} (Number : jsstring -> jsnum)
    (limit : option jsstring) (filtered : list A) : list A :=
  match lim_of Number limit with
  | Some lim => if truthy_num lim then slice_to lim filtered else filtered
  | None => filtered
  end.

(** [Number] on the strings of decimal digits, the form a limit takes in a
    request such as [?limit=25] (the empty string is zero); the other numeric
    forms of the language are left out, and the properties below are stated
    for any conversion. *)
Definition Number_decimal (s : jsstring) : jsnum :=
  if forallb is_digit s then Number_digits s else NaN.

(** The text of a node as every loop over the nodes reads it:
    [$el.text().replace(/\s+/g, " ").trim()]. *)
Definition block_text (el : node) : jsstring :=
  trim (collapse_spaces (node_text el)).

(** ** The structural variant: [src/api/scrapeSet.js] *)

Module Structural.

Definition CANDIDATE_CARD_SELECTORS : list jsstring :=
  [ str ".card"; str ".card-box"; str ".card-item"; str "article";
    str "li.card"; str "div[class*='card']" ].

(** The list of the fetch-based file in [src/unnamed/part_002], which has
    one more query. *)
Definition CANDIDATE_CARD_SELECTORS_has : list jsstring :=
  CANDIDATE_CARD_SELECTORS ++ [ str "div:has(h2):has(:contains('Total'))" ].

Definition heuristic_selector : jsstring :=
  str "(heuristic div contains 'Total Population')".

Definition extractTotal (text : jsstring) : option jsnum :=
  match exec true rx_total text with
  | Some m => cleanNum_group (group m 1)
  | None => None
  end.

Definition extractNameAndDetails (el : node) : jsstring * jsstring :=
  let name :=
    or_else (trim (find_first_text el (str "h2")))
   (or_else (trim (find_first_text el (str "h3")))
   (or_else (trim (find_first_text el (str ".name")))
            [])) in
  let details :=
    or_else (trim (find_first_text el (str "p")))
   (or_else (trim (find_first_text el (str ".details")))
            []) in
  (name, details).

(** One turn of [for (const sel of CANDIDATE_CARD_SELECTORS)]; the state
    is [(bestSelector, best)]. *)
Definition select_step (doc : document)
    (st : option jsstring * list node) (sel : jsstring)
    : option jsstring * list node :=
  let found := doc sel in
  if (length (snd st) <? length found)%nat then (Some sel, found) else st.

Definition select_best (sels : list jsstring) (doc : document)
    : option jsstring * list node :=
  fold_left (select_step doc) sels (None, []).

(** The fallback: every [div] whose text has the marker. *)
Definition fallback_candidates (doc : document) : list node :=
  List.filter
    (fun el => includes (toLowerCase (node_text el)) (str "total population"))
    (doc (str "div")).

(** The block selector: the loop over the queries, then the fallback. *)
Definition select_blocks (sels : list jsstring) (doc : document)
    : option jsstring * list node :=
  let st := select_best sels doc in
  if (length (snd st) =? 0)%nat
  then (Some heuristic_selector, fallback_candidates doc)
  else st.

(** The body of [for (const el of best)]: the record pushed, or nothing
    after a [continue]. *)
Definition row_of (el : node) : option CardRecord :=
  let text := block_text el in
  if negb (test true rx_total_marker text) then None
  else
    let '(name, details) := extractNameAndDetails el in
    let totalPop := extractTotal text in
    let grades := extractGrades text in
    let numberChunk :=
      or_opt (extractCardNumberChunk text) (extractCardNumberChunk details) in
    if negb (truthy name) && negb (truthy details) then None
    else Some (Card name details (or_null numberChunk) totalPop grades).

Definition rows_of (best : list node) : list CardRecord := omap row_of best.

(** The optional filtering. *)
Definition filter_rows (q : query) (rows : list CardRecord) : list CardRecord :=
  filter_by_number id (q_cardNumber q) (filter_by_name id (pokemonName q) rows).

Record response : Type := Response {
  selectorUsed : option jsstring;
  totalFound : nat;
  returned : nat;
  filteredBy : option jsstring * option jsstring;
  cards : list CardRecord
}.

(** [handler] from [const $ = cheerio.load(html)] on, for a request that
    has a [setSlug] and a page that was fetched. *)
Definition handler_with (sels : list jsstring) (Number : jsstring -> jsnum)
    (doc : document) (q : query) : response :=
  let '(bestSelector, best) := select_blocks sels doc in
  let rows := rows_of best in
  let filtered := filter_rows q rows in
  let out := apply_limit Number (limit q) filtered in
  Response bestSelector (length rows) (length out)
    (or_null (pokemonName q), or_null (q_cardNumber q)) out.

Definition handler := handler_with CANDIDATE_CARD_SELECTORS.

End Structural.

(** ** The broad sweeps: what [src/unnamed/part_003] and the first file of
    [src/unnamed/part_002] share *)

(** [/(Total\s* )?Population\s*([0-9,]+)/i.exec(text)], then [cleanNum(m[2])]. *)
Definition extractTotal_optional (text : jsstring) : option jsnum :=
  match exec true rx_total_opt text with
  | Some m => cleanNum_group (group m 2)
  | None => None
  end.

Definition extractNameAndDetails_sweep (el : node) : jsstring * jsstring :=
  let name := or_else (trim (find_first_text el (str "h2, h3, .name, .title"))) [] in
  let details :=
    or_else (trim (find_first_text el (str "p, .details, small, .subtitle, .sub"))) [] in
  (name, details).

(** [filtered.sort((a, b) => (b._len || 0) - (a._len || 0))]: the sort of
    the language is stable; [x] goes before the first record that is not
    longer. *)
Fixpoint insert_by_len (x : block) (l : list block) : list block :=
  match l with
  | [] => [x]
  | y :: l' =>
      if (_len x <? _len y)%nat then y :: insert_by_len x l' else x :: l
  end.

Definition sort_by_len (l : list block) : list block :=
  foldr insert_by_len [] l.

Record sweep_response : Type := SweepResponse {
  sw_totalFound : nat;
  sw_returned : nat;
  sw_filteredBy : option jsstring * option jsstring;
  sw_cards : list CardRecord
}.

(** [out.map(({ _len, ...rest }) => rest)]. *)
Definition strip_len (out : list block) : list CardRecord := map rest out.

(** ** The loose broad sweep: [src/unnamed/part_003] *)

Module Loose.

Definition extractTotal := extractTotal_optional.
Definition extractNameAndDetails := extractNameAndDetails_sweep.

Definition candidates (doc : document) : list node :=
  doc (str "section, article, div").

(** The body of [for (const el of candidates)]. *)
Definition block_of (el : node) : option block :=
  let text := block_text el in
  if negb (test true rx_card_hint text) then None
  else
    let grades := extractGrades text in
    let totalPop := extractTotal text in
    let numChunk := extractCardNumberChunk text in
    let '(name, details) := extractNameAndDetails el in
    if (size grades =? 0)%nat && negb (truthy_opt numChunk) then None
    else Some (Block (Card name details (or_null numChunk) totalPop grades)
                     (length text)).

Definition blocks_of (cands : list node) : list block := omap block_of cands.

(** [`${(b.name || "").toLowerCase()}|${b.cardNumber || ""}`]. *)
Definition key_of (b : block) : jsstring :=
  toLowerCase (or_else (name (rest b)) [])
  ++ str "|" ++ String_of (or_opt (cardNumber (rest b)) (Some [])).

(** One turn of [for (const b of blocks)]; the state is [(seen, rows)]. *)
Definition dedup_step (st : gset jsstring * list block) (b : block)
    : gset jsstring * list block :=
  let key := key_of b in
  if bool_decide (key ∈ fst st) && negb (jsstring_eqb key (str "|"))
  then st
  else ({[ key ]} ∪ fst st, snd st ++ [b]).

Definition dedup (blocks : list block) : list block :=
  snd (fold_left dedup_step blocks (∅, [])).

Definition filter_rows (q : query) (rows : list block) : list block :=
  filter_by_number rest (q_cardNumber q) (filter_by_name rest (pokemonName q) rows).

(** [handler] from [const $ = cheerio.load(html)] on; the [debug] block is
    left out. *)
Definition handler (Number : jsstring -> jsnum) (doc : document) (q : query)
    : sweep_response :=
  let blocks := blocks_of (candidates doc) in
  let rows := dedup blocks in
  let filtered := sort_by_len (filter_rows q rows) in
  let out := apply_limit Number (limit q) filtered in
  SweepResponse (length rows) (length out)
    (or_null (pokemonName q), or_null (q_cardNumber q)) (strip_len out).

End Loose.

(** ** The strict broad sweep: the first file of [src/unnamed/part_002] *)

Module Strict.

Record grade_entry : Type := GradeEntry {
  grade : jsstring;
  value : option jsnum
}.

(** The loop of [findGrades]:
    [while ((m = rx.exec(text))) out.push({ grade: m[1], value: cleanNum(m[2]) })]. *)
Fixpoint findGrades_loop (fuel : nat) (pre s : jsstring) : list grade_entry :=
  match fuel with
  | O => []
  | S fuel' =>
      match exec_from true rx_grade pre s with
      | None => []
      | Some m =>
          GradeEntry (group_text m 1) (cleanNum_group (group m 2))
          :: findGrades_loop fuel' (m_pre m ++ m_all m) (m_post m)
      end
  end.

Definition findGrades (text : jsstring) : list grade_entry :=
  findGrades_loop (S (length text)) [] text.

Definition extractGradesMap (text : jsstring) : gmap jsstring jsnum :=
  fold_left (fun grades g => set_grade grades (grade g) (value g))
    (findGrades text) ∅.

Definition extractTotal := extractTotal_optional.
Definition extractCardNumber := extractCardNumberChunk.
Definition extractNameAndDetails := extractNameAndDetails_sweep.

Definition fallbackNameFromText (text : jsstring) : jsstring :=
  match exec false rx_name_before_number text with
  | None => []
  | Some m => trim (replace_first_empty true rx_pop_report (group_text m 1))
  end.

Definition candidates (doc : document) : list node :=
  doc (str "article, section, li, div").

(** [new Set(gradeList.map(g => g.grade)).size]. *)
Definition distinctGrades (gradeList : list grade_entry) : nat :=
  size (list_to_set (map grade gradeList) : gset jsstring).

(** The body of [for (const el of candidates)]. *)
Definition kept_of (el : node) : option block :=
  let raw := block_text el in
  if negb (truthy raw) then None
  else
    let num := extractCardNumber raw in
    if negb (truthy_opt num) then None
    else
      let gradeList := findGrades raw in
      if (distinctGrades gradeList <? 3)%nat then None
      else
        let '(name0, details) := extractNameAndDetails el in
        let name :=
          if negb (truthy name0)
          then let guess := fallbackNameFromText raw in
               if truthy guess then guess else name0
          else name0 in
        let grades := extractGradesMap raw in
        let totalPop := extractTotal raw in
        if (size grades =? 0)%nat then None
        else Some (Block (Card name details num totalPop grades) (length raw)).

Definition kept (cands : list node) : list block := omap kept_of cands.

(** A value that is a string or [null] inside a template literal. *)
Definition template (o : option jsstring) : jsstring :=
  match o with Some s => s | None => str "null" end.

(** [`${(b.name || "").toLowerCase()}|${b.cardNumber}`]. *)
Definition key_of (b : block) : jsstring :=
  toLowerCase (or_else (name (rest b)) [])
  ++ str "|" ++ template (cardNumber (rest b)).

Definition dedup_step (st : gset jsstring * list block) (b : block)
    : gset jsstring * list block :=
  let key := key_of b in
  if bool_decide (key ∈ fst st)
  then st
  else ({[ key ]} ∪ fst st, snd st ++ [b]).

Definition dedup (blocks : list block) : list block :=
  snd (fold_left dedup_step blocks (∅, [])).

(** [r.cardNumber === want]. *)
Definition number_is (want : jsstring) (r : CardRecord) : bool :=
  match cardNumber r with
  | Some c => jsstring_eqb c want
  | None => false
  end.

Definition filter_rows (q : query) (rows : list block) : list block :=
  let filtered := filter_by_name rest (pokemonName q) rows in
  if truthy_opt (q_cardNumber q)
  then let want := remove_spaces (String_of (q_cardNumber q)) in
       List.filter (fun r => number_is want (rest r)) filtered
  else filtered.

(** [handler] from [const $ = cheerio.load(html)] on; the [debug] block is
    left out. *)
Definition handler (Number : jsstring -> jsnum) (doc : document) (q : query)
    : sweep_response :=
  let rows := dedup (kept (candidates doc)) in
  let filtered := sort_by_len (filter_rows q rows) in
  let out := apply_limit Number (limit q) filtered in
  SweepResponse (length rows) (length out)
    (or_null (pokemonName q), or_null (q_cardNumber q)) (strip_len out).

End Strict.

(** ** What the patterns denote

    [Matches ic r prev w rest c c'] : at a position preceded by the
    character [prev] and followed by [w ++ rest], the pattern [r] can
    consume exactly [w], turning the captures [c] into [c']. *)

Definition all_of (p : ascii -> bool) (w : jsstring) : Prop :=
  Forall (fun a => p a = true) w.

(** [w] is [pat] up to the case rule of the flag [ic]. *)
Definition spelled (ic : bool) (pat w : jsstring) : Prop :=
  Forall2 (fun b a => char_match ic b a = true) pat w.

Definition within (lo : nat) (hi : option nat) (n : nat) : Prop :=
  (lo <= n)%nat /\ match hi with Some h => (n <= h)%nat | None => True end.

Inductive Matches (ic : bool)
  : regex -> option ascii -> jsstring -> jsstring -> captures -> captures -> Prop :=
| M_Lit l prev w rest c :
    spelled ic l w ->
    Matches ic (Lit l) prev w rest c c
| M_Cls p prev a rest c :
    p a = true ->
    Matches ic (Cls p) prev [a] rest c c
| M_Seq r1 r2 prev w1 w2 rest c c1 c2 :
    Matches ic r1 prev w1 (w2 ++ rest) c c1 ->
    Matches ic r2 (last_char prev w1) w2 rest c1 c2 ->
    Matches ic (Seq r1 r2) prev (w1 ++ w2) rest c c2
| M_AltL r1 r2 prev w rest c c1 :
    Matches ic r1 prev w rest c c1 ->
    Matches ic (Alt r1 r2) prev w rest c c1
| M_AltR r1 r2 prev w rest c c2 :
    Matches ic r2 prev w rest c c2 ->
    Matches ic (Alt r1 r2) prev w rest c c2
| M_Rep p lo hi prev w rest c :
    all_of p w -> within lo hi (length w) ->
    Matches ic (Rep p lo hi) prev w rest c c
| M_OptSome r prev w rest c c1 :
    Matches ic r prev w rest c c1 ->
    Matches ic (Opt r) prev w rest c c1
| M_OptNone r prev rest c :
    Matches ic (Opt r) prev [] rest c c
| M_Grp i r prev w rest c c1 :
    Matches ic r prev w rest c c1 ->
    Matches ic (Grp i r) prev w rest c (<[i:=w]> c1)
| M_WordB prev rest c :
    word_boundary prev rest = true ->
    Matches ic WordB prev [] rest c c.

(** [r] has a match in [text] that starts right after [pre]. *)
Definition matches_at (ic : bool) (r : regex) (text pre : jsstring) : Prop :=
  exists w post c, text = pre ++ w ++ post /\ Matches ic r (last pre) w post ∅ c.

(** *** The shapes the specification names *)

(** One to four digits. *)
Definition digits_1_4 (d : jsstring) : Prop :=
  all_of is_digit d /\ (1 <= length d <= 4)%nat.

(** A card-number fraction as it stands in a text: one to four digits, a
    slash, one to four digits, white space allowed around the slash. *)
Definition fraction_token (w : jsstring) : Prop :=
  exists d1 ws1 ws2 d2,
    w = d1 ++ ws1 ++ str "/" ++ ws2 ++ d2
    /\ digits_1_4 d1 /\ all_of is_space ws1 /\ all_of is_space ws2 /\ digits_1_4 d2.

(** A normalized card number: digits, slash, digits, nothing else. *)
Definition card_number_form (s : jsstring) : Prop :=
  exists d1 d2, s = d1 ++ str "/" ++ d2 /\ digits_1_4 d1 /\ digits_1_4 d2.

(** [text] has a fraction token that starts right after [pre]. *)
Definition fraction_at (text pre : jsstring) : Prop :=
  exists w post, text = pre ++ w ++ post /\ fraction_token w.

Definition has_fraction (text : jsstring) : Prop :=
  exists pre, fraction_at text pre.

(** A number token: digits and commas, at least one. *)
Definition number_token (num : jsstring) : Prop :=
  all_of is_digit_or_comma num /\ num <> [].

(** "Population", white space, a number token; any case. *)
Definition population_phrase (w num : jsstring) : Prop :=
  exists P ws,
    w = P ++ ws ++ num
    /\ spelled true (str "Population") P /\ all_of is_space ws /\ number_token num.

(** "Total", white space, then a population phrase. *)
Definition total_population_phrase (w num : jsstring) : Prop :=
  exists T ws w',
    w = T ++ ws ++ w'
    /\ spelled true (str "Total") T /\ all_of is_space ws /\ population_phrase w' num.

(** An occurrence "PSA g v": the label in any case, a grade of one or two
    digits, a number token, white space allowed between them. *)
Definition grade_occurrence (w g num : jsstring) : Prop :=
  exists P ws1 ws2,
    w = P ++ ws1 ++ g ++ ws2 ++ num
    /\ spelled true (str "PSA") P /\ all_of is_space ws1
    /\ all_of is_digit g /\ (1 <= length g <= 2)%nat
    /\ all_of is_space ws2 /\ number_token num.

(** The positional value of a string of digits. *)
Fixpoint decimal (d : jsstring) : Z :=
  match d with
  | [] => 0
  | a :: d' => digit_val a * 10 ^ Z.of_nat (length d') + decimal d'
  end.

(** What a count can be: a natural number, or [Infinity] when the digits go
    beyond the range of a double. *)
Definition count_value (v : jsnum) : Prop :=
  v = PInf \/ exists n : Z, 0 <= n /\ v = Fin (inject_Z n).

(** [v] is the double nearest to the natural number [n], for [n] from 2^53
    on.  With [2^e] the distance between the doubles around [n], a finite [v]
    is [m * 2^e] with [m] of 53 bits (or 2^53, the first double of the next
    range), it is no further from [n] than half of [2^e], and [m] is even
    when [n] lies half way between two doubles.  [v] is [Infinity] only from
    2^1024 - 2^970 on, half way between the greatest double and 2^1024. *)
Definition nearest_double (n : Z) (v : jsnum) : Prop :=
  (v = PInf /\ 2 ^ 1024 - 2 ^ 970 <= n)
  \/ exists m e,
       v = Fin (inject_Z (m * 2 ^ e))
       /\ 1 <= e /\ 2 ^ 52 <= m <= 2 ^ 53 /\ m * 2 ^ e < 2 ^ 1024
       /\ 2 ^ 52 * 2 ^ e <= n < 2 ^ 53 * 2 ^ e
       /\ 2 * Z.abs (m * 2 ^ e - n) <= 2 ^ e
       /\ (2 * Z.abs (m * 2 ^ e - n) = 2 ^ e -> Z.even m = true).

(** A phrase stands in [text] right after [pre]. *)
Definition phrase_at (phrase : jsstring -> jsstring -> Prop)
    (text pre num : jsstring) : Prop :=
  exists w post, text = pre ++ w ++ post /\ phrase w num.

(** The value that the last parsed occurrence of grade [g] gives. *)
Definition last_parsed (g : jsstring) (l : list Strict.grade_entry) : option jsnum :=
  last (omap (fun e => if decide (Strict.grade e = g) then Strict.value e else None) l).

(** [hay] holds [q] when case is ignored. *)
Definition contains_ignoring_case (hay q : jsstring) : Prop :=
  exists pre post, toLowerCase hay = pre ++ toLowerCase q ++ post.

(** The number of records that a limit with numeric value [v] lets through:
    the value brought into [1, 200], fractions dropped. *)
Definition clamp_count (v : jsnum) : option nat :=
  match v with
  | NaN => None
  | PInf => Some 200%nat
  | NInf => Some 1%nat
  | Fin q => Some (Z.to_nat (Z.max 1 (Z.min 200 (Qfloor q))))
  end.

(** The run [w] of a greedy quantifier is the longest one: the input stops
    after it, or goes on with a character outside the class, or the upper
    bound is reached. *)
Definition run_ends (p : ascii -> bool) (hi : option nat) (n : nat)
    (rest : jsstring) : Prop :=
  match rest with
  | [] => True
  | b :: _ => p b = false \/ hi = Some n
  end.

(** *** The tokens as the patterns take them

    A greedy quantifier takes the longest run that lets the rest of the
    pattern match, so the token an extractor reads is fixed by the place
    where it starts. *)

(** [out] is the first fraction of [text]: the token starts at the leftmost
    place where a fraction stands, its denominator takes every digit that
    follows, up to four, and [out] is the token without its white space. *)
Definition first_fraction (text out : jsstring) : Prop :=
  exists pre d1 ws1 ws2 d2 post,
    text = pre ++ (d1 ++ ws1 ++ str "/" ++ ws2 ++ d2) ++ post
    /\ digits_1_4 d1 /\ all_of is_space ws1 /\ all_of is_space ws2 /\ digits_1_4 d2
    /\ run_ends is_digit (Some 4%nat) (length d2) post
    /\ (forall pre', fraction_at text pre' -> (length pre <= length pre')%nat)
    /\ out = d1 ++ str "/" ++ d2.

(** [num] is the number of the first population phrase of [text]: the
    phrase "Population", white space or none, digits and commas, that starts
    leftmost, with every digit and comma that follows taken. *)
Definition first_population (text num : jsstring) : Prop :=
  exists pre P ws post,
    text = pre ++ (P ++ ws ++ num) ++ post
    /\ spelled true (str "Population") P /\ all_of is_space ws /\ number_token num
    /\ run_ends is_digit_or_comma None (length num) post
    /\ (forall pre' num', phrase_at population_phrase text pre' num' ->
          (length pre <= length pre')%nat).

(** The same for the phrase that starts with "Total". *)
Definition first_total_population (text num : jsstring) : Prop :=
  exists pre T ws0 P ws post,
    text = pre ++ (T ++ ws0 ++ P ++ ws ++ num) ++ post
    /\ spelled true (str "Total") T /\ all_of is_space ws0
    /\ spelled true (str "Population") P /\ all_of is_space ws /\ number_token num
    /\ run_ends is_digit_or_comma None (length num) post
    /\ (forall pre' num', phrase_at total_population_phrase text pre' num' ->
          (length pre <= length pre')%nat).

(** A count can follow at the head of [s]: white space or none, then
    digits and commas. *)
Definition count_follows (s : jsstring) : Prop :=
  exists ws num rest, s = ws ++ num ++ rest /\ all_of is_space ws /\ number_token num.

(** The occurrence "PSA g v" that is read at the head of [s], [post] being
    what follows it.  The count takes every digit and comma that stands
    there.  The grade takes two digits when it can; it has one digit when
    no second digit follows, or when no count could follow the second digit
    (in "PSA 10" the grade is 1 and the count 0). *)
Definition grade_read (s g num post : jsstring) : Prop :=
  exists P ws1 ws2,
    s = (P ++ ws1 ++ g ++ ws2 ++ num) ++ post
    /\ spelled true (str "PSA") P /\ all_of is_space ws1
    /\ all_of is_digit g /\ (1 <= length g <= 2)%nat
    /\ all_of is_space ws2 /\ number_token num
    /\ run_ends is_digit_or_comma None (length num) post
    /\ (length g = 1%nat ->
        forall c r, ws2 ++ num ++ post = c :: r -> is_digit c = true ->
          ~ count_follows r).

(** The occurrences "PSA g v" of a text, from left to right: each is read
    at the leftmost place where one stands in what follows the one before,
    and the list ends where no further occurrence exists. *)
Inductive Occurrences : jsstring -> list Strict.grade_entry -> Prop :=
| Occ_none s :
    (forall sk w post g num, s = sk ++ w ++ post -> ~ grade_occurrence w g num) ->
    Occurrences s []
| Occ_next s sk s1 g num post l :
    s = sk ++ s1 ->
    grade_read s1 g num post ->
    (forall sk' w' post' g' num',
        s = sk' ++ w' ++ post' -> grade_occurrence w' g' num' ->
        (length sk <= length sk')%nat) ->
    Occurrences post l ->
    Occurrences s (Strict.GradeEntry g (cleanNum num) :: l).

(** ** Inputs of the examples *)

(** A block of a rendered page that names a card and its number and has no
    grade line. *)
Definition number_only_block : node :=
  Node (str "Pikachu 4/102") (fun _ => []).

(** The two records of the filtering example of the specification. *)
Definition pikachu : CardRecord :=
  Card (str "Pikachu") [] (Some (str "4/102")) None ∅.
Definition raichu : CardRecord :=
  Card (str "Raichu") [] (Some (str "5/102")) None ∅.

(** A document in which [.card] finds one node and [article] two. *)
Definition card_node : node := Node (str "Total Population 1") (fun _ => []).
Definition two_articles (sel : jsstring) : list node :=
  if jsstring_eqb sel (str ".card") then [card_node]
  else if jsstring_eqb sel (str "article") then [card_node; card_node]
  else [].

(** ** Shapes of normalized text *)

(** Every white-space character of [s] is the plain space. *)
Definition plain_spaces (s : jsstring) : Prop :=
  Forall (fun a => is_space a = true -> a = " "%char) s.

Definition starts_with_space (s : jsstring) : bool :=
  match s with
  | a :: _ => is_space a
  | [] => false
  end.

Definition ends_with_space (s : jsstring) : bool :=
  starts_with_space (rev s).

(** No two neighbours in [s] are both white space. *)
Fixpoint single_spaced (s : jsstring) : Prop :=
  match s with
  | a :: s' => (is_space a = true -> starts_with_space s' = false) /\ single_spaced s'
  | [] => True
  end.

(** The text of a block as the extractors expect it: words separated by
    single plain spaces, no white space at either end. *)
Definition normalized (s : jsstring) : Prop :=
  plain_spaces s /\ single_spaced s
  /\ starts_with_space s = false /\ ends_with_space s = false.

(** ** Shapes of the records *)

(** The marker of the structural variant as it stands in a text: "total",
    white space or none, "population", in any case. *)
Definition total_marker (w : jsstring) : Prop :=
  exists T ws P,
    w = T ++ ws ++ P
    /\ spelled true (str "total") T /\ all_of is_space ws
    /\ spelled true (str "population") P.

Definition has_total_marker (text : jsstring) : Prop :=
  exists pre w post, text = pre ++ w ++ post /\ total_marker w.

(** A grade label: "PSA ", then one or two digits. *)
Definition grade_label (k : jsstring) : Prop :=
  exists g, k = grade_key g /\ all_of is_digit g /\ (1 <= length g <= 2)%nat.

(** What every record of a response satisfies: the texts are trimmed, the
    card number is absent or digits, slash, digits, the populations are
    counts and the grades are filed under grade labels. *)
Definition well_formed_card (r : CardRecord) : Prop :=
  trim (name r) = name r
  /\ trim (details r) = details r
  /\ (cardNumber r = None
      \/ exists num, cardNumber r = Some num /\ card_number_form num)
  /\ (forall n, totalPop r = Some n -> count_value n)
  /\ (forall k v, grades r !! k = Some v -> grade_label k /\ count_value v).

(** ** Order *)

(** No record of [l] is longer than one before it. *)
Fixpoint descending_len (l : list block) : Prop :=
  match l with
  | [] => True
  | x :: l' => Forall (fun y => (_len y <= _len x)%nat) l' /\ descending_len l'
  end.

(** The records of [l] whose block text has length [n], in their order. *)
Definition of_len (n : nat) (l : list block) : list block :=
  List.filter (fun b => (_len b =? n)%nat) l.

(** ** Keys and grades *)

(** The keys of [bs] other than the bare bar. *)
Definition proper_keys (bs : list block) : list jsstring :=
  List.filter (fun k => negb (jsstring_eqb k (str "|"))) (Loose.key_of <$> bs).

(** The records of [bs] that have neither name nor card number. *)
Definition anonymous (bs : list block) : list block :=
  List.filter (fun b => jsstring_eqb (Loose.key_of b) (str "|")) bs.

(** The grades of the occurrences whose count has a digit. *)
Definition parsed_grades (l : list Strict.grade_entry) : list jsstring :=
  omap (fun e => if Strict.value e is Some _ then Some (Strict.grade e) else None) l.

(** ** The address of the page *)

(** [String(setSlug).toLowerCase().replace(/\s+/g, "")].  On the code units
    of the model [toLowerCase] works character by character; beyond them it
    looks at the neighbours of a capital sigma, so nothing is claimed below
    about the slug of a text cut in pieces. *)
Definition slug_of (setSlug : jsstring) : jsstring :=
  remove_spaces (toLowerCase setSlug).

(** The characters that [encodeURIComponent] leaves as they are: letters,
    digits, and hyphen, underscore, full stop, exclamation mark, tilde,
    asterisk, apostrophe and the two parentheses. *)
Definition is_unreserved (a : ascii) : bool :=
  ((65 <=? code a)%nat && (code a <=? 90)%nat)
  || ((97 <=? code a)%nat && (code a <=? 122)%nat)
  || is_digit a
  || (code a =? 45)%nat || (code a =? 95)%nat || (code a =? 46)%nat
  || (code a =? 33)%nat || (code a =? 126)%nat || (code a =? 42)%nat
  || (code a =? 39)%nat || (code a =? 40)%nat || (code a =? 41)%nat.

Definition hex_digit (n : nat) : ascii :=
  nth n (str "0123456789ABCDEF") "0"%char.

(** A byte as a percent sign and two upper-case hexadecimal digits. *)
Definition percent_byte (n : nat) : jsstring :=
  [ "%"%char; hex_digit (n / 16); hex_digit (n mod 16) ].

(** The encoding of one code unit below 256: itself when unreserved,
    otherwise the bytes of its UTF-8 form, one below 128 and two from 128
    on. *)
Definition encode_unit (a : ascii) : jsstring :=
  if is_unreserved a then [a]
  else if (code a <? 128)%nat then percent_byte (code a)
  else percent_byte (192 + code a / 64) ++ percent_byte (128 + code a mod 64).

Definition encodeURIComponent (s : jsstring) : jsstring :=
  flat_map encode_unit s.

(** [`https://www.pikawiz.com/cards/pop-report/${encodeURIComponent(slug)}`]. *)
Definition page_url (slug : jsstring) : jsstring :=
  str "https://www.pikawiz.com/cards/pop-report/" ++ encodeURIComponent slug.

(** The address that the handler fetches for a [setSlug]. *)
Definition source_url (setSlug : jsstring) : jsstring :=
  page_url (slug_of setSlug).

(** ** The card list of the page: [src/src/App.jsx] *)

Module App.

(** The state of the price and of the population: the empty string they
    start as and are reset to, or the number their change handler stores. *)
Inductive field : Type :=
| Blank
| Num (x : jsnum).

Definition truthy_field (f : field) : bool :=
  match f with
  | Blank => false
  | Num x => truthy_num x
  end.

(** The number a field stands for in a product: the empty string is zero. *)
Definition to_number (f : field) : jsnum :=
  match f with
  | Blank => Fin 0
  | Num x => x
  end.

(** [{ name, price, population }]. *)
Record card : Type := Card {
  name : jsstring;
  price : field;
  population : field
}.

(** The four [useState] values of the component. *)
Record state : Type := State {
  cards : list card;
  form_name : jsstring;
  form_price : field;
  form_population : field
}.

Definition initial : state := State [] [] Blank Blank.

Definition addCard (st : state) : state :=
  if negb (truthy (form_name st))
     || negb (truthy_field (form_price st))
     || negb (truthy_field (form_population st))
  then st
  else State (cards st ++ [Card (form_name st) (form_price st) (form_population st)])
             [] Blank Blank.

(** What the user does: type in one of the three inputs, the value being
    [e.target.value], or click the button. *)
Inductive event : Type :=
| ChangeName (v : jsstring)
| ChangePrice (v : jsstring)
| ChangePopulation (v : jsstring)
| ClickAdd.

Definition is_click (e : event) : bool :=
  match e with ClickAdd => true | _ => false end.

Section Numbers.

(** The conversion of a string to a number and the sum and product of the
    language. *)
Variable Number : jsstring -> jsnum.
Variables add mul : jsnum -> jsnum -> jsnum.

(** The handlers: [setName(e.target.value)], [setPrice(Number(e.target.value))],
    [setPopulation(Number(e.target.value))] and [addCard]. *)
Definition step (st : state) (e : event) : state :=
  match e with
  | ChangeName v => State (cards st) v (form_price st) (form_population st)
  | ChangePrice v => State (cards st) (form_name st) (Num (Number v)) (form_population st)
  | ChangePopulation v => State (cards st) (form_name st) (form_price st) (Num (Number v))
  | ClickAdd => addCard st
  end.

Definition run (st : state) (es : list event) : state := fold_left step es st.

(** [cards.reduce((sum, card) => sum + card.price * card.population, 0)]. *)
Definition totalMarketCap (cs : list card) : jsnum :=
  fold_left
    (fun sum c => add sum (mul (to_number (price c)) (to_number (population c))))
    cs (Fin 0).

End Numbers.

(** A card with a name and with a price and a population that are numbers
    other than zero and [NaN]. *)
Definition complete (c : card) : Prop :=
  name c <> []
  /\ exists x y, price c = Num x /\ population c = Num y
                 /\ truthy_num x = true /\ truthy_num y = true.

End App.

(** ** Inputs of the further examples *)

(** A node with a heading and a paragraph, for the examples. *)
Definition charizard_node : node :=
  Node (str "Charizard Holo Rare 4/102 Total Population 18,361 PSA 10 121")
       (fun sel => if jsstring_eqb sel (str "h2") then str "Charizard"
                   else if jsstring_eqb sel (str "p") then str "Holo Rare 4/102"
                   else []).

(** A page on which [.card] finds that node and nothing else matches. *)
Definition one_card_page : document :=
  fun sel => if jsstring_eqb sel (str ".card") then [charizard_node] else [].

(** A rendered page whose only block is that node. *)
Definition one_block_page : document := fun _ => [charizard_node].

(** ** Proof tools *)

(** A fact about every character, by cases on its eight bits. *)
Ltac by_chars a :=
  destruct a as [[] [] [] [] [] [] [] []]; vm_compute; try reflexivity; try discriminate.

(** Inversion of the derivations of [Matches] for a pattern given in full. *)
Ltac inv_matches :=
  unfold Star, Plus in *;
  repeat match goal with
  | H : Matches _ (Seq _ _) _ _ _ _ _ |- _ => inversion H; subst; clear H
  | H : Matches _ (Lit _) _ _ _ _ _ |- _ => inversion H; subst; clear H
  | H : Matches _ (Rep _ _ _) _ _ _ _ _ |- _ => inversion H; subst; clear H
  | H : Matches _ (Grp _ _) _ _ _ _ _ |- _ => inversion H; subst; clear H
  | H : Matches _ (Cls _) _ _ _ _ _ |- _ => inversion H; subst; clear H
  | H : Matches _ (Opt _) _ _ _ _ _ |- _ => inversion H; subst; clear H
  | H : Matches _ (Alt _ _) _ _ _ _ _ |- _ => inversion H; subst; clear H
  | H : Matches _ WordB _ _ _ _ _ |- _ => inversion H; subst; clear H
  end.

(** * Properties *)

(** ** The matcher against the denotation *)

Lemma lit_match_sound ic l s w rest :
  lit_match ic l s = Some (w, rest) -> s = w ++ rest /\ spelled ic l w.
Proof.
  revert s w rest. induction l as [|b l IH]; intros s w rest H; simpl in H.
  - inversion H; subst. split; [reflexivity | constructor].
  - destruct s as [|a s]; [discriminate|].
    destruct (char_match ic b a) eqn:Hc; [|discriminate].
    destruct (lit_match ic l s) as [[w' rest']|] eqn:Hl; [|discriminate].
    inversion H; subst. destruct (IH _ _ _ Hl) as [-> Hs].
    split; [reflexivity | by constructor].
Qed.

Lemma lit_match_complete ic l w rest :
  spelled ic l w -> lit_match ic l (w ++ rest) = Some (w, rest).
Proof.
  induction 1 as [|b a l w Hc _ IH]; simpl; [reflexivity|].
  by rewrite Hc, IH.
Qed.

Lemma within_pred lo hi n :
  within lo hi (S n) -> within (Nat.pred lo) (Nat.pred <$> hi) n.
Proof. unfold within. destruct hi; simpl; lia. Qed.

Lemma within_succ lo hi n :
  hi_allows hi = true ->
  within (Nat.pred lo) (Nat.pred <$> hi) n -> within lo hi (S n).
Proof.
  unfold within, hi_allows. destruct hi as [[|h]|]; simpl; try discriminate; lia.
Qed.

Lemma within_zero hi : within 0 hi 0.
Proof. unfold within. destruct hi; simpl; split; lia || exact I. Qed.

Lemma within_allows lo hi n : within lo hi (S n) -> hi_allows hi = true.
Proof. unfold within, hi_allows. destruct hi as [[|h]|]; simpl; try reflexivity; lia. Qed.

Lemma rep_greedy_sound {A} p lo hi s (k : jsstring -> jsstring -> option A) x :
  rep_greedy p lo hi s k = Some x ->
  exists w rest, s = w ++ rest /\ all_of p w /\ within lo hi (length w)
                 /\ k w rest = Some x.
Proof.
  revert lo hi k. induction s as [|a s IH]; intros lo hi k H; simpl in H.
  - destruct lo; [|discriminate].
    exists [], []. split_and!; [done | constructor | apply within_zero | done].
  - assert (Hstop : match lo with O => k [] (a :: s) | S _ => None end = Some x ->
              exists w rest, a :: s = w ++ rest /\ all_of p w
                             /\ within lo hi (length w) /\ k w rest = Some x).
    { destruct lo; [|discriminate]. intros Hk.
      exists [], (a :: s).
      split_and!; [done | constructor | apply within_zero | done]. }
    destruct (p a && hi_allows hi) eqn:Hp; [|by apply Hstop].
    apply andb_true_iff in Hp as [Hp Hh].
    destruct (rep_greedy p (Nat.pred lo) (Nat.pred <$> hi) s
                (fun w rest => k (a :: w) rest)) as [y|] eqn:Hr; [|by apply Hstop].
    inversion H; subst y.
    destruct (IH _ _ _ Hr) as (w & rest & -> & Hw & Hn & Hk).
    exists (a :: w), rest. split_and!; [done | by constructor | | done].
    by apply within_succ.
Qed.

Lemma rep_greedy_complete {A} p lo hi w rest (k : jsstring -> jsstring -> option A) :
  all_of p w -> within lo hi (length w) -> is_Some (k w rest) ->
  is_Some (rep_greedy p lo hi (w ++ rest) k).
Proof.
  intros Hw. revert lo hi k. induction Hw as [|a w Ha Hw IH]; intros lo hi k Hn Hk.
  - simpl in *. destruct Hn as [Hlo _]. assert (lo = O) as -> by lia.
    destruct rest as [|b rest]; simpl; [done|].
    destruct (p b && hi_allows hi); [|done].
    by destruct (rep_greedy p _ _ rest _).
  - simpl. rewrite Ha, (within_allows _ _ _ Hn). simpl.
    assert (is_Some (rep_greedy p (Nat.pred lo) (Nat.pred <$> hi) (w ++ rest)
                       (fun w0 rest0 => k (a :: w0) rest0))) as [y ->]; [|done].
    apply IH; [by apply within_pred | done].
Qed.

Lemma rep_greedy_longest {A} p lo hi w rest (k : jsstring -> jsstring -> option A) x :
  all_of p w -> within lo hi (length w) -> run_ends p hi (length w) rest ->
  k w rest = Some x ->
  rep_greedy p lo hi (w ++ rest) k = Some x.
Proof.
  intros Hw. revert lo hi k.
  induction Hw as [|a w Ha Hw IH]; intros lo hi k Hn He Hk.
  - destruct Hn as [Hlo _]. simpl in Hlo. assert (lo = O) as -> by lia.
    destruct rest as [|b rest]; simpl; [done|].
    destruct He as [-> | ->]; simpl; [done|].
    by rewrite andb_false_r.
  - simpl. rewrite Ha, (within_allows _ _ _ Hn). simpl.
    rewrite (IH (Nat.pred lo) (Nat.pred <$> hi) (fun w0 rest0 => k (a :: w0) rest0)); try done.
    + by apply within_pred.
    + destruct rest as [|b rest]; [done|]. simpl in *.
      destruct He as [He | ->]; [by left | by right].
Qed.

Lemma rep_greedy_all {A} p lo hi w (k : jsstring -> jsstring -> option A) x :
  all_of p w -> within lo hi (length w) -> k w [] = Some x ->
  rep_greedy p lo hi w k = Some x.
Proof.
  intros Hw Hn Hk. rewrite <- (app_nil_r w) at 1.
  by apply rep_greedy_longest.
Qed.

Lemma rep_greedy_none {A} p lo hi s (k : jsstring -> jsstring -> option A) :
  rep_greedy p lo hi s k = None ->
  forall w rest, s = w ++ rest -> all_of p w -> within lo hi (length w) ->
    k w rest = None.
Proof.
  intros H w rest -> Hw Hn. destruct (k w rest) as [x|] eqn:Hk; [|done].
  destruct (rep_greedy_complete p lo hi w rest k Hw Hn) as [y Hy]; [by eexists|].
  congruence.
Qed.

(** A greedy quantifier answers with the longest run that the continuation
    accepts: every longer run that it could have taken was refused. *)
Lemma rep_greedy_first {A} p lo hi s (k : jsstring -> jsstring -> option A) x :
  rep_greedy p lo hi s k = Some x ->
  exists w rest,
    s = w ++ rest /\ all_of p w /\ within lo hi (length w) /\ k w rest = Some x
    /\ forall w' rest', s = w' ++ rest' -> all_of p w' -> within lo hi (length w') ->
         (length w < length w')%nat -> k w' rest' = None.
Proof.
  revert lo hi k. induction s as [|a s IH]; intros lo hi k H; simpl in H.
  - destruct lo; [|discriminate].
    exists [], []. split_and!; [done | constructor | apply within_zero | done |].
    intros w' rest' Hs _ _ Hl. symmetry in Hs. apply app_eq_nil in Hs as [-> _].
    simpl in Hl. lia.
  - assert (Hstop : match lo with O => k [] (a :: s) | S _ => None end = Some x ->
              (forall w'' rest', s = w'' ++ rest' -> all_of p w'' ->
                 within lo hi (S (length w'')) -> p a = true -> k (a :: w'') rest' = None) ->
              exists w rest, a :: s = w ++ rest /\ all_of p w
                /\ within lo hi (length w) /\ k w rest = Some x
                /\ forall w' rest', a :: s = w' ++ rest' -> all_of p w' ->
                     within lo hi (length w') -> (length w < length w')%nat ->
                     k w' rest' = None).
    { destruct lo; [|discriminate]. intros Hk Hmax.
      exists [], (a :: s).
      split_and!; [done | constructor | apply within_zero | done |].
      intros w' rest' Hs Hw' Hn' Hl. destruct w' as [|b w'']; [simpl in Hl; lia|].
      simpl in Hs. inversion Hs; subst b. inversion Hw'; subst.
      by apply Hmax. }
    destruct (p a && hi_allows hi) eqn:Hp.
    + apply andb_true_iff in Hp as [Hp Hh].
      destruct (rep_greedy p (Nat.pred lo) (Nat.pred <$> hi) s
                  (fun w rest => k (a :: w) rest)) as [y|] eqn:Hr.
      * inversion H; subst y.
        destruct (IH _ _ _ Hr) as (w & rest & -> & Hw & Hn & Hk & Hmax).
        exists (a :: w), rest.
        split_and!; [done | by constructor | by apply within_succ | done |].
        intros w' rest' Hs Hw' Hn' Hl. destruct w' as [|b w'']; [simpl in Hl; lia|].
        simpl in Hs. inversion Hs; subst b. inversion Hw'; subst.
        apply (Hmax w'' rest'); [done | done | by apply within_pred | simpl in Hl; lia].
      * apply Hstop; [done|]. intros w'' rest' Hs Hw'' Hn' _.
        apply (rep_greedy_none _ _ _ _ _ Hr w'' rest' Hs Hw'').
        by apply within_pred.
    + apply Hstop; [done|]. intros w'' rest' Hs Hw'' Hn' Hpa.
      rewrite Hpa in Hp. simpl in Hp.
      by rewrite (within_allows _ _ _ Hn') in Hp.
Qed.

(** A run that no acceptable longer run extends ends where the quantifier
    had to stop. *)
Lemma longest_run_ends p lo hi w rest :
  all_of p w -> within lo hi (length w) ->
  (forall w' rest', w ++ rest = w' ++ rest' -> all_of p w' ->
     within lo hi (length w') -> (length w < length w')%nat -> False) ->
  run_ends p hi (length w) rest.
Proof.
  intros Hw [Hlo Hhi] Hmax. destruct rest as [|b rest]; [done|]. simpl.
  destruct (p b) eqn:Hb; [|by left]. right.
  destruct hi as [h|].
  - destruct (decide (length w = h)) as [->|Hne]; [done|]. exfalso.
    apply (Hmax (w ++ [b]) rest).
    + by rewrite <- app_assoc.
    + apply Forall_app. split; [done | by constructor].
    + rewrite length_app. simpl. split; simpl; lia.
    + rewrite length_app. simpl. lia.
  - exfalso. apply (Hmax (w ++ [b]) rest).
    + by rewrite <- app_assoc.
    + apply Forall_app. split; [done | by constructor].
    + rewrite length_app. simpl. split; simpl; [lia | done].
    + rewrite length_app. simpl. lia.
Qed.

Theorem rmatch_sound {A} ic r : forall prev s c (k : jsstring -> jsstring -> captures -> option A) x,
  rmatch ic r prev s c k = Some x ->
  exists w rest c', s = w ++ rest /\ Matches ic r prev w rest c c' /\ k w rest c' = Some x.
Proof.
  revert A. induction r as [l|p|r1 IH1 r2 IH2|r1 IH1 r2 IH2|p lo hi|r IH|i r IH|];
    intros A prev s c k x H; simpl in H.
  - destruct (lit_match ic l s) as [[w rest]|] eqn:Hl; [|discriminate].
    destruct (lit_match_sound _ _ _ _ _ Hl) as [-> Hs].
    exists w, rest, c. split_and!; [done | by constructor | done].
  - destruct s as [|a s]; [discriminate|].
    destruct (p a) eqn:Hp; [|discriminate].
    exists [a], s, c. split_and!; [done | by constructor | done].
  - destruct (IH1 _ _ _ _ _ _ H) as (w1 & s1 & c1 & -> & M1 & H1).
    destruct (IH2 _ _ _ _ _ _ H1) as (w2 & s2 & c2 & -> & M2 & H2).
    exists (w1 ++ w2), s2, c2. rewrite <- app_assoc.
    split_and!; [done | by econstructor | done].
  - destruct (rmatch ic r1 prev s c k) as [y|] eqn:H1.
    + inversion H; subst y.
      destruct (IH1 _ _ _ _ _ _ H1) as (w & rest & c' & -> & M & Hk).
      exists w, rest, c'. split_and!; [done | by apply M_AltL | done].
    + destruct (IH2 _ _ _ _ _ _ H) as (w & rest & c' & -> & M & Hk).
      exists w, rest, c'. split_and!; [done | by apply M_AltR | done].
  - destruct (rep_greedy_sound _ _ _ _ _ _ H) as (w & rest & -> & Hw & Hn & Hk).
    exists w, rest, c. split_and!; [done | by constructor | done].
  - destruct (rmatch ic r prev s c k) as [y|] eqn:H1.
    + inversion H; subst y.
      destruct (IH _ _ _ _ _ _ H1) as (w & rest & c' & -> & M & Hk).
      exists w, rest, c'. split_and!; [done | by apply M_OptSome | done].
    + exists [], s, c. split_and!; [done | apply M_OptNone | done].
  - destruct (IH _ _ _ _ _ _ H) as (w & rest & c' & -> & M & Hk).
    exists w, rest, (<[i:=w]> c'). split_and!; [done | by constructor | done].
  - destruct (word_boundary prev s) eqn:Hb; [|discriminate].
    exists [], s, c. split_and!; [done | by constructor | done].
Qed.

Lemma rmatch_seq_sound {A} ic r1 r2 prev s c
    (k : jsstring -> jsstring -> captures -> option A) x :
  rmatch ic (Seq r1 r2) prev s c k = Some x ->
  exists w1 rest c1,
    s = w1 ++ rest /\ Matches ic r1 prev w1 rest c c1
    /\ rmatch ic r2 (last_char prev w1) rest c1
         (fun w2 s2 c2 => k (w1 ++ w2) s2 c2) = Some x.
Proof. intros H. cbn [rmatch] in H. by apply rmatch_sound in H. Qed.

Theorem rmatch_complete ic r prev w rest c c' :
  Matches ic r prev w rest c c' ->
  forall {A} (k : jsstring -> jsstring -> captures -> option A),
    is_Some (k w rest c') -> is_Some (rmatch ic r prev (w ++ rest) c k).
Proof.
  induction 1 as [l prev w rest c Hs|p prev a rest c Hp
                 |r1 r2 prev w1 w2 rest c c1 c2 _ IH1 _ IH2
                 |r1 r2 prev w rest c c1 _ IH|r1 r2 prev w rest c c2 _ IH
                 |p lo hi prev w rest c Hw Hn
                 |r prev w rest c c1 _ IH|r prev rest c
                 |i r prev w rest c c1 _ IH|prev rest c Hb];
    intros A k Hk; simpl.
  - by rewrite (lit_match_complete _ _ _ _ Hs).
  - by rewrite Hp.
  - rewrite <- app_assoc. apply IH1. by apply IH2.
  - destruct (IH _ k Hk) as [y ->]. done.
  - destruct (rmatch ic r1 prev (w ++ rest) c k); [done|]. by apply IH.
  - by apply rep_greedy_complete.
  - destruct (IH _ k Hk) as [y ->]. done.
  - by destruct (rmatch ic r prev rest c k).
  - by apply IH.
  - by rewrite Hb.
Qed.

(** ** The search *)

Lemma matches_at_head ic r pre s :
  matches_at ic r (pre ++ s) pre ->
  forall {A} (k : jsstring -> jsstring -> captures -> option A),
    (forall w rest c, is_Some (k w rest c)) ->
    is_Some (rmatch ic r (last pre) s ∅ k).
Proof.
  intros (w & post & c & Heq & M) A k Hk.
  apply app_inv_head in Heq. subst s.
  eapply rmatch_complete; [exact M | apply Hk].
Qed.

Lemma exec_from_sound ic r : forall s pre m,
  exec_from ic r pre s = Some m ->
  exists skipped,
    m_pre m = pre ++ skipped
    /\ s = skipped ++ m_all m ++ m_post m
    /\ Matches ic r (last (m_pre m)) (m_all m) (m_post m) ∅ (m_caps m)
    /\ forall sk1 sk2, skipped = sk1 ++ sk2 -> sk2 <> [] ->
         ~ matches_at ic r (pre ++ s) (pre ++ sk1).
Proof.
  induction s as [|a s IH]; intros pre m H; simpl in H.
  - destruct (rmatch ic r (last pre) [] ∅ _) as [m'|] eqn:Hr; [|discriminate].
    inversion H; subst m'.
    destruct (rmatch_sound _ _ _ _ _ _ _ Hr) as (w & rest & c' & Hs & M & Hk).
    inversion Hk; subst m; simpl.
    exists []. rewrite app_nil_r. split_and!; try done.
    intros sk1 sk2 Hsk Hne. by destruct sk1, sk2.
  - destruct (rmatch ic r (last pre) (a :: s) ∅ _) as [m'|] eqn:Hr.
    + inversion H; subst m'.
      destruct (rmatch_sound _ _ _ _ _ _ _ Hr) as (w & rest & c' & Hs & M & Hk).
      inversion Hk; subst m; simpl.
      exists []. rewrite app_nil_r. split_and!; try done.
      intros sk1 sk2 Hsk Hne. by destruct sk1, sk2.
    + destruct (IH _ _ H) as (sk & Hpre & Hs & M & Hleft).
      exists (a :: sk). split_and!.
      * by rewrite Hpre, <- app_assoc.
      * by rewrite Hs.
      * done.
      * intros sk1 sk2 Hsk Hne Hm. destruct sk1 as [|b sk1].
        -- rewrite app_nil_r in Hm.
           destruct (matches_at_head _ _ _ _ Hm
                       (fun w rest c => Some (MatchResult pre w rest c))) as [y Hy];
             [intros; by eexists|]. congruence.
        -- simpl in Hsk. inversion Hsk; subst b sk.
           apply (Hleft sk1 sk2 eq_refl Hne).
           by rewrite <- !app_assoc.
Qed.

Lemma exec_from_none ic r : forall s pre,
  exec_from ic r pre s = None ->
  forall sk1 sk2, s = sk1 ++ sk2 -> ~ matches_at ic r (pre ++ s) (pre ++ sk1).
Proof.
  induction s as [|a s IH]; intros pre H sk1 sk2 Hs Hm; simpl in H.
  - destruct sk1; [|discriminate]. rewrite app_nil_r in Hm.
    rewrite <- (app_nil_r pre) in Hm at 1.
    destruct (matches_at_head _ _ _ _ Hm
                (fun w rest c => Some (MatchResult pre w rest c))) as [y Hy];
      [intros; by eexists|].
    rewrite Hy in H. discriminate.
  - destruct (rmatch ic r (last pre) (a :: s) ∅ _) as [m'|] eqn:Hr; [discriminate|].
    destruct sk1 as [|b sk1].
    + rewrite app_nil_r in Hm.
      destruct (matches_at_head _ _ _ _ Hm
                  (fun w rest c => Some (MatchResult pre w rest c))) as [y Hy];
        [intros; by eexists|]. congruence.
    + simpl in Hs. inversion Hs; subst b s.
      apply (IH _ H sk1 sk2 eq_refl).
      by rewrite <- !app_assoc.
Qed.

Lemma prefix_of_same {A} (text p1 r1 p2 r2 : list A) :
  text = p1 ++ r1 -> text = p2 ++ r2 -> (length p1 < length p2)%nat ->
  exists d, p2 = p1 ++ d /\ d <> [].
Proof.
  intros H1 H2 Hlt. exists (drop (length p1) p2). split.
  - assert (p1 = take (length p1) p2) as Hp.
    { transitivity (take (length p1) text).
      - rewrite H1. by rewrite take_app_length.
      - rewrite H2. by rewrite take_app_le by lia. }
    rewrite Hp at 1. by rewrite take_drop.
  - intros Hd. apply (f_equal length) in Hd. rewrite length_drop in Hd. simpl in Hd. lia.
Qed.

(** Two longest runs of a class at the head of the same text are the same
    run. *)
Lemma run_unique p hi w1 r1 w2 r2 :
  w1 ++ r1 = w2 ++ r2 ->
  all_of p w1 -> all_of p w2 ->
  within 0 hi (length w1) -> within 0 hi (length w2) ->
  run_ends p hi (length w1) r1 -> run_ends p hi (length w2) r2 ->
  w1 = w2 /\ r1 = r2.
Proof.
  assert (Hlt : forall w1 r1 w2 r2,
    w1 ++ r1 = w2 ++ r2 -> all_of p w2 -> within 0 hi (length w2) ->
    run_ends p hi (length w1) r1 -> (length w1 < length w2)%nat -> False).
  { clear. intros w1 r1 w2 r2 He Hw2 [_ Hh] Hr Hl.
    destruct (prefix_of_same (w1 ++ r1) w1 r1 w2 r2 eq_refl He Hl) as (d & -> & Hd).
    rewrite <- app_assoc in He. apply app_inv_head in He. subst r1.
    destruct d as [|b d]; [done|]. simpl in Hr.
    apply Forall_app in Hw2 as [_ Hd']. inversion Hd'; subst.
    destruct Hr as [Hr | ->]; [congruence|].
    rewrite length_app in Hh. simpl in Hh. lia. }
  intros He H1 H2 Hn1 Hn2 Hr1 Hr2.
  assert (Hl : length w1 = length w2).
  { destruct (Nat.lt_trichotomy (length w1) (length w2)) as [L | [L | L]]; [|done|].
    - exfalso. by eapply (Hlt w1 r1 w2 r2).
    - exfalso. by eapply (Hlt w2 r2 w1 r1). }
  by apply app_inj_1 in He.
Qed.

(** [exec] returns the leftmost match. *)
Lemma exec_sound ic r text m :
  exec ic r text = Some m ->
  text = m_pre m ++ m_all m ++ m_post m
  /\ Matches ic r (last (m_pre m)) (m_all m) (m_post m) ∅ (m_caps m)
  /\ forall pre, matches_at ic r text pre -> (length (m_pre m) <= length pre)%nat.
Proof.
  intros H. destruct (exec_from_sound _ _ _ _ _ H) as (sk & Hpre & Hs & M & Hleft).
  simpl in Hpre. subst sk. split_and!; try done.
  intros pre Hm. destruct (Nat.le_gt_cases (length (m_pre m)) (length pre)) as [|Hlt]; [done|].
  exfalso. pose proof Hm as (w & post & c & Ht & _).
  destruct (prefix_of_same _ _ _ _ _ Ht Hs Hlt) as (d & Hd & Hne).
  by apply (Hleft pre d Hd Hne).
Qed.

Lemma exec_none ic r text :
  exec ic r text = None -> forall pre, ~ matches_at ic r text pre.
Proof.
  intros H pre Hm. pose proof Hm as (w & post & c & Ht & _).
  by apply (exec_from_none _ _ _ _ H pre (w ++ post) Ht).
Qed.

Lemma exec_complete ic r text pre :
  matches_at ic r text pre -> is_Some (exec ic r text).
Proof.
  intros Hm. destruct (exec ic r text) eqn:He; [done|].
  by destruct (exec_none _ _ _ He pre).
Qed.

Lemma test_true ic r text :
  test ic r text = true <-> exists pre, matches_at ic r text pre.
Proof.
  unfold test. split.
  - destruct (exec ic r text) as [m|] eqn:He; [|discriminate]. intros _.
    destruct (exec_sound _ _ _ _ He) as (Ht & M & _).
    exists (m_pre m), (m_all m), (m_post m), (m_caps m). done.
  - intros [pre Hm]. by destruct (exec_complete _ _ _ _ Hm) as [m ->].
Qed.

Lemma exec_from_head ic r pre s m :
  rmatch ic r (last pre) s ∅ (fun w rest c => Some (MatchResult pre w rest c)) = Some m ->
  exec_from ic r pre s = Some m.
Proof. intros H. destruct s; simpl; by rewrite H. Qed.

Lemma exec_from_rmatch ic r : forall s pre m,
  exec_from ic r pre s = Some m ->
  exists skipped s',
    s = skipped ++ s' /\ m_pre m = pre ++ skipped
    /\ rmatch ic r (last (m_pre m)) s' ∅
         (fun w rest c => Some (MatchResult (m_pre m) w rest c)) = Some m.
Proof.
  assert (Hhead : forall s pre m,
    rmatch ic r (last pre) s ∅ (fun w rest c => Some (MatchResult pre w rest c)) = Some m ->
    m_pre m = pre).
  { intros s pre m Hr.
    destruct (rmatch_sound _ _ _ _ _ _ _ Hr) as (w & rest & c' & _ & _ & Hk).
    by inversion Hk. }
  induction s as [|a s IH]; intros pre m H; simpl in H.
  - destruct (rmatch ic r (last pre) [] ∅ _) as [m'|] eqn:Hr; [|discriminate].
    inversion H; subst m'. pose proof (Hhead _ _ _ Hr) as Hp.
    exists [], []. rewrite Hp. split_and!; [done | by rewrite app_nil_r | done].
  - destruct (rmatch ic r (last pre) (a :: s) ∅ _) as [m'|] eqn:Hr.
    + inversion H; subst m'. pose proof (Hhead _ _ _ Hr) as Hp.
      exists [], (a :: s). rewrite Hp. split_and!; [done | by rewrite app_nil_r | done].
    + destruct (IH _ _ H) as (sk & s' & -> & Hp & Hm).
      exists (a :: sk), s'. split_and!; [done | | done].
      by rewrite Hp, <- app_assoc.
Qed.

(** ** Characters *)

Lemma ascii_eqb_eq a b : ascii_eqb a b = true <-> a = b.
Proof.
  unfold ascii_eqb, code. rewrite Nat.eqb_eq. split; [|by intros ->].
  intros H. rewrite <- (ascii_nat_embedding a), <- (ascii_nat_embedding b). by rewrite H.
Qed.

Lemma jsstring_eqb_eq s t : jsstring_eqb s t = true <-> s = t.
Proof.
  revert t. induction s as [|a s IH]; intros [|b t]; simpl; try done.
  rewrite andb_true_iff, ascii_eqb_eq, IH. split; [by intros [-> ->] | by inversion 1].
Qed.

Lemma digit_not_space a : is_digit a = true -> is_space a = false.
Proof. by_chars a. Qed.

Lemma slash_any_case ic a : char_match ic "/"%char a = true -> a = "/"%char.
Proof. destruct ic; by_chars a. Qed.

Lemma spelled_length ic l w : spelled ic l w -> length w = length l.
Proof. intros H. symmetry. by apply Forall2_length in H. Qed.

Lemma spelled_slash ic w : spelled ic (str "/") w <-> w = str "/".
Proof.
  split.
  - intros H. inversion H as [|b a l w' Hc Hr]; subst. inversion Hr; subst.
    by rewrite (slash_any_case _ _ Hc).
  - intros ->. repeat constructor. by destruct ic.
Qed.

Lemma filter_all {A} (f : A -> bool) l :
  Forall (fun a => f a = true) l -> List.filter f l = l.
Proof. induction 1 as [|a l Ha _ IH]; simpl; [done|]. by rewrite Ha, IH. Qed.

Lemma filter_none {A} (f : A -> bool) l :
  Forall (fun a => f a = false) l -> List.filter f l = [].
Proof. induction 1 as [|a l Ha _ IH]; simpl; [done|]. by rewrite Ha. Qed.

Lemma remove_spaces_app s t : remove_spaces (s ++ t) = remove_spaces s ++ remove_spaces t.
Proof. apply List.filter_app. Qed.

Lemma remove_spaces_digits d : all_of is_digit d -> remove_spaces d = d.
Proof.
  intros H. apply filter_all. eapply Forall_impl; [exact H|].
  simpl. intros a Ha. by rewrite (digit_not_space _ Ha).
Qed.

Lemma remove_spaces_spaces ws : all_of is_space ws -> remove_spaces ws = [].
Proof.
  intros H. apply filter_none. eapply Forall_impl; [exact H|].
  simpl. by intros a ->.
Qed.

(** ** The card-number fraction *)

Lemma fraction_matches ic prev w rest c c' :
  Matches ic rx_fraction prev w rest c c' <-> fraction_token w /\ c' = c.
Proof.
  unfold rx_fraction, Star. split.
  - intros H.
    inversion H as [| |? ? ? d1 w1 ? ? ? ? H1 H1'| | | | | | |]; subst; clear H.
    inversion H1' as [| |? ? ? ws1 w2 ? ? ? ? H2 H2'| | | | | | |]; subst; clear H1'.
    inversion H2' as [| |? ? ? sl w3 ? ? ? ? H3 H3'| | | | | | |]; subst; clear H2'.
    inversion H3' as [| |? ? ? ws2 d2 ? ? ? ? H4 H4'| | | | | | |]; subst; clear H3'.
    inversion H1; subst. inversion H2; subst. inversion H3; subst.
    inversion H4; subst. inversion H4'; subst.
    match goal with Hs : spelled _ _ sl |- _ => apply spelled_slash in Hs; subst sl end.
    split; [|done].
    exists d1, ws1, ws2, d2. unfold digits_1_4, within in *. split_and!; try done; lia.
  - intros [(d1 & ws1 & ws2 & d2 & -> & [Hd1 Hl1] & Hw1 & Hw2 & [Hd2 Hl2]) ->].
    eapply M_Seq; [constructor; [done | split; simpl; lia]|].
    eapply M_Seq; [constructor; [done | split; simpl; [lia | done]]|].
    eapply M_Seq; [constructor; by apply spelled_slash|].
    eapply M_Seq; [constructor; [done | split; simpl; [lia | done]]|].
    constructor; [done | split; simpl; lia].
Qed.

Lemma card_number_matches prev w rest c c' :
  Matches false rx_card_number prev w rest c c' <->
  fraction_token w /\ c' = <[1%nat := w]> c.
Proof.
  unfold rx_card_number. split.
  - intros H. inversion H; subst. 
    match goal with M : Matches _ rx_fraction _ _ _ _ _ |- _ =>
      apply fraction_matches in M as [Hf ->] end. done.
  - intros [Hf ->]. constructor. by apply fraction_matches.
Qed.

Lemma fraction_at_matches text pre :
  matches_at false rx_card_number text pre <-> fraction_at text pre.
Proof.
  unfold matches_at, fraction_at. split.
  - intros (w & post & c & Ht & M). apply card_number_matches in M as [Hf _].
    by exists w, post.
  - intros (w & post & Ht & Hf). exists w, post, (<[1%nat := w]> ∅).
    split; [done|]. by apply card_number_matches.
Qed.

Lemma remove_spaces_fraction w :
  fraction_token w -> card_number_form (remove_spaces w).
Proof.
  intros (d1 & ws1 & ws2 & d2 & -> & Hd1 & Hw1 & Hw2 & Hd2).
  exists d1, d2. split; [|done].
  rewrite !remove_spaces_app, (remove_spaces_digits d1), (remove_spaces_digits d2),
    (remove_spaces_spaces ws1), (remove_spaces_spaces ws2) by (done || apply Hd1 || apply Hd2).
  reflexivity.
Qed.

Lemma card_number_form_nonempty s : card_number_form s -> s <> [].
Proof. intros (d1 & d2 & -> & [_ Hl] & _). destruct d1; simpl in *; [lia | done]. Qed.

Lemma extractCardNumberChunk_some text out :
  extractCardNumberChunk text = Some out ->
  exists pre w post,
    text = pre ++ w ++ post /\ fraction_token w /\ out = remove_spaces w
    /\ forall pre', fraction_at text pre' -> (length pre <= length pre')%nat.
Proof.
  unfold extractCardNumberChunk. intros H.
  destruct (exec false rx_card_number text) as [m|] eqn:He; [|discriminate].
  destruct (exec_sound _ _ _ _ He) as (Ht & M & Hleft).
  apply card_number_matches in M as [Hf Hc].
  exists (m_pre m), (m_all m), (m_post m). split_and!; try done.
  - inversion H. unfold group_text, group. rewrite Hc, lookup_insert_eq. done.
  - intros pre' Hp. apply Hleft. by apply fraction_at_matches.
Qed.

Lemma extractCardNumberChunk_none text :
  extractCardNumberChunk text = None <-> ~ has_fraction text.
Proof.
  unfold extractCardNumberChunk, has_fraction. split.
  - destruct (exec false rx_card_number text) as [m|] eqn:He; [discriminate|].
    intros _ [pre Hp]. apply fraction_at_matches in Hp.
    by apply (exec_none _ _ _ He pre).
  - intros Hn. destruct (exec false rx_card_number text) as [m|] eqn:He; [|done].
    exfalso. apply Hn. destruct (exec_sound _ _ _ _ He) as (Ht & M & _).
    exists (m_pre m). apply fraction_at_matches. by exists (m_all m), (m_post m), (m_caps m).
Qed.

Lemma remove_spaces_normal d1 d2 :
  all_of is_digit d1 -> all_of is_digit d2 ->
  remove_spaces (d1 ++ str "/" ++ d2) = d1 ++ str "/" ++ d2.
Proof.
  intros H1 H2.
  rewrite !remove_spaces_app, (remove_spaces_digits d1), (remove_spaces_digits d2) by done.
  reflexivity.
Qed.

Lemma extractCardNumberChunk_normal s :
  card_number_form s -> extractCardNumberChunk s = Some s.
Proof.
  intros (d1 & d2 & -> & [Hd1 Hl1] & [Hd2 Hl2]).
  unfold extractCardNumberChunk, exec.
  rewrite (exec_from_head false rx_card_number [] _
             (MatchResult [] (d1 ++ str "/" ++ d2) [] (<[1%nat := d1 ++ str "/" ++ d2]> ∅))).
  - unfold group_text, group. simpl m_caps. rewrite lookup_insert_eq.
    f_equal. by apply remove_spaces_normal.
  - unfold rx_card_number, rx_fraction, Star. cbn [rmatch].
    apply rep_greedy_longest; [done | split; simpl; lia | by left |].
    apply (rep_greedy_longest _ _ _ [] (str "/" ++ d2));
      [constructor | split; simpl; [lia | done] | by left |].
    cbn [str list_ascii_of_string app lit_match char_match ascii_eqb code]. simpl Nat.eqb.
    cbv iota.
    assert (Hd2' : exists b d2', d2 = b :: d2') by (destruct d2; simpl in *; [lia | eauto]).
    destruct Hd2' as (b & d2' & Hd2e).
    apply (rep_greedy_longest _ _ _ [] d2);
      [constructor | split; simpl; [lia | done] | |].
    { subst d2. left. apply digit_not_space. by inversion Hd2. }
    apply rep_greedy_all; [done | split; simpl; lia |].
    simpl. by rewrite ?app_nil_r.
Qed.

(** *** The token that the extractor reads *)

Lemma run_ends_after p q hi n ws a tail :
  all_of q ws -> (forall c, q c = true -> p c = false) -> p a = false ->
  run_ends p hi n (ws ++ a :: tail).
Proof.
  intros Hws Hq Ha. destruct Hws as [|c ws Hc _]; simpl; left; [done | by apply Hq].
Qed.

Lemma space_not_digit a : is_space a = true -> is_digit a = false.
Proof. by_chars a. Qed.

Lemma within_from_zero lo hi n : within lo hi n -> within 0 hi n.
Proof. intros [_ H]. split; [lia | done]. Qed.

Lemma remove_spaces_token d1 ws1 ws2 d2 :
  all_of is_digit d1 -> all_of is_space ws1 -> all_of is_space ws2 ->
  all_of is_digit d2 ->
  remove_spaces (d1 ++ ws1 ++ str "/" ++ ws2 ++ d2) = d1 ++ str "/" ++ d2.
Proof.
  intros H1 Hw1 Hw2 H2.
  rewrite !remove_spaces_app, (remove_spaces_digits d1), (remove_spaces_digits d2),
    (remove_spaces_spaces ws1), (remove_spaces_spaces ws2) by done.
  reflexivity.
Qed.

Lemma run_ends_digits hi n d post :
  all_of is_digit d -> (1 <= length d)%nat -> run_ends is_space hi n (d ++ post).
Proof.
  intros Hd Hl. destruct Hd as [|b d Hb _]; simpl in *; [lia|].
  left. by apply digit_not_space.
Qed.

Lemma run_ends_slash hi n tail : run_ends is_space hi n (str "/" ++ tail).
Proof. by left. Qed.

Lemma run_ends_gap hi n ws tail :
  all_of is_space ws -> run_ends is_digit hi n (ws ++ str "/" ++ tail).
Proof.
  intros Hw. apply (run_ends_after _ is_space); [done | apply space_not_digit | done].
Qed.

(** The matcher on the fraction: the denominator is the longest run of
    digits, up to four, that stands there. *)
Lemma fraction_greedy {A} ic prev s c
    (k : jsstring -> jsstring -> captures -> option A) x :
  (forall w rest c', k w rest c' <> None) ->
  rmatch ic rx_fraction prev s c k = Some x ->
  exists d1 ws1 ws2 d2 post,
    s = (d1 ++ ws1 ++ str "/" ++ ws2 ++ d2) ++ post
    /\ digits_1_4 d1 /\ all_of is_space ws1 /\ all_of is_space ws2 /\ digits_1_4 d2
    /\ run_ends is_digit (Some 4%nat) (length d2) post
    /\ k (d1 ++ ws1 ++ str "/" ++ ws2 ++ d2) post c = Some x.
Proof.
  intros Hk H. unfold rx_fraction, Star in H. cbn [rmatch] in H.
  apply rep_greedy_sound in H as (d1 & r1 & -> & Hd1 & Hn1 & H).
  apply rep_greedy_sound in H as (ws1 & r2 & -> & Hw1 & _ & H).
  destruct (lit_match ic (str "/") r2) as [[sl r3]|] eqn:Hl; [|discriminate].
  apply lit_match_sound in Hl as [-> Hsl]. apply spelled_slash in Hsl. subst sl.
  apply rep_greedy_sound in H as (ws2 & r4 & -> & Hw2 & _ & H).
  apply rep_greedy_first in H as (d2 & post & -> & Hd2 & Hn2 & H & Hmax).
  exists d1, ws1, ws2, d2, post.
  assert (Hr : run_ends is_digit (Some 4%nat) (length d2) post).
  { eapply longest_run_ends; [done | exact Hn2 |].
    intros w' rest' Hs Hw' Hn' Hlt. by apply (Hk _ _ _ (Hmax w' rest' Hs Hw' Hn' Hlt)). }
  unfold digits_1_4, within in *.
  split_and!; try done; try lia; try (by rewrite <- !app_assoc);
    by rewrite <- !app_assoc in H.
Qed.

Lemma extractCardNumberChunk_first text out :
  extractCardNumberChunk text = Some out -> first_fraction text out.
Proof.
  unfold extractCardNumberChunk. intros H.
  destruct (exec false rx_card_number text) as [m|] eqn:He; [|discriminate].
  destruct (exec_sound _ _ _ _ He) as (Ht & _ & Hleft).
  destruct (exec_from_rmatch _ _ _ _ _ He) as (sk & s' & Hs & Hpre & Hr).
  simpl in Hpre. subst sk.
  unfold rx_card_number in Hr. cbn [rmatch] in Hr.
  apply fraction_greedy in Hr as (d1 & ws1 & ws2 & d2 & post & -> & Hd1 & Hw1 & Hw2 & Hd2 & Hend & Hk);
    [|done].
  destruct m as [mp ma mo mc]. cbn [m_pre m_all m_post m_caps] in *.
  inversion Hk; subst ma mo mc. clear Hk.
  inversion H as [Hout]. unfold group_text, group. cbn [m_caps].
  rewrite lookup_insert_eq. cbn [default].
  exists mp, d1, ws1, ws2, d2, post. split_and!; try done.
  - intros pre' Hp. apply Hleft. by apply fraction_at_matches.
  - unfold id. change ("/"%char :: ws2 ++ d2) with (str "/" ++ ws2 ++ d2).
    apply remove_spaces_token; (done || apply Hd1 || apply Hd2).
Qed.

(** The first fraction of a text is one token, so it has one reading. *)
Lemma first_fraction_unique text out out' :
  first_fraction text out -> first_fraction text out' -> out = out'.
Proof.
  intros (pre & d1 & ws1 & ws2 & d2 & post & Ht & Hd1 & Hw1 & Hw2 & Hd2 & He & Hl & ->)
         (pre' & e1 & vs1 & vs2 & e2 & post' & Ht' & He1 & Hv1 & Hv2 & He2 & He' & Hl' & ->).
  assert (Hat : fraction_at text pre).
  { exists (d1 ++ ws1 ++ str "/" ++ ws2 ++ d2), post. split; [done|].
    by exists d1, ws1, ws2, d2. }
  assert (Hat' : fraction_at text pre').
  { exists (e1 ++ vs1 ++ str "/" ++ vs2 ++ e2), post'. split; [done|].
    by exists e1, vs1, vs2, e2. }
  pose proof (Hl _ Hat') as L1. pose proof (Hl' _ Hat) as L2.
  rewrite Ht' in Ht. apply app_inj_1 in Ht as [_ Ht]; [|lia].
  rewrite <- !app_assoc in Ht.
  destruct Hd1 as [Hd1 Hn1], Hd2 as [Hd2 Hn2], He1 as [He1 Hm1], He2 as [He2 Hm2].
  apply (run_unique is_digit None) in Ht as [E1 Ht];
    try done; try (by apply run_ends_gap); try (split; [lia | done]).
  apply (run_unique is_space None) in Ht as [_ Ht];
    try done; try apply run_ends_slash; try (split; [lia | done]).
  change (str "/" ++ ?x) with ("/"%char :: x) in Ht. inversion Ht as [Ht2].
  apply (run_unique is_space None) in Ht2 as [_ Ht2];
    try done; try (apply run_ends_digits; (done || lia)); try (split; [lia | done]).
  apply (run_unique is_digit (Some 4%nat)) in Ht2 as [E2 _];
    try done; try (split; simpl; lia).
  by rewrite E1, E2.
Qed.

Lemma extractCardNumberChunk_iff text out :
  extractCardNumberChunk text = Some out <-> first_fraction text out.
Proof.
  split; [apply extractCardNumberChunk_first|].
  intros Hf. destruct (extractCardNumberChunk text) as [out'|] eqn:He.
  - apply extractCardNumberChunk_first in He.
    by rewrite (first_fraction_unique _ _ _ Hf He).
  - exfalso. apply extractCardNumberChunk_none in He. apply He.
    destruct Hf as (pre & d1 & ws1 & ws2 & d2 & post & Ht & Hd1 & Hw1 & Hw2 & Hd2 & _).
    exists pre, (d1 ++ ws1 ++ str "/" ++ ws2 ++ d2), post. split; [done|].
    by exists d1, ws1, ws2, d2.
Qed.

(** ** Grade occurrences *)

Lemma grade_matches prev w rest c c' :
  Matches true rx_grade prev w rest c c' <->
  exists g num, grade_occurrence w g num /\ c' = <[2%nat := num]> (<[1%nat := g]> c).
Proof.
  unfold rx_grade, Star, Plus. split.
  - intros H.
    inversion H as [| |? ? ? P w1 ? ? ? ? H1 H1'| | | | | | |]; subst; clear H.
    inversion H1' as [| |? ? ? ws1 w2 ? ? ? ? H2 H2'| | | | | | |]; subst; clear H1'.
    inversion H2' as [| |? ? ? g w3 ? ? ? ? H3 H3'| | | | | | |]; subst; clear H2'.
    inversion H3' as [| |? ? ? ws2 num ? ? ? ? H4 H4'| | | | | | |]; subst; clear H3'.
    inversion H1; subst. inversion H2; subst. inversion H3; subst.
    inversion H4; subst. inversion H4'; subst.
    repeat match goal with M : Matches _ (Rep _ _ _) _ _ _ _ _ |- _ =>
      inversion M; subst; clear M end.
    exists g, num. split; [|done].
    exists P, ws1, ws2. unfold number_token, within in *.
    split_and!; try done; try lia.
    intros ->. simpl in *. lia.
  - intros (g & num & (P & ws1 & ws2 & -> & HP & Hw1 & Hg & Hl & Hw2 & [Hn Hne]) & ->).
    eapply M_Seq; [by constructor|].
    eapply M_Seq; [constructor; [done | split; simpl; [lia | done]]|].
    eapply M_Seq; [constructor; constructor; [done | split; simpl; lia]|].
    eapply M_Seq; [constructor; [done | split; simpl; [lia | done]]|].
    constructor. constructor; [done|]. split; simpl; [|done].
    destruct num; simpl; [done | lia].
Qed.

Lemma grade_occurrence_length w g num : grade_occurrence w g num -> (5 <= length w)%nat.
Proof.
  intros (P & ws1 & ws2 & -> & HP & _ & _ & Hl & _ & [_ Hne]).
  apply spelled_length in HP. rewrite !length_app, HP. simpl.
  destruct num; [done | simpl; lia].
Qed.

(** What one turn of the grade loops reads from a match. *)
Lemma exec_grade pre s m :
  exec_from true rx_grade pre s = Some m ->
  exists sk num,
    m_pre m = pre ++ sk /\ s = sk ++ m_all m ++ m_post m
    /\ grade_occurrence (m_all m) (group_text m 1) num
    /\ group m 2 = Some num
    /\ (length (m_post m) < length s)%nat.
Proof.
  intros H. destruct (exec_from_sound _ _ _ _ _ H) as (sk & Hpre & Hs & M & _).
  apply grade_matches in M as (g & num & Hocc & Hc).
  exists sk, num. unfold group_text, group. rewrite Hc.
  rewrite lookup_insert_eq, lookup_insert_ne, lookup_insert_eq by done.
  split_and!; try done.
  apply grade_occurrence_length in Hocc.
  rewrite Hs, !length_app. lia.
Qed.

Lemma findGrades_loop_fuel : forall f1 f2 pre s,
  (length s < f1)%nat -> (length s < f2)%nat ->
  Strict.findGrades_loop f1 pre s = Strict.findGrades_loop f2 pre s.
Proof.
  induction f1 as [|f1 IH]; intros f2 pre s H1 H2; [lia|].
  destruct f2 as [|f2]; [lia|]. simpl.
  destruct (exec_from true rx_grade pre s) as [m|] eqn:He; [|done].
  destruct (exec_grade _ _ _ He) as (_ & _ & _ & _ & _ & _ & Hlt).
  f_equal. apply IH; lia.
Qed.

(** The loop of [findGrades] with enough fuel, as its own equation: the
    result does not depend on the fuel. *)
Lemma findGrades_loop_unfold pre s :
  Strict.findGrades_loop (S (length s)) pre s =
  match exec_from true rx_grade pre s with
  | None => []
  | Some m =>
      Strict.GradeEntry (group_text m 1) (cleanNum_group (group m 2))
      :: Strict.findGrades_loop (S (length (m_post m))) (m_pre m ++ m_all m) (m_post m)
  end.
Proof.
  change (Strict.findGrades_loop (S (length s)) pre s) with
    (match exec_from true rx_grade pre s with
     | None => []
     | Some m =>
         Strict.GradeEntry (group_text m 1) (cleanNum_group (group m 2))
         :: Strict.findGrades_loop (length s) (m_pre m ++ m_all m) (m_post m)
     end).
  destruct (exec_from true rx_grade pre s) as [m|] eqn:He; [|done].
  destruct (exec_grade _ _ _ He) as (_ & _ & _ & _ & _ & _ & Hlt).
  f_equal. apply findGrades_loop_fuel; lia.
Qed.

Lemma extractGrades_loop_fold : forall fuel pre s acc,
  extractGrades_loop fuel pre s acc =
  fold_left (fun grades g => set_grade grades (Strict.grade g) (Strict.value g))
    (Strict.findGrades_loop fuel pre s) acc.
Proof.
  induction fuel as [|fuel IH]; intros pre s acc; simpl; [done|].
  destruct (exec_from true rx_grade pre s) as [m|]; [|done].
  simpl. apply IH.
Qed.

Lemma extractGrades_is_map text :
  extractGrades text = Strict.extractGradesMap text.
Proof. apply extractGrades_loop_fold. Qed.

(** Every entry of [findGrades] is read from an occurrence in the text. *)
Lemma findGrades_loop_sound : forall fuel pre s e,
  e ∈ Strict.findGrades_loop fuel pre s ->
  exists before w after num,
    pre ++ s = before ++ w ++ after
    /\ grade_occurrence w (Strict.grade e) num
    /\ Strict.value e = cleanNum num.
Proof.
  induction fuel as [|fuel IH]; intros pre s e He; simpl in He; [by apply elem_of_nil in He|].
  destruct (exec_from true rx_grade pre s) as [m|] eqn:Hx; [|by apply elem_of_nil in He].
  destruct (exec_grade _ _ _ Hx) as (sk & num & Hpre & Hs & Hocc & Hg2 & _).
  apply elem_of_cons in He as [-> | He].
  - exists (m_pre m), (m_all m), (m_post m), num. simpl.
    split_and!; [by rewrite Hpre, <- app_assoc, <- Hs | done | by rewrite Hg2].
  - destruct (IH _ _ _ He) as (before & w & after & num' & Ht & Ho & Hv).
    exists before, w, after, num'. split_and!; try done.
    rewrite <- Ht, Hpre, <- !app_assoc. by rewrite <- Hs.
Qed.

Lemma grade_occurrence_at pre s sk w post g num :
  s = sk ++ w ++ post -> grade_occurrence w g num ->
  matches_at true rx_grade (pre ++ s) (pre ++ sk).
Proof.
  intros Hs Ho. exists w, post, (<[2%nat := num]> (<[1%nat := g]> ∅)). split.
  - by rewrite Hs, <- app_assoc.
  - apply grade_matches. by exists g, num.
Qed.

Lemma extractGrades_loop_fuel fuel text :
  (length text < fuel)%nat ->
  extractGrades_loop fuel [] text ∅ = extractGrades text.
Proof.
  intros H. unfold extractGrades. rewrite !extractGrades_loop_fold.
  f_equal. apply findGrades_loop_fuel; lia.
Qed.

(** *** The mapping built from the occurrences *)

Lemma grade_key_inj g g' : grade_key g = grade_key g' -> g = g'.
Proof. unfold grade_key. apply app_inv_head. Qed.

Lemma last_cons_or {A} (x : A) l :
  last (x :: l) = match last l with Some y => Some y | None => Some x end.
Proof. destruct l as [|y l]; [done|]. rewrite last_cons_cons. by destruct (last (y :: l)) eqn:E; [|apply last_None in E]. Qed.

Lemma last_parsed_cons g e l :
  last_parsed g (e :: l) =
  match last_parsed g l with
  | Some v => Some v
  | None => if decide (Strict.grade e = g) then Strict.value e else None
  end.
Proof.
  unfold last_parsed. simpl.
  destruct (decide (Strict.grade e = g)) as [Heq|Hne].
  - destruct (Strict.value e) as [v|]; [apply last_cons_or|].
    by destruct (last _).
  - by destruct (last _).
Qed.

Lemma fold_grades_lookup g : forall l acc,
  fold_left (fun grades e => set_grade grades (Strict.grade e) (Strict.value e)) l acc
    !! grade_key g =
  match last_parsed g l with
  | Some v => Some v
  | None => acc !! grade_key g
  end.
Proof.
  induction l as [|e l IH]; intros acc; [done|].
  rewrite last_parsed_cons. simpl fold_left. rewrite IH.
  destruct (last_parsed g l); [done|].
  unfold set_grade. destruct (decide (Strict.grade e = g)) as [Heq|Hne].
  - destruct (Strict.value e) as [v|]; [|done]. by rewrite Heq, lookup_insert_eq.
  - destruct (Strict.value e) as [v|]; [|done].
    rewrite lookup_insert_ne; [done|]. intros Hk. by apply grade_key_inj in Hk.
Qed.

Lemma fold_grades_key k v : forall l acc,
  fold_left (fun grades e => set_grade grades (Strict.grade e) (Strict.value e)) l acc
    !! k = Some v ->
  acc !! k = Some v
  \/ exists e, e ∈ l /\ k = grade_key (Strict.grade e) /\ Strict.value e = Some v.
Proof.
  induction l as [|e l IH]; intros acc H; simpl in H; [by left|].
  destruct (IH _ H) as [Ha | (e' & He' & Hk & Hv)].
  - unfold set_grade in Ha. destruct (Strict.value e) as [v'|] eqn:Hv; [|by left].
    destruct (decide (grade_key (Strict.grade e) = k)) as [<-|Hne].
    + rewrite lookup_insert_eq in Ha. inversion Ha; subst v'.
      right. exists e. split_and!; [by left | done | done].
    + rewrite lookup_insert_ne in Ha by done. by left.
  - right. exists e'. split_and!; [by right | done | done].
Qed.

(** ** The total-population phrases *)

Lemma number_token_intro num :
  all_of is_digit_or_comma num -> within 1 None (length num) -> number_token num.
Proof. intros H [Hl _]. split; [done|]. intros ->. simpl in Hl. lia. Qed.

Lemma number_token_within num : number_token num -> within 1 None (length num).
Proof. intros [_ Hne]. split; [|done]. destruct num; simpl; [done | lia]. Qed.

Lemma within_star n : within 0 None n.
Proof. split; [lia | done]. Qed.

Lemma population_matches i prev w rest c c' :
  Matches true
    (Seq (Lit (str "Population")) (Seq (Star is_space) (Grp i (Plus is_digit_or_comma))))
    prev w rest c c' <->
  exists num, population_phrase w num /\ c' = <[i := num]> c.
Proof.
  unfold Star, Plus. split.
  - intros H. inv_matches.
    eexists. split; [|reflexivity].
    do 2 eexists. split_and!; [reflexivity | eassumption | eassumption |].
    by apply number_token_intro.
  - intros (num & (P & ws & -> & HP & Hws & Hn) & ->).
    eapply M_Seq; [by constructor|].
    eapply M_Seq; [constructor; [done | apply within_star]|].
    constructor. constructor; [apply Hn | by apply number_token_within].
Qed.

Lemma total_matches prev w rest c c' :
  Matches true rx_total prev w rest c c' <->
  exists num, total_population_phrase w num /\ c' = <[1%nat := num]> c.
Proof.
  unfold rx_total. split.
  - intros H.
    inversion H as [| |? ? ? T w1 ? ? ? ? H1 H1'| | | | | | |]; subst; clear H.
    inversion H1' as [| |? ? ? ws w2 ? ? ? ? H2 H2'| | | | | | |]; subst; clear H1'.
    apply population_matches in H2' as (num & Hp & ->).
    inv_matches. exists num. split; [|done].
    exists T, ws, w2. split_and!; done.
  - intros (num & (T & ws & w' & -> & HT & Hws & Hp) & ->).
    eapply M_Seq; [by constructor|].
    eapply M_Seq; [constructor; [done | apply within_star]|].
    apply population_matches. by exists num.
Qed.

Lemma total_opt_matches prev w rest c c' :
  Matches true rx_total_opt prev w rest c c' ->
  exists num, (population_phrase w num \/ total_population_phrase w num)
              /\ c' !! 2%nat = Some num.
Proof.
  unfold rx_total_opt. intros H.
  inversion H as [| |? ? ? T w1 ? ? ? ? H1 H1'| | | | | | |]; subst; clear H.
  apply population_matches in H1' as (num & Hp & ->).
  exists num. rewrite lookup_insert_eq. split; [|done].
  inversion H1; subst; clear H1.
  - right. unfold Star in *. inv_matches.
    do 3 eexists. rewrite <- app_assoc. split_and!; [reflexivity | eassumption | eassumption | done].
  - by left.
Qed.

Lemma total_opt_matches_population prev w num rest c :
  population_phrase w num ->
  Matches true rx_total_opt prev w rest c (<[2%nat := num]> c).
Proof.
  intros Hp. unfold rx_total_opt.
  apply (M_Seq true _ _ prev [] w rest c c); [apply M_OptNone|].
  apply population_matches. by exists num.
Qed.

Lemma Structural_extractTotal_none text :
  (forall pre num, ~ phrase_at total_population_phrase text pre num) ->
  Structural.extractTotal text = None.
Proof.
  intros Hn. unfold Structural.extractTotal.
  destruct (exec true rx_total text) as [m|] eqn:He; [|done]. exfalso.
  destruct (exec_sound _ _ _ _ He) as (Ht & M & _).
  apply total_matches in M as (num & Hp & _).
  apply (Hn (m_pre m) num). by exists (m_all m), (m_post m).
Qed.

Lemma total_phrase_matches_at text pre num :
  phrase_at total_population_phrase text pre num -> matches_at true rx_total text pre.
Proof.
  intros (w & post & Ht & Hp). exists w, post, (<[1%nat := num]> ∅).
  split; [done|]. apply total_matches. by exists num.
Qed.

Lemma extractTotal_optional_none text :
  (forall pre num, ~ phrase_at population_phrase text pre num) ->
  extractTotal_optional text = None.
Proof.
  intros Hn. unfold extractTotal_optional.
  destruct (exec true rx_total_opt text) as [m|] eqn:He; [|done]. exfalso.
  destruct (exec_sound _ _ _ _ He) as (Ht & M & _).
  apply total_opt_matches in M as (num & [Hp | (T & ws & w' & Hw & _ & _ & Hp)] & _).
  - apply (Hn (m_pre m) num). by exists (m_all m), (m_post m).
  - apply (Hn (m_pre m ++ T ++ ws) num). exists w', (m_post m).
    split; [|done]. rewrite Ht, Hw, <- !app_assoc. done.
Qed.

Lemma total_opt_matches_total prev w num rest c :
  total_population_phrase w num ->
  exists c', Matches true rx_total_opt prev w rest c c'.
Proof.
  intros (T & ws & w' & -> & HT & Hws & Hp).
  eexists. unfold rx_total_opt. rewrite app_assoc.
  eapply M_Seq.
  - apply M_OptSome. constructor.
    eapply M_Seq; [by constructor|]. constructor; [done | apply within_star].
  - apply population_matches. by exists num.
Qed.

Lemma optional_phrase_matches_at text pre num :
  phrase_at population_phrase text pre num
  \/ phrase_at total_population_phrase text pre num ->
  matches_at true rx_total_opt text pre.
Proof.
  intros [(w & post & Ht & Hp) | (w & post & Ht & Hp)].
  - exists w, post, (<[2%nat := num]> ∅). split; [done|].
    by apply total_opt_matches_population.
  - destruct (total_opt_matches_total (last pre) w num post ∅ Hp) as [c' M].
    by exists w, post, c'.
Qed.

(** *** The number that the extractors read *)

Lemma comma_digit_not_space a : is_digit_or_comma a = true -> is_space a = false.
Proof. by_chars a. Qed.

Lemma P_not_space a : char_match true "P"%char a = true -> is_space a = false.
Proof. by_chars a. Qed.

Lemma space_not_P a : is_space a = true -> char_match true "P"%char a = false.
Proof. by_chars a. Qed.

Lemma spelled_head ic b l w :
  spelled ic (b :: l) w -> exists a w', w = a :: w' /\ char_match ic b a = true.
Proof. intros H. inversion H; subst. by eauto. Qed.

Lemma Total_has_no_P T :
  spelled true (str "Total") T -> Forall (fun a => char_match true "P"%char a = false) T.
Proof.
  assert (H : forall b a, In b (str "Total") ->
            char_match true b a = true -> char_match true "P"%char a = false).
  { intros b a Hb. simpl in Hb.
    destruct Hb as [<- | [<- | [<- | [<- | [<- | []]]]]];
      destruct a as [[] [] [] [] [] [] [] []]; vm_compute; intros; (reflexivity || discriminate). }
  intros Hs. unfold spelled in Hs.
  induction Hs as [|b a l w Hc _ IH]; [constructor|]. constructor.
  - apply (H b); [by left | done].
  - apply IH. intros b' a' Hb'. apply H. by right.
Qed.

Lemma run_ends_number hi n num post :
  number_token num -> run_ends is_space hi n (num ++ post).
Proof.
  intros [Hn Hne]. destruct Hn as [|b num Hb _]; [done|]. simpl.
  left. by apply comma_digit_not_space.
Qed.

Lemma run_ends_Population hi n P tail :
  spelled true (str "Population") P -> run_ends is_space hi n (P ++ tail).
Proof.
  intros HP. apply spelled_head in HP as (a & P' & -> & Ha). simpl.
  left. by apply P_not_space.
Qed.

(** The matcher on "Population", white space, a number: the number is the
    whole run of digits and commas that stands there. *)
Lemma population_greedy {A} i prev s c
    (k : jsstring -> jsstring -> captures -> option A) x :
  (forall w rest c', k w rest c' <> None) ->
  rmatch true
    (Seq (Lit (str "Population")) (Seq (Star is_space) (Grp i (Plus is_digit_or_comma))))
    prev s c k = Some x ->
  exists P ws num post,
    s = (P ++ ws ++ num) ++ post
    /\ spelled true (str "Population") P /\ all_of is_space ws /\ number_token num
    /\ run_ends is_digit_or_comma None (length num) post
    /\ k (P ++ ws ++ num) post (<[i := num]> c) = Some x.
Proof.
  intros Hk H. unfold Star, Plus in H. cbn [rmatch] in H.
  destruct (lit_match true (str "Population") s) as [[P r1]|] eqn:Hl; [|discriminate].
  apply lit_match_sound in Hl as [-> HP].
  apply rep_greedy_sound in H as (ws & r2 & -> & Hws & _ & H).
  apply rep_greedy_first in H as (num & post & -> & Hnum & Hn & H & Hmax).
  exists P, ws, num, post.
  assert (Hr : run_ends is_digit_or_comma None (length num) post).
  { eapply longest_run_ends; [done | exact Hn |].
    intros w' rest' Hs Hw' Hn' Hlt. by apply (Hk _ _ _ (Hmax w' rest' Hs Hw' Hn' Hlt)). }
  split_and!; [by rewrite <- !app_assoc | done | done | by apply number_token_intro | done | done].
Qed.

(** A population phrase cannot start inside "Total" and the white space
    after it. *)
Lemma population_not_inside_total text mp T ws0 tail pre' P' tail' :
  text = mp ++ (T ++ ws0) ++ tail ->
  spelled true (str "Total") T -> all_of is_space ws0 ->
  text = pre' ++ P' ++ tail' -> spelled true (str "Population") P' ->
  (length mp <= length pre')%nat ->
  (length (mp ++ T ++ ws0) <= length pre')%nat.
Proof.
  intros Ht HT Hws Ht' HP Hle.
  destruct (Nat.le_gt_cases (length (mp ++ T ++ ws0)) (length pre')) as [|Hlt]; [done|].
  exfalso. rewrite length_app in Hlt.
  apply spelled_head in HP as (a & P'' & -> & Ha).
  assert (H1 : text !! length pre' = Some a).
  { rewrite Ht', lookup_app_r, Nat.sub_diag by lia. done. }
  assert (H2 : text !! length pre' = (T ++ ws0) !! (length pre' - length mp)%nat).
  { rewrite Ht, lookup_app_r by lia. apply lookup_app_l. lia. }
  rewrite H1 in H2. symmetry in H2. apply list_elem_of_lookup_2 in H2.
  apply elem_of_app in H2 as [Hin | Hin].
  - apply Total_has_no_P in HT. rewrite Forall_forall in HT. specialize (HT _ Hin).
    congruence.
  - unfold all_of in Hws. rewrite Forall_forall in Hws. specialize (Hws _ Hin).
    apply space_not_P in Hws. congruence.
Qed.

Lemma exec_total_first text m :
  exec true rx_total text = Some m ->
  exists num, first_total_population text num /\ group m 1 = Some num.
Proof.
  intros He. destruct (exec_sound _ _ _ _ He) as (_ & _ & Hleft).
  destruct (exec_from_rmatch _ _ _ _ _ He) as (sk & s' & Hs & Hpre & Hr).
  simpl in Hpre. subst sk. unfold rx_total in Hr.
  apply rmatch_seq_sound in Hr as (T & r1 & c1 & -> & M1 & Hr).
  apply rmatch_seq_sound in Hr as (ws0 & r2 & c2 & -> & M2 & Hr).
  apply population_greedy in Hr as (P & ws & num & post & -> & HP & Hws & Hnum & Hend & Hk);
    [|done].
  destruct m as [mp ma mo mc]. cbn [m_pre m_all m_post m_caps] in *.
  inversion Hk; subst ma mo mc. clear Hk. subst text.
  unfold Star in M2. inv_matches.
  exists num. split; [|by apply lookup_insert_eq].
  exists mp, T, ws0, P, ws, post. split_and!; try done.
  - by rewrite <- !app_assoc.
  - intros pre' num' Hp. apply Hleft. by eapply total_phrase_matches_at.
Qed.

Lemma exec_total_opt_first text m :
  exec true rx_total_opt text = Some m ->
  exists num, first_population text num /\ group m 2 = Some num.
Proof.
  intros He. destruct (exec_sound _ _ _ _ He) as (_ & _ & Hleft).
  destruct (exec_from_rmatch _ _ _ _ _ He) as (sk & s' & Hs & Hpre & Hr).
  simpl in Hpre. subst sk. unfold rx_total_opt in Hr.
  apply rmatch_seq_sound in Hr as (w1 & r1 & c1 & -> & M1 & Hr).
  apply population_greedy in Hr as (P & ws & num & post & -> & HP & Hws & Hnum & Hend & Hk);
    [|done].
  destruct m as [mp ma mo mc]. cbn [m_pre m_all m_post m_caps] in *.
  inversion Hk; subst ma mo mc. clear Hk. subst text.
  exists num. split; [|by apply lookup_insert_eq].
  exists (mp ++ w1), P, ws, post. split_and!; try done.
  - by rewrite <- !app_assoc.
  - intros pre' num' Hp.
    assert (Hle : (length mp <= length pre')%nat).
    { apply Hleft. apply (optional_phrase_matches_at _ _ num'). by left. }
    destruct Hp as (w' & post' & Ht' & (P' & ws' & -> & HP' & _)).
    inversion M1 as [| | | | | |? ? ? ? ? ? M1'|? ? ? ?| |]; subst; clear M1.
    + unfold Star in M1'. inv_matches. rewrite <- !app_assoc in Ht'.
      eapply (population_not_inside_total _ mp _ _ _ pre' P' (ws' ++ num' ++ post')).
      4: exact Ht'.
      2: eassumption.
      2: eassumption.
      * by rewrite <- !app_assoc.
      * done.
      * done.
    + by rewrite app_nil_r.
Qed.

Lemma first_population_phrase text num :
  first_population text num -> exists pre, phrase_at population_phrase text pre num.
Proof.
  intros (pre & P & ws & post & Ht & HP & Hws & Hn & _).
  exists pre, (P ++ ws ++ num), post. split; [done|]. by exists P, ws.
Qed.

Lemma first_total_population_phrase text num :
  first_total_population text num ->
  exists pre, phrase_at total_population_phrase text pre num.
Proof.
  intros (pre & T & ws0 & P & ws & post & Ht & HT & Hws0 & HP & Hws & Hn & _).
  exists pre, (T ++ ws0 ++ P ++ ws ++ num), post. split; [done|].
  exists T, ws0, (P ++ ws ++ num). split_and!; try done. by exists P, ws.
Qed.

(** The first population phrase of a text has one number. *)
Lemma first_population_unique text num num' :
  first_population text num -> first_population text num' -> num = num'.
Proof.
  intros H H'.
  destruct (first_population_phrase _ _ H) as [p0 Hp],
           (first_population_phrase _ _ H') as [p0' Hp'].
  destruct H as (pre & P & ws & post & Ht & HP & Hws & Hn & He & Hl).
  destruct H' as (pre' & P' & ws' & post' & Ht' & HP' & Hws' & Hn' & He' & Hl').
  assert (Hat : phrase_at population_phrase text pre num).
  { exists (P ++ ws ++ num), post. split; [done|]. by exists P, ws. }
  assert (Hat' : phrase_at population_phrase text pre' num').
  { exists (P' ++ ws' ++ num'), post'. split; [done|]. by exists P', ws'. }
  pose proof (Hl _ _ Hat') as L1. pose proof (Hl' _ _ Hat) as L2.
  rewrite Ht' in Ht. apply app_inj_1 in Ht as [_ Ht]; [|lia].
  rewrite <- !app_assoc in Ht.
  apply app_inj_1 in Ht as [_ Ht];
    [|by rewrite (spelled_length _ _ _ HP), (spelled_length _ _ _ HP')].
  apply (run_unique is_space None) in Ht as [_ Ht];
    try done; try (by apply run_ends_number); try (split; [lia | done]).
  apply (run_unique is_digit_or_comma None) in Ht as [E _];
    try done; try apply Hn; try apply Hn'; try (split; [lia | done]).
Qed.

Lemma first_total_population_unique text num num' :
  first_total_population text num -> first_total_population text num' -> num = num'.
Proof.
  intros H H'.
  destruct H as (pre & T & ws0 & P & ws & post & Ht & HT & Hws0 & HP & Hws & Hn & He & Hl).
  destruct H' as (pre' & T' & ws0' & P' & ws' & post' & Ht' & HT' & Hws0' & HP' & Hws' & Hn'
                  & He' & Hl').
  assert (Hat : phrase_at total_population_phrase text pre num).
  { exists (T ++ ws0 ++ P ++ ws ++ num), post. split; [done|].
    exists T, ws0, (P ++ ws ++ num). split_and!; try done. by exists P, ws. }
  assert (Hat' : phrase_at total_population_phrase text pre' num').
  { exists (T' ++ ws0' ++ P' ++ ws' ++ num'), post'. split; [done|].
    exists T', ws0', (P' ++ ws' ++ num'). split_and!; try done. by exists P', ws'. }
  pose proof (Hl _ _ Hat') as L1. pose proof (Hl' _ _ Hat) as L2.
  rewrite Ht' in Ht. apply app_inj_1 in Ht as [_ Ht]; [|lia].
  rewrite <- !app_assoc in Ht.
  apply app_inj_1 in Ht as [_ Ht];
    [|by rewrite (spelled_length _ _ _ HT), (spelled_length _ _ _ HT')].
  apply (run_unique is_space None) in Ht as [_ Ht];
    try done; try (by apply run_ends_Population); try (split; [lia | done]).
  apply app_inj_1 in Ht as [_ Ht];
    [|by rewrite (spelled_length _ _ _ HP), (spelled_length _ _ _ HP')].
  apply (run_unique is_space None) in Ht as [_ Ht];
    try done; try (by apply run_ends_number); try (split; [lia | done]).
  apply (run_unique is_digit_or_comma None) in Ht as [E _];
    try done; try apply Hn; try apply Hn'; try (split; [lia | done]).
Qed.

Lemma extractTotal_optional_exists text :
  (exists pre num, phrase_at population_phrase text pre num) ->
  exists num, first_population text num /\ extractTotal_optional text = cleanNum num.
Proof.
  intros (pre & num & Hp). unfold extractTotal_optional.
  destruct (exec_complete true rx_total_opt text pre) as [m He];
    [apply (optional_phrase_matches_at _ _ num); by left|].
  rewrite He. destruct (exec_total_opt_first _ _ He) as (num' & Hf & Hg).
  exists num'. split; [done|]. by rewrite Hg.
Qed.

Lemma extractTotal_optional_first text num :
  first_population text num -> extractTotal_optional text = cleanNum num.
Proof.
  intros Hf. destruct (first_population_phrase _ _ Hf) as [pre Hp].
  destruct (extractTotal_optional_exists text) as (num' & Hf' & ->); [by eauto|].
  by rewrite (first_population_unique _ _ _ Hf Hf').
Qed.

Lemma Structural_extractTotal_exists text :
  (exists pre num, phrase_at total_population_phrase text pre num) ->
  exists num, first_total_population text num
              /\ Structural.extractTotal text = cleanNum num.
Proof.
  intros (pre & num & Hp). unfold Structural.extractTotal.
  destruct (exec_complete true rx_total text pre) as [m He];
    [by eapply total_phrase_matches_at|].
  rewrite He. destruct (exec_total_first _ _ He) as (num' & Hf & Hg).
  exists num'. split; [done|]. by rewrite Hg.
Qed.

Lemma Structural_extractTotal_first text num :
  first_total_population text num -> Structural.extractTotal text = cleanNum num.
Proof.
  intros Hf. destruct (first_total_population_phrase _ _ Hf) as [pre Hp].
  destruct (Structural_extractTotal_exists text) as (num' & Hf' & ->); [by eauto|].
  by rewrite (first_total_population_unique _ _ _ Hf Hf').
Qed.

(** *** The occurrence that the grade loops read *)

Lemma grade_read_occurrence s g num post :
  grade_read s g num post ->
  exists w, s = w ++ post /\ grade_occurrence w g num.
Proof.
  intros (P & ws1 & ws2 & -> & HP & Hw1 & Hg & Hl & Hw2 & Hn & _).
  eexists. split; [reflexivity|]. by exists P, ws1, ws2.
Qed.

(** The matcher on a grade occurrence: the count is the whole run of digits
    and commas, and the grade has two digits unless no count could follow
    them. *)
Lemma grade_greedy {A} prev s c
    (k : jsstring -> jsstring -> captures -> option A) x :
  (forall w rest c', k w rest c' <> None) ->
  rmatch true rx_grade prev s c k = Some x ->
  exists g num post w,
    grade_read s g num post /\ s = w ++ post
    /\ k w post (<[2%nat := num]> (<[1%nat := g]> c)) = Some x.
Proof.
  intros Hk H. unfold rx_grade, Star, Plus in H. cbn [rmatch] in H.
  destruct (lit_match true (str "PSA") s) as [[P r1]|] eqn:Hl; [|discriminate].
  apply lit_match_sound in Hl as [-> HP].
  apply rep_greedy_sound in H as (ws1 & r2 & -> & Hw1 & _ & H).
  apply rep_greedy_first in H as (g & r3 & -> & Hg & Hng & H & Hmaxg).
  pose proof H as H'.
  apply rep_greedy_sound in H as (ws2 & r4 & -> & Hw2 & _ & H).
  apply rep_greedy_first in H as (num & post & -> & Hnum & Hn & H & Hmax).
  assert (Hr : run_ends is_digit_or_comma None (length num) post).
  { eapply longest_run_ends; [done | exact Hn |].
    intros w' rest' Hs Hw' Hn' Hlt. by apply (Hk _ _ _ (Hmax w' rest' Hs Hw' Hn' Hlt)). }
  exists g, num, post, (P ++ ws1 ++ g ++ ws2 ++ num). split_and!.
  - exists P, ws1, ws2.
    assert (Hntok : number_token num) by (by apply number_token_intro).
    assert (Hlg : (1 <= length g <= 2)%nat) by (destruct Hng as [? Hg2]; simpl in Hg2; lia).
    split_and!; [by rewrite <- !app_assoc | done | done | done | lia | lia | done | done
                | done |].
    intros Hlen c0 r Hc Hd (ws' & num' & rest' & -> & Hws' & Hn').
    assert (Hnone := Hmaxg (g ++ [c0]) (ws' ++ num' ++ rest')).
    rewrite <- app_assoc in Hnone. simpl in Hnone. rewrite <- Hc in Hnone.
    specialize (Hnone eq_refl).
    assert (Hsome : is_Some
      (rep_greedy is_space 0 None (ws' ++ num' ++ rest')
         (fun w rest =>
            rep_greedy is_digit_or_comma 1 None rest
              (fun w0 rest0 =>
                 k (P ++ ws1 ++ (g ++ [c0]) ++ w ++ w0) rest0
                   (<[2%nat := w0]> (<[1%nat := g ++ [c0]]> c)))))).
    { apply rep_greedy_complete; [done | apply within_star|].
      apply rep_greedy_complete; [apply Hn' | by apply number_token_within|].
      cbv beta.
      match goal with |- is_Some ?t => destruct t eqn:E end;
        [by eexists | by apply Hk in E]. }
    destruct Hsome as [y Hy]. rewrite Hnone in Hy; [done | | |].
    + apply Forall_app. split; [done | by constructor].
    + rewrite length_app. simpl. split; simpl; lia.
    + rewrite length_app. simpl. lia.
  - by rewrite <- !app_assoc.
  - done.
Qed.

(** The occurrence read at the head of a text has one reading. *)
Lemma grade_read_unique s g num post g' num' post' :
  grade_read s g num post -> grade_read s g' num' post' ->
  g = g' /\ num = num' /\ post = post'.
Proof.
  intros (P & ws1 & ws2 & Hs & HP & Hw1 & Hg & Hl & Hw2 & Hn & He & Hb)
         (P' & ws1' & ws2' & Hs' & HP' & Hw1' & Hg' & Hl' & Hw2' & Hn' & He' & Hb').
  rewrite Hs' in Hs. rewrite <- !app_assoc in Hs.
  apply app_inj_1 in Hs as [_ Hs];
    [|by rewrite (spelled_length _ _ _ HP), (spelled_length _ _ _ HP')].
  apply (run_unique is_space None) in Hs as [_ Hs];
    try done; try (apply run_ends_digits; (done || lia)); try (split; [lia | done]).
  assert (Hgg : g = g' /\ ws2 ++ num ++ post = ws2' ++ num' ++ post').
  { destruct (decide (length g = length g')) as [Heq | Hne].
    - symmetry in Hs. by apply app_inj_1 in Hs.
    - exfalso.
      destruct g as [|a [|a2 [|? ?]]]; simpl in Hl; try lia;
      destruct g' as [|b [|b2 [|? ?]]]; simpl in Hl'; try lia; try done.
      + simpl in Hs. inversion Hs as [[Ha Hs2]].
        apply (Hb eq_refl b2 (ws2' ++ num' ++ post')); [by symmetry | |].
        * by inversion Hg' as [|? ? ? Hg2]; inversion Hg2.
        * by exists ws2', num', post'.
      + simpl in Hs. inversion Hs as [[Ha Hs2]].
        apply (Hb' eq_refl a2 (ws2 ++ num ++ post)); [done | |].
        * by inversion Hg as [|? ? ? Hg2]; inversion Hg2.
        * by exists ws2, num, post. }
  destruct Hgg as [-> Hs2].
  apply (run_unique is_space None) in Hs2 as [_ Hs2];
    try done; try (by apply run_ends_number); try (split; [lia | done]).
  apply (run_unique is_digit_or_comma None) in Hs2 as [-> ->];
    try done; try apply Hn; try apply Hn'; try (split; [lia | done]).
Qed.

(** A text has one list of occurrences. *)
Lemma Occurrences_unique s l : Occurrences s l -> forall l', Occurrences s l' -> l = l'.
Proof.
  induction 1 as [s Hnone | s sk s1 g num post l Hs Hr Hleft Hrest IH]; intros l' H'.
  - inversion H' as [| ? sk' s1' g' num' post' l0 Hs' Hr' _ _]; [done|]. subst.
    exfalso. destruct (grade_read_occurrence _ _ _ _ Hr') as (w & -> & Ho).
    by apply (Hnone sk' w post' g' num').
  - inversion H' as [? Hnone' | ? sk' s1' g' num' post' l0 Hs' Hr' Hleft' Hrest']; subst.
    + exfalso. destruct (grade_read_occurrence _ _ _ _ Hr) as (w & -> & Ho).
      by apply (Hnone' sk w post g num).
    + assert (Hsk : length sk = length sk').
      { destruct (grade_read_occurrence _ _ _ _ Hr) as (w & Hw & Ho).
        destruct (grade_read_occurrence _ _ _ _ Hr') as (w' & Hw' & Ho').
        apply Nat.le_antisymm.
        - apply (Hleft sk' w' post' g' num'); [by rewrite Hs', Hw' | done].
        - apply (Hleft' sk w post g num); [by rewrite Hw | done]. }
      apply app_inj_1 in Hs' as [_ <-]; [|done].
      destruct (grade_read_unique _ _ _ _ _ _ _ Hr Hr') as (<- & <- & <-).
      f_equal. by apply IH.
Qed.

(** One turn of the grade loops reads the leftmost occurrence. *)
Lemma exec_grade_read pre s m :
  exec_from true rx_grade pre s = Some m ->
  exists sk num,
    m_pre m = pre ++ sk /\ s = sk ++ m_all m ++ m_post m
    /\ grade_read (m_all m ++ m_post m) (group_text m 1) num (m_post m)
    /\ group m 2 = Some num.
Proof.
  intros He. destruct (exec_from_rmatch _ _ _ _ _ He) as (sk & s' & Hs & Hpre & Hr).
  apply grade_greedy in Hr as (g & num & post & w & Hread & -> & Hk); [|done].
  destruct m as [mp ma mo mc]. cbn [m_pre m_all m_post m_caps] in *.
  inversion Hk; subst ma mo mc. clear Hk.
  exists sk, num. unfold group_text, group. cbn [m_caps].
  rewrite lookup_insert_ne, !lookup_insert_eq by done.
  split_and!; done.
Qed.

(** [findGrades] lists the occurrences of the text from left to right. *)
Lemma findGrades_loop_occurrences : forall n pre s,
  (length s <= n)%nat ->
  Occurrences s (Strict.findGrades_loop (S (length s)) pre s).
Proof.
  induction n as [|n IH]; intros pre s Hn; rewrite findGrades_loop_unfold.
  - destruct (exec_from true rx_grade pre s) as [m|] eqn:He.
    + destruct (exec_grade _ _ _ He) as (_ & _ & _ & _ & _ & _ & Hlt). lia.
    + apply Occ_none. intros sk w post g num Hs Ho.
      apply (exec_from_none _ _ _ _ He sk (w ++ post) Hs).
      by eapply grade_occurrence_at.
  - destruct (exec_from true rx_grade pre s) as [m|] eqn:He.
    + destruct (exec_grade _ _ _ He) as (_ & _ & _ & _ & _ & _ & Hlt).
      destruct (exec_grade_read _ _ _ He) as (sk & num & Hpre & Hs & Hread & Hg2).
      destruct (exec_from_sound _ _ _ _ _ He) as (sk0 & Hpre0 & Hs0 & _ & Hleft).
      assert (sk0 = sk) as -> by (rewrite Hpre in Hpre0; by apply app_inv_head in Hpre0).
      rewrite Hg2. simpl cleanNum_group.
      eapply Occ_next; [exact Hs | exact Hread | | apply IH; lia].
      intros sk' w' post' g' num' Hs' Ho'.
      destruct (Nat.le_gt_cases (length sk) (length sk')) as [|Hgt]; [done|].
      exfalso. destruct (prefix_of_same _ _ _ _ _ Hs' Hs Hgt) as (d & Hd & Hne).
      apply (Hleft sk' d Hd Hne). by eapply grade_occurrence_at.
    + apply Occ_none. intros sk w post g num Hs Ho.
      apply (exec_from_none _ _ _ _ He sk (w ++ post) Hs).
      by eapply grade_occurrence_at.
Qed.

(** ** The numeric normalizer *)

Lemma Number_digits_fold : forall m acc,
  fold_left (fun acc a => 10 * acc + digit_val a) m acc
  = acc * 10 ^ Z.of_nat (length m) + decimal m.
Proof.
  induction m as [|a m IH]; intros acc; simpl fold_left.
  - simpl. lia.
  - rewrite IH. cbn [decimal length]. rewrite Nat2Z.inj_succ, Z.pow_succ_r by lia. ring.
Qed.

Lemma digits_value_decimal m : digits_value m = decimal m.
Proof. unfold digits_value. rewrite Number_digits_fold. lia. Qed.

Lemma Number_digits_decimal m : Number_digits m = to_double (decimal m).
Proof. unfold Number_digits. by rewrite digits_value_decimal. Qed.

Lemma to_double_exact n : n <= 2 ^ 53 -> to_double n = Fin (inject_Z n).
Proof.
  intros Hn. destruct (Z.ltb_spec n (2 ^ 53)) as [Hlt | Hge].
  - unfold to_double. apply Z.ltb_lt in Hlt. by rewrite Hlt.
  - assert (n = 2 ^ 53) as -> by lia. reflexivity.
Qed.

(** Past 2^53 the conversion rounds to the nearest double. *)
Lemma to_double_nearest n : 2 ^ 53 <= n -> nearest_double n (to_double n).
Proof.
  unfold nearest_double. intros Hn.
  assert (H53 : 2 ^ 53 = 2 * 2 ^ 52) by reflexivity.
  assert (H52 : 0 < 2 ^ 52) by reflexivity.
  assert (Hpos : 0 < n) by lia.
  assert (Hlog : 53 <= Z.log2 n).
  { rewrite <- (Z.log2_pow2 53) by lia. by apply Z.log2_le_mono. }
  destruct (Z.log2_spec n Hpos) as [Hlo Hhi].
  set (e := Z.log2 n - 52) in *.
  assert (He : 1 <= e) by (unfold e; lia).
  assert (HB : 2 ^ e = 2 * 2 ^ (e - 1)).
  { rewrite <- Z.pow_succ_r by lia. f_equal. lia. }
  assert (Hh : 0 < 2 ^ (e - 1)) by (apply Z.pow_pos_nonneg; lia).
  assert (Hlo' : 2 ^ 52 * 2 ^ e <= n).
  { rewrite <- Z.pow_add_r by lia. replace (52 + e) with (Z.log2 n) by (unfold e; lia). done. }
  assert (Hhi' : n < 2 ^ 53 * 2 ^ e).
  { rewrite <- Z.pow_add_r by lia. replace (53 + e) with (Z.succ (Z.log2 n)) by (unfold e; lia).
    done. }
  pose proof (Z.div_mod n (2 ^ e) ltac:(lia)) as Hdm.
  pose proof (Z.mod_pos_bound n (2 ^ e) ltac:(lia)) as Hr.
  assert (Hc : e <= 971 -> 2 ^ (e - 1) <= 2 ^ 970).
  { intros Hle. apply Z.pow_le_mono_r; [done | clear -Hle; lia]. }
  assert (Hd : 972 <= e -> 2 ^ 1024 <= 2 ^ 52 * 2 ^ e).
  { intros Hge. rewrite <- Z.pow_add_r by (clear -He; lia).
    apply Z.pow_le_mono_r; [done | clear -Hge; lia]. }
  assert (Hc0 : 0 < 2 ^ 970) by reflexivity.
  unfold to_double. destruct (Z.ltb_spec n (2 ^ 53)) as [|_]; [lia|].
  cbv zeta. fold e.
  set (q := n / 2 ^ e) in *. set (r := n mod 2 ^ e) in *.
  clear Hlo Hhi Hlog.
  remember (2 ^ e) as B eqn:EB. remember (2 ^ (e - 1)) as h eqn:Eh.
  set (a := 2 ^ 52) in *. set (b := 2 ^ 53) in *. set (c := 2 ^ 970) in *.
  set (d := 2 ^ 1024) in *.
  clearbody a b c d q r.
  assert (Hq : a <= q < b) by nia.
  destruct ((h <? r) || ((r =? h) && Z.odd q)) eqn:Hup.
  - (* up *)
    assert (Hrh : h < r \/ (r = h /\ Z.odd q = true)).
    { apply orb_true_iff in Hup as [H | H]; [left; by apply Z.ltb_lt|].
      apply andb_true_iff in H as [H1 H2]. right. split; [by apply Z.eqb_eq | done]. }
    destruct (Z.leb_spec d ((q + 1) * B)) as [Hov | Hfin].
    + left. split; [done|].
      destruct (Z.le_gt_cases e 971) as [Hle | Hgt].
      * specialize (Hc Hle). nia.
      * assert (Hd' := Hd ltac:(lia)). nia.
    + right. exists (q + 1), e. rewrite <- EB. split_and!; try done; try lia.
      intros Heq. assert (r = h) by lia.
      destruct Hrh as [? | [_ Hodd]]; [lia|].
      rewrite Z.even_add. rewrite <- Z.negb_odd, Hodd. reflexivity.
  - (* down *)
    assert (Hrh : r <= h /\ (r = h -> Z.even q = true)).
    { apply orb_false_iff in Hup as [H1 H2]. apply Z.ltb_ge in H1. split; [done|].
      intros ->. rewrite Z.eqb_refl in H2. simpl in H2. by rewrite <- Z.negb_odd, H2. }
    destruct (Z.leb_spec d (q * B)) as [Hov | Hfin].
    + left. split; [done|]. nia.
    + right. exists q, e. rewrite <- EB. split_and!; try done; try lia.
      intros Heq. apply Hrh. lia.
Qed.

Lemma to_double_count n : 0 <= n -> count_value (to_double n).
Proof.
  intros Hn. unfold to_double. destruct (n <? 2 ^ 53); [right; by exists n|].
  cbv zeta.
  match goal with |- context [2 ^ 1024 <=? ?v] => set (x := v) end.
  destruct (2 ^ 1024 <=? x) eqn:Hx; [by left|].
  right. exists x. split; [|done]. subst x.
  apply Z.mul_nonneg_nonneg; [|apply Z.pow_nonneg; lia].
  assert (0 <= n / 2 ^ (Z.log2 n - 52)).
  { apply Z_div_nonneg_nonneg; [done | apply Z.pow_nonneg; lia]. }
  destruct (_ || _); lia.
Qed.

Lemma digit_val_range a : is_digit a = true -> 0 <= digit_val a <= 9.
Proof.
  unfold is_digit, digit_val. rewrite andb_true_iff, !Nat.leb_le. lia.
Qed.

Lemma decimal_nonneg d : all_of is_digit d -> 0 <= decimal d.
Proof.
  induction 1 as [|a d Ha _ IH]; simpl; [lia|].
  apply digit_val_range in Ha.
  assert (0 <= 10 ^ Z.of_nat (length d)) by (apply Z.pow_nonneg; lia). nia.
Qed.

Lemma keep_digits_all s : all_of is_digit (keep_digits s).
Proof.
  unfold keep_digits, all_of. apply List.Forall_forall. intros a Ha.
  by apply List.filter_In in Ha as [_ Ha].
Qed.

Lemma keep_digits_nil s :
  keep_digits s = [] <-> Forall (fun a => is_digit a = false) s.
Proof.
  unfold keep_digits. induction s as [|a s IH]; simpl.
  - split; [constructor | done].
  - destruct (is_digit a) eqn:Ha.
    + split; [done|]. inversion 1; congruence.
    + rewrite IH. split; [by constructor | by inversion 1].
Qed.

Lemma cleanNum_eq s :
  cleanNum s = if decide (keep_digits s = []) then None
               else Some (to_double (decimal (keep_digits s))).
Proof.
  unfold cleanNum. destruct s as [|a s]; [done|]. simpl negb. cbv iota.
  destruct (keep_digits (a :: s)) as [|b m] eqn:Hk; [done|].
  simpl truthy. cbv iota. rewrite decide_False by done.
  by rewrite Number_digits_decimal.
Qed.

Lemma cleanNum_count s v : cleanNum s = Some v -> count_value v.
Proof.
  rewrite cleanNum_eq. destruct (decide _); [done|].
  intros H. inversion H. apply to_double_count, decimal_nonneg, keep_digits_all.
Qed.

(** ** Substrings *)

Lemma starts_with_spec s n : starts_with s n = true <-> exists post, s = n ++ post.
Proof.
  revert s. induction n as [|b n IH]; intros s.
  - split; [by exists s | by destruct s].
  - destruct s as [|a s]; simpl.
    + split; [done | by intros [post H]].
    + rewrite andb_true_iff, ascii_eqb_eq, IH. split.
      * intros [-> [post ->]]. by exists post.
      * intros [post H]. inversion H; subst. split; [done | by exists post].
Qed.

Lemma includes_spec s n : includes s n = true <-> exists pre post, s = pre ++ n ++ post.
Proof.
  induction s as [|a s IH].
  - destruct n as [|b n]; simpl.
    + split; [by exists [], [] | done].
    + split; [done|]. intros (pre & post & H). by destruct pre.
  - change (includes (a :: s) n) with (starts_with (a :: s) n || includes s n).
    rewrite orb_true_iff, starts_with_spec, IH. split.
    + intros [[post H] | (pre & post & ->)]; [by exists [], post | by exists (a :: pre), post].
    + intros (pre & post & H). destruct pre as [|b pre].
      * left. by exists post.
      * right. inversion H; subst. by exists pre, post.
Qed.

Lemma includes_nonempty s n : n <> [] -> includes s n = true -> truthy s = true.
Proof.
  intros Hn H. apply includes_spec in H as (pre & post & ->).
  destruct pre; [destruct n|]; done.
Qed.

(** ** The block selector *)

Lemma select_best_inv doc sels :
  let st := Structural.select_best sels doc in
  (forall sel, sel ∈ sels -> (length (doc sel) <= length (snd st))%nat)
  /\ (st = (None, [])
      \/ exists l1 sel l2,
           sels = l1 ++ sel :: l2 /\ st = (Some sel, doc sel)
           /\ (0 < length (doc sel))%nat
           /\ forall s', s' ∈ l1 -> (length (doc s') < length (doc sel))%nat).
Proof.
  unfold Structural.select_best.
  induction sels as [|x sels IH] using rev_ind; simpl.
  - split; [by intros sel H; apply elem_of_nil in H | by left].
  - rewrite fold_left_app. simpl.
    destruct IH as [Hmax Hshape].
    set (st := fold_left (Structural.select_step doc) sels (None, [])) in *.
    clearbody st.
    assert (Hstep : Structural.select_step doc st x =
                    if (length (snd st) <? length (doc x))%nat
                    then (Some x, doc x) else st) by reflexivity.
    rewrite Hstep. clear Hstep.
    destruct (length (snd st) <? length (doc x))%nat eqn:Hlt.
    + apply Nat.ltb_lt in Hlt. simpl. split.
      * intros sel Hin. apply elem_of_app in Hin as [Hin | Hin].
        -- specialize (Hmax _ Hin). lia.
        -- apply list_elem_of_singleton in Hin as ->. lia.
      * right. exists sels, x, []. split_and!; try done; [lia|].
        intros s' Hs'. specialize (Hmax _ Hs'). lia.
    + apply Nat.ltb_ge in Hlt. split.
      * intros sel Hin. apply elem_of_app in Hin as [Hin | Hin]; [by apply Hmax|].
        by apply list_elem_of_singleton in Hin as ->.
      * destruct Hshape as [Hst | (l1 & sel & l2 & -> & Hst & Hpos & Hfirst)]; [by left|].
        right. exists l1, sel, (l2 ++ [x]). rewrite <- app_assoc. done.
Qed.

(** ** Filters *)

Lemma filter_by_name_spec {A} (card : A -> CardRecord) pokemonName rows :
  filter_by_name card pokemonName rows =
  List.filter (fun r => negb (truthy_opt pokemonName)
                        || name_matches (toLowerCase (String_of pokemonName)) (card r)) rows.
Proof.
  unfold filter_by_name. destruct (truthy_opt pokemonName); simpl; [done|].
  induction rows; simpl; [done | by f_equal].
Qed.

Lemma filter_by_number_spec {A} (card : A -> CardRecord) cardNumber rows :
  filter_by_number card cardNumber rows =
  List.filter (fun r => negb (truthy_opt cardNumber)
                        || number_matches (remove_spaces (String_of cardNumber)) (card r)) rows.
Proof.
  unfold filter_by_number. destruct (truthy_opt cardNumber); simpl; [done|].
  induction rows; simpl; [done | by f_equal].
Qed.

Lemma filter_filter_and {A} (f g : A -> bool) l :
  List.filter g (List.filter f l) = List.filter (fun x => f x && g x) l.
Proof.
  induction l as [|a l IH]; simpl; [done|].
  destruct (f a); simpl; [|done]. destruct (g a); by rewrite IH.
Qed.

Lemma filter_sublist {A} (f : A -> bool) l : List.filter f l `sublist_of` l.
Proof.
  induction l as [|a l IH]; simpl; [done|].
  destruct (f a); [by apply sublist_skip | by apply sublist_cons].
Qed.

Lemma filter_elem_of {A} (f : A -> bool) l x :
  x ∈ List.filter f l <-> x ∈ l /\ f x = true.
Proof. rewrite !list_elem_of_In. apply List.filter_In. Qed.

Lemma toLowerCase_nonempty s : s <> [] -> toLowerCase s <> [].
Proof. by destruct s. Qed.

Lemma name_matches_spec q r :
  q <> [] ->
  name_matches (toLowerCase q) r = true <->
  contains_ignoring_case (name r) q \/ contains_ignoring_case (details r) q.
Proof.
  intros Hq. apply toLowerCase_nonempty in Hq.
  unfold name_matches, contains_ignoring_case.
  rewrite orb_true_iff, !andb_true_iff, <- !includes_spec.
  split.
  - intros [[_ H] | [_ H]]; [by left | by right].
  - intros [H | H]; [left | right]; (split; [|done]).
    + apply includes_nonempty in H; [|done]. by destruct (name r).
    + apply includes_nonempty in H; [|done]. by destruct (details r).
Qed.

Lemma number_matches_spec want r :
  cardNumber r <> Some [] ->
  number_matches want r = true <->
  exists c, cardNumber r = Some c /\ remove_spaces c = want.
Proof.
  unfold number_matches. intros Hne. destruct (cardNumber r) as [c|].
  - rewrite andb_true_iff, jsstring_eqb_eq. split.
    + intros [_ H]. by exists c.
    + intros (c' & Hc & H). inversion Hc; subst c'. split; [|done].
      destruct c; [done | done].
  - split; [done | by intros (c & Hc & _)].
Qed.

(** ** The limit *)

Lemma Qfloor_ge_Z (z : Z) (q : Q) : (inject_Z z <= q)%Q -> z <= Qfloor q.
Proof. intros H. rewrite <- (Qfloor_Z z). by apply Qfloor_resp_le. Qed.

Lemma Qfloor_lt_Z (z : Z) (q : Q) : (q < inject_Z z)%Q -> Qfloor q < z.
Proof.
  intros H. rewrite Zlt_Qlt. eapply Qle_lt_trans; [apply Qfloor_le | exact H].
Qed.

Lemma Qfloor_le_Z (z : Z) (q : Q) : (q <= inject_Z z)%Q -> Qfloor q <= z.
Proof. intros H. rewrite <- (Qfloor_Z z). by apply Qfloor_resp_le. Qed.

Lemma slice_to_count {A} (q : Q) (l : list A) :
  (1 <= q)%Q -> slice_to (Fin q) l = take (Z.to_nat (Qfloor q)) l.
Proof.
  intros H. unfold slice_to, Qtrunc.
  assert (Hq : (0 <= q)%Q) by (eapply Qle_trans; [|exact H]; done).
  apply Qle_bool_iff in Hq. rewrite Hq.
  pose proof (Qfloor_ge_Z 1 q H) as Hf.
  destruct (Qfloor q <? 0) eqn:Hlt; [|done].
  apply Z.ltb_lt in Hlt. lia.
Qed.

Lemma truthy_num_ge_1 q : (1 <= q)%Q -> truthy_num (Fin q) = true.
Proof.
  intros H. simpl. destruct (Qeq_bool q 0) eqn:He; [|done].
  apply Qeq_bool_iff in He. rewrite He in H. by apply Qle_bool_iff in H.
Qed.

Lemma clamp_spec {A} (v : jsnum) (l : list A) :
  (let lim := Math_max_1 (Math_min_200 v) in
   if truthy_num lim then slice_to lim l else l)
  = match clamp_count v with Some n => take n l | None => l end.
Proof.
  destruct v as [| | |q]; simpl Math_min_200; simpl Math_max_1; cbv zeta.
  - done.
  - rewrite truthy_num_ge_1 by done. by rewrite slice_to_count.
  - rewrite truthy_num_ge_1 by done. by rewrite slice_to_count.
  - destruct (Qle_bool q 200) eqn:H200.
    + apply Qle_bool_iff in H200. simpl Math_max_1.
      destruct (Qle_bool 1 q) eqn:H1.
      * apply Qle_bool_iff in H1. rewrite truthy_num_ge_1, slice_to_count by done.
        simpl clamp_count.
        pose proof (Qfloor_ge_Z 1 q H1). pose proof (Qfloor_le_Z 200 q H200).
        do 2 f_equal. lia.
      * rewrite truthy_num_ge_1, slice_to_count by done. simpl clamp_count.
        assert (Hlt : (q < 1)%Q).
        { apply Qnot_le_lt. intros Hle. apply Qle_bool_iff in Hle. congruence. }
        pose proof (Qfloor_lt_Z 1 q Hlt).
        do 2 f_equal. change (Qfloor 1) with 1. lia.
    + simpl Math_max_1. change (Qle_bool 1 200) with true. cbv iota.
      rewrite truthy_num_ge_1, slice_to_count by done. simpl clamp_count.
      assert (Hlt : (200 < q)%Q).
      { apply Qnot_le_lt. intros Hle. apply Qle_bool_iff in Hle. congruence. }
      assert (Hge : 200 <= Qfloor q) by (apply Qfloor_ge_Z; by apply Qlt_le_weak).
      do 2 f_equal. change (Qfloor 200) with 200. lia.
Qed.

Lemma apply_limit_spec {A} Number limit (l : list A) :
  apply_limit Number limit l =
  match (if truthy_opt limit then clamp_count (Number (String_of limit)) else None) with
  | Some n => take n l
  | None => l
  end.
Proof.
  unfold apply_limit, lim_of. destruct (truthy_opt limit); [|done].
  apply clamp_spec.
Qed.

Lemma clamp_count_range v n : clamp_count v = Some n -> (1 <= n <= 200)%nat.
Proof.
  destruct v as [| | |q]; simpl; intros H; inversion H; subst; try lia.
Qed.

Lemma apply_limit_sublist {A} Number limit (l : list A) :
  apply_limit Number limit l `sublist_of` l.
Proof.
  rewrite apply_limit_spec.
  destruct (if truthy_opt limit then _ else _); [apply sublist_take | done].
Qed.

(** ** The sort *)

Lemma insert_by_len_perm x l : insert_by_len x l ≡ₚ x :: l.
Proof.
  induction l as [|y l IH]; simpl; [done|].
  destruct (_len x <? _len y)%nat; [|done].
  rewrite IH. apply Permutation_swap.
Qed.

Lemma sort_by_len_perm l : sort_by_len l ≡ₚ l.
Proof.
  induction l as [|x l IH]; simpl; [done|].
  rewrite insert_by_len_perm. by rewrite IH.
Qed.

(** ** Deduplication *)

Lemma Loose_seen bs :
  fst (fold_left Loose.dedup_step bs (∅, [])) = list_to_set (Loose.key_of <$> bs).
Proof.
  induction bs as [|b bs IH] using rev_ind; [done|].
  rewrite fold_left_app, fmap_app, list_to_set_app_L. simpl.
  unfold Loose.dedup_step at 1.
  destruct (bool_decide _ && negb _) eqn:Hc.
  - apply andb_true_iff in Hc as [Hin _]. apply bool_decide_eq_true in Hin.
    rewrite IH in *. set_solver.
  - simpl. rewrite IH. set_solver.
Qed.

Lemma Loose_dedup_snoc bs b :
  Loose.dedup (bs ++ [b]) =
  Loose.dedup bs ++
    (if bool_decide (Loose.key_of b ∈ Loose.key_of <$> bs)
        && negb (jsstring_eqb (Loose.key_of b) (str "|"))
     then [] else [b]).
Proof.
  unfold Loose.dedup. rewrite fold_left_app. simpl.
  unfold Loose.dedup_step at 1. rewrite Loose_seen.
  assert (bool_decide (Loose.key_of b ∈ (list_to_set (Loose.key_of <$> bs) : gset jsstring))
          = bool_decide (Loose.key_of b ∈ Loose.key_of <$> bs)) as ->.
  { apply bool_decide_ext. apply elem_of_list_to_set. }
  destruct (bool_decide _ && negb _); simpl; [by rewrite app_nil_r | done].
Qed.

Lemma Strict_seen bs :
  fst (fold_left Strict.dedup_step bs (∅, [])) = list_to_set (Strict.key_of <$> bs).
Proof.
  induction bs as [|b bs IH] using rev_ind; [done|].
  rewrite fold_left_app, fmap_app, list_to_set_app_L. simpl.
  unfold Strict.dedup_step at 1.
  destruct (bool_decide _) eqn:Hc.
  - apply bool_decide_eq_true in Hc. rewrite IH in *. set_solver.
  - simpl. rewrite IH. set_solver.
Qed.

Lemma Strict_dedup_snoc bs b :
  Strict.dedup (bs ++ [b]) =
  Strict.dedup bs ++
    (if bool_decide (Strict.key_of b ∈ Strict.key_of <$> bs) then [] else [b]).
Proof.
  unfold Strict.dedup. rewrite fold_left_app. simpl.
  unfold Strict.dedup_step at 1. rewrite Strict_seen.
  assert (bool_decide (Strict.key_of b ∈ (list_to_set (Strict.key_of <$> bs) : gset jsstring))
          = bool_decide (Strict.key_of b ∈ Strict.key_of <$> bs)) as ->.
  { apply bool_decide_ext. apply elem_of_list_to_set. }
  destruct (bool_decide _); simpl; [by rewrite app_nil_r | done].
Qed.

Lemma Strict_dedup_sublist bs : Strict.dedup bs `sublist_of` bs.
Proof.
  induction bs as [|b bs IH] using rev_ind; [done|].
  rewrite Strict_dedup_snoc. destruct (bool_decide _).
  - rewrite app_nil_r. by apply sublist_inserts_r.
  - by apply sublist_app.
Qed.

Lemma or_else_nil s : or_else s [] = s.
Proof. by destruct s. Qed.

Lemma Loose_key_bar b :
  Loose.key_of b = str "|" <->
  name (rest b) = [] /\ (cardNumber (rest b) = None \/ cardNumber (rest b) = Some []).
Proof.
  unfold Loose.key_of. rewrite or_else_nil. unfold or_opt.
  destruct (name (rest b)) as [|a n]; simpl.
  - destruct (cardNumber (rest b)) as [[|c cn]|]; simpl; split; try done.
    + intros _. split; [done | by right].
    + by intros [_ [H|H]].
    + intros _. split; [done | by left].
  - split; [|by intros [H _]].
    intros H. apply (f_equal length) in H. simpl in H.
    rewrite length_app in H. simpl in H. lia.
Qed.

Lemma Strict_key_not_bar b :
  (exists num, cardNumber (rest b) = Some num /\ num <> []) ->
  Strict.key_of b <> str "|".
Proof.
  intros (num & Hn & Hne). unfold Strict.key_of. rewrite Hn. simpl.
  intros H. apply (f_equal length) in H.
  rewrite length_app in H. simpl in H. destruct num; [done|]. simpl in H. lia.
Qed.

(** ** Three distinct grades *)

Lemma three_distinct (l : list jsstring) :
  (3 <= size (list_to_set l : gset jsstring))%nat <->
  exists x y z, x ∈ l /\ y ∈ l /\ z ∈ l /\ x <> y /\ x <> z /\ y <> z.
Proof.
  set (X := list_to_set l : gset jsstring). split.
  - intros H3.
    destruct (size_pos_elem_of X) as [x Hx]; [lia|].
    assert (Hs1 : size (X ∖ {[x]}) = (size X - 1)%nat).
    { rewrite size_difference by set_solver. by rewrite size_singleton. }
    destruct (size_pos_elem_of (X ∖ {[x]})) as [y Hy]; [lia|].
    assert (Hs2 : size (X ∖ {[x]} ∖ {[y]}) = (size X - 2)%nat).
    { rewrite size_difference by set_solver. rewrite size_singleton. lia. }
    destruct (size_pos_elem_of (X ∖ {[x]} ∖ {[y]})) as [z Hz]; [lia|].
    exists x, y, z. subst X.
    rewrite !elem_of_difference, !elem_of_list_to_set, !elem_of_singleton in *.
    set_solver.
  - intros (x & y & z & Hx & Hy & Hz & Hxy & Hxz & Hyz).
    assert (Hsub : ({[x]} ∪ {[y]} ∪ {[z]} : gset jsstring) ⊆ X).
    { subst X. set_solver. }
    apply subseteq_size in Hsub.
    rewrite !size_union, !size_singleton in Hsub by set_solver. lia.
Qed.

(** ** The acceptance rules of the broad sweeps *)

Lemma extractCardNumberChunk_form text out :
  extractCardNumberChunk text = Some out -> card_number_form out.
Proof.
  intros H. destruct (extractCardNumberChunk_some _ _ H) as (pre & w & post & _ & Hf & -> & _).
  by apply remove_spaces_fraction.
Qed.

Lemma extractCardNumberChunk_truthy text :
  truthy_opt (extractCardNumberChunk text) = true <-> has_fraction text.
Proof.
  destruct (extractCardNumberChunk text) as [out|] eqn:He; simpl.
  - pose proof (extractCardNumberChunk_form _ _ He) as Hform.
    apply card_number_form_nonempty in Hform.
    split.
    + intros _. destruct (extractCardNumberChunk_some _ _ He) as (pre & w & post & Ht & Hf & _).
      exists pre, w, post. done.
    + intros _. by destruct out.
  - apply extractCardNumberChunk_none in He. split; [done | intros H; by destruct He].
Qed.

Lemma size_zero_empty (m : gmap jsstring jsnum) : (size m =? 0)%nat = true <-> m = ∅.
Proof. rewrite Nat.eqb_eq. apply map_size_empty_iff. Qed.

Lemma Strict_kept_of_some el b :
  Strict.kept_of el = Some b ->
  cardNumber (rest b) = extractCardNumberChunk (block_text el)
  /\ has_fraction (block_text el)
  /\ (3 <= Strict.distinctGrades (Strict.findGrades (block_text el)))%nat
  /\ grades (rest b) = Strict.extractGradesMap (block_text el)
  /\ grades (rest b) <> ∅
  /\ totalPop (rest b) = extractTotal_optional (block_text el)
  /\ details (rest b) = snd (extractNameAndDetails_sweep el)
  /\ _len b = length (block_text el).
Proof.
  unfold Strict.kept_of. cbv zeta. intros H.
  destruct (negb (truthy (block_text el))); [discriminate|].
  unfold Strict.extractCardNumber in H.
  destruct (truthy_opt (extractCardNumberChunk (block_text el))) eqn:Hnum;
    [|discriminate]. simpl in H.
  destruct (Strict.distinctGrades _ <? 3)%nat eqn:Hd; [discriminate|].
  apply Nat.ltb_ge in Hd.
  destruct (size (Strict.extractGradesMap (block_text el)) =? 0)%nat eqn:Hs; [discriminate|].
  inversion H; subst b; simpl. split_and!; try done.
  - by apply extractCardNumberChunk_truthy.
  - intros He. apply size_zero_empty in He. congruence.
Qed.

Lemma Strict_kept_of_accepts el :
  is_Some (Strict.kept_of el) <->
  has_fraction (block_text el)
  /\ (3 <= Strict.distinctGrades (Strict.findGrades (block_text el)))%nat
  /\ Strict.extractGradesMap (block_text el) <> ∅.
Proof.
  split.
  - intros [b Hb]. destruct (Strict_kept_of_some _ _ Hb) as (_ & Hf & Hd & Hg & Hne & _).
    split_and!; try done. by rewrite <- Hg.
  - intros (Hf & Hd & Hne). unfold Strict.kept_of.
    set (raw := block_text el) in *. cbv zeta.
    apply extractCardNumberChunk_truthy in Hf as Hnum.
    assert (Hraw : truthy raw = true).
    { destruct Hf as (pre & w & post & Ht & (d1 & ? & ? & ? & -> & [_ Hl] & _)).
      rewrite Ht. destruct pre; [|done]. destruct d1; [simpl in Hl; lia | done]. }
    rewrite Hraw. simpl. unfold Strict.extractCardNumber. rewrite Hnum. simpl.
    apply Nat.ltb_ge in Hd. rewrite Hd.
    destruct (size (Strict.extractGradesMap raw) =? 0)%nat eqn:Hs.
    + apply size_zero_empty in Hs. done.
    + done.
Qed.

(** A grade occurrence or a fraction makes the gate of the loose sweep
    pass. *)
Lemma hint_of_fraction text : has_fraction text -> test true rx_card_hint text = true.
Proof.
  intros (pre & w & post & Ht & Hf). apply test_true. exists pre, w, post.
  eexists. split; [done|]. unfold rx_card_hint. apply M_AltR. constructor.
  apply fraction_matches. by split.
Qed.

Lemma hint_of_grade text pre w post g num :
  text = pre ++ w ++ post -> grade_occurrence w g num ->
  test true rx_card_hint text = true.
Proof.
  intros Ht (P & ws1 & ws2 & -> & HP & Hw1 & Hg & Hl & _).
  destruct g as [|g0 g']; [simpl in Hl; lia|].
  apply test_true. exists pre, (P ++ ws1 ++ [g0]), (g' ++ ws2 ++ num ++ post).
  eexists. split.
  - rewrite Ht, <- !app_assoc. simpl. done.
  - unfold rx_card_hint. apply M_AltL. constructor.
    eapply M_Seq; [by constructor|].
    eapply M_Seq; [constructor; [done | apply within_star]|].
    constructor. by inversion Hg.
Qed.

Lemma extractGrades_nonempty text :
  extractGrades text <> ∅ ->
  exists pre w post g num, text = pre ++ w ++ post /\ grade_occurrence w g num.
Proof.
  rewrite extractGrades_is_map. unfold Strict.extractGradesMap, Strict.findGrades.
  intros Hne.
  destruct (Strict.findGrades_loop (S (length text)) [] text) as [|e l] eqn:Hl; [done|].
  destruct (findGrades_loop_sound (S (length text)) [] text e) as (pre & w & post & num & Ht & Ho & _).
  { rewrite Hl. by left. }
  exists pre, w, post, (Strict.grade e), num. done.
Qed.

Lemma Loose_block_of_accepts el :
  is_Some (Loose.block_of el) <->
  extractGrades (block_text el) <> ∅ \/ has_fraction (block_text el).
Proof.
  set (text := block_text el).
  unfold Loose.block_of. fold text. cbv zeta.
  split.
  - destruct (negb (test true rx_card_hint text)); [by intros [? ?]|].
    simpl. destruct (size (extractGrades text) =? 0)%nat eqn:Hs; simpl.
    + destruct (truthy_opt (extractCardNumberChunk text)) eqn:Hn; simpl; [|by intros [? ?]].
      intros _. right. by apply extractCardNumberChunk_truthy.
    + intros _. left. intros He. apply size_zero_empty in He. congruence.
  - intros Hor.
    assert (Hgate : test true rx_card_hint text = true).
    { destruct Hor as [Hg | Hf]; [|by apply hint_of_fraction].
      destruct (extractGrades_nonempty _ Hg) as (pre & w & post & g & num & Ht & Ho).
      by eapply hint_of_grade. }
    rewrite Hgate. simpl.
    destruct Hor as [Hg | Hf].
    + destruct (size (extractGrades text) =? 0)%nat eqn:Hs; [|done].
      apply size_zero_empty in Hs. done.
    + apply extractCardNumberChunk_truthy in Hf. rewrite Hf. simpl.
      rewrite andb_false_r. done.
Qed.

(** ** From the response back to the blocks *)

Lemma Strict_filter_rows_sublist q rows : Strict.filter_rows q rows `sublist_of` rows.
Proof.
  unfold Strict.filter_rows. rewrite filter_by_name_spec.
  destruct (truthy_opt (q_cardNumber q)).
  - etrans; apply filter_sublist.
  - apply filter_sublist.
Qed.

Lemma sublist_elem_of {A} (l1 l2 : list A) x : l1 `sublist_of` l2 -> x ∈ l1 -> x ∈ l2.
Proof. intros Hs Hx. by eapply elem_of_sublist. Qed.

Lemma Strict_card_from_block Number doc q r :
  r ∈ sw_cards (Strict.handler Number doc q) ->
  exists el b, el ∈ Strict.candidates doc /\ Strict.kept_of el = Some b /\ r = rest b.
Proof.
  unfold Strict.handler, strip_len. simpl. intros Hr.
  apply list_elem_of_fmap in Hr as (b & -> & Hb).
  apply (sublist_elem_of _ _ _ (apply_limit_sublist _ _ _)) in Hb.
  rewrite sort_by_len_perm in Hb.
  apply (sublist_elem_of _ _ _ (Strict_filter_rows_sublist _ _)) in Hb.
  apply (sublist_elem_of _ _ _ (Strict_dedup_sublist _)) in Hb.
  unfold Strict.kept in Hb. apply list_elem_of_omap in Hb as (el & Hel & Hk).
  by exists el, b.
Qed.

Lemma Strict_kept_elem cands b :
  b ∈ Strict.kept cands <-> exists el, el ∈ cands /\ Strict.kept_of el = Some b.
Proof. unfold Strict.kept. apply list_elem_of_omap. Qed.

Lemma Strict_kept_number el b :
  Strict.kept_of el = Some b ->
  exists num, cardNumber (rest b) = Some num /\ card_number_form num.
Proof.
  intros H. destruct (Strict_kept_of_some _ _ H) as (Hc & Hf & _).
  apply extractCardNumberChunk_truthy in Hf.
  destruct (extractCardNumberChunk (block_text el)) as [num|] eqn:He; [|done].
  exists num. split; [done|]. by eapply extractCardNumberChunk_form.
Qed.

(** ** The rows of the structural variant *)

Lemma Structural_row_number el r :
  Structural.row_of el = Some r -> cardNumber r <> Some [].
Proof.
  unfold Structural.row_of. cbv zeta.
  destruct (negb (test true rx_total_marker (block_text el))); [discriminate|].
  destruct (Structural.extractNameAndDetails el) as [n d].
  destruct (negb (truthy n) && negb (truthy d)); [discriminate|].
  intros H. inversion H; subst r; simpl. unfold or_null.
  destruct (truthy_opt _) eqn:Ht; [|done].
  intros He. rewrite He in Ht. done.
Qed.

Lemma Structural_rows_number best r :
  r ∈ Structural.rows_of best -> cardNumber r <> Some [].
Proof.
  unfold Structural.rows_of. intros H.
  apply list_elem_of_omap in H as (el & _ & Hr). by eapply Structural_row_number.
Qed.

(** ** The identity key *)

Lemma app_bar_inj (l1 l2 c1 c2 : jsstring) :
  "|"%char ∉ c1 -> "|"%char ∉ c2 ->
  l1 ++ str "|" ++ c1 = l2 ++ str "|" ++ c2 -> l1 = l2 /\ c1 = c2.
Proof.
  revert l2. induction l1 as [|a l1 IH]; intros l2 H1 H2 H; destruct l2 as [|b l2]; simpl in H.
  - inversion H. done.
  - inversion H; subst. exfalso. apply H1. set_solver.
  - inversion H; subst. exfalso. apply H2. set_solver.
  - inversion H; subst. destruct (IH l2 H1 H2) as [-> ->]; done.
Qed.

Lemma card_number_no_bar s : card_number_form s -> "|"%char ∉ s.
Proof.
  intros (d1 & d2 & -> & [Hd1 _] & [Hd2 _]).
  assert (Hnb : forall d, all_of is_digit d -> "|"%char ∉ d).
  { intros d Hd Hin. unfold all_of in Hd. rewrite Forall_forall in Hd.
    specialize (Hd _ Hin). done. }
  rewrite !elem_of_app. intros [H | [H | H]].
  - by apply (Hnb d1).
  - apply list_elem_of_singleton in H. done.
  - by apply (Hnb d2).
Qed.

Lemma Loose_block_number el b :
  Loose.block_of el = Some b ->
  cardNumber (rest b) = None
  \/ exists num, cardNumber (rest b) = Some num /\ card_number_form num.
Proof.
  unfold Loose.block_of. cbv zeta.
  destruct (negb (test true rx_card_hint (block_text el))); [discriminate|].
  destruct (_ && _); [discriminate|].
  intros H. inversion H; subst b; simpl. unfold or_null.
  destruct (truthy_opt _) eqn:Ht; [|by left].
  destruct (extractCardNumberChunk (block_text el)) as [num|] eqn:He; [|by left].
  right. exists num. split; [done|]. by eapply extractCardNumberChunk_form.
Qed.

(** For the blocks that the sweeps build, two keys are equal exactly when
    the lower-case names and the card numbers are. *)
Lemma Loose_key_eq b1 b2 :
  (cardNumber (rest b1) = None
   \/ exists num, cardNumber (rest b1) = Some num /\ card_number_form num) ->
  (cardNumber (rest b2) = None
   \/ exists num, cardNumber (rest b2) = Some num /\ card_number_form num) ->
  Loose.key_of b1 = Loose.key_of b2 <->
  toLowerCase (name (rest b1)) = toLowerCase (name (rest b2))
  /\ cardNumber (rest b1) = cardNumber (rest b2).
Proof.
  intros H1 H2. unfold Loose.key_of. rewrite !or_else_nil. split.
  - intros H. apply app_bar_inj in H as [Hn Hc].
    + split; [done|].
      destruct H1 as [E1 | (n1 & E1 & F1)], H2 as [E2 | (n2 & E2 & F2)];
        rewrite E1, E2 in *; unfold or_opt in Hc; simpl in Hc.
      * done.
      * apply card_number_form_nonempty in F2. destruct n2; [done|]. done.
      * apply card_number_form_nonempty in F1. destruct n1; [done|]. done.
      * apply card_number_form_nonempty in F1, F2.
        destruct n1; [done|]. destruct n2; [done|]. simpl in Hc. by rewrite Hc.
    + destruct H1 as [E1 | (n1 & E1 & F1)]; rewrite E1; unfold or_opt; simpl.
      * apply not_elem_of_nil.
      * pose proof (card_number_form_nonempty _ F1). destruct n1; [done|].
        by apply card_number_no_bar.
    + destruct H2 as [E2 | (n2 & E2 & F2)]; rewrite E2; unfold or_opt; simpl.
      * apply not_elem_of_nil.
      * pose proof (card_number_form_nonempty _ F2). destruct n2; [done|].
        by apply card_number_no_bar.
  - intros [-> ->]. done.
Qed.

Lemma Strict_key_eq b1 b2 :
  (exists num, cardNumber (rest b1) = Some num /\ card_number_form num) ->
  (exists num, cardNumber (rest b2) = Some num /\ card_number_form num) ->
  Strict.key_of b1 = Strict.key_of b2 <->
  toLowerCase (name (rest b1)) = toLowerCase (name (rest b2))
  /\ cardNumber (rest b1) = cardNumber (rest b2).
Proof.
  intros (n1 & E1 & F1) (n2 & E2 & F2). unfold Strict.key_of.
  rewrite !or_else_nil, E1, E2. simpl. split.
  - intros H. apply app_bar_inj in H as [Hn Hc]; [by subst | |];
      by apply card_number_no_bar.
  - intros [-> H]. by inversion H.
Qed.

(** * The claims of the specification *)

(** C6, as the code has it.  The numeric normalizer [cleanNum] drops every
    character that is not a digit, commas included, and hands what is left
    to [Number]; it answers [null] exactly when the input has no digit, the
    empty string included.  The answer is the value of the digits in base
    ten whenever that is at most 2^53, and the double nearest to it beyond:
    a natural number or [Infinity].  It is a total function, so no input
    makes it throw.  "13,782" gives 13782 and "" gives [null]. *)
Theorem cleanNum_strips_and_parses (s : jsstring) :
  (cleanNum s = None <-> Forall (fun a => is_digit a = false) s)
  /\ (forall v, cleanNum s = Some v <->
                keep_digits s <> [] /\ v = to_double (decimal (keep_digits s)))
  /\ (keep_digits s <> [] -> decimal (keep_digits s) <= 2 ^ 53 ->
      cleanNum s = Some (Fin (inject_Z (decimal (keep_digits s)))))
  /\ (forall v, cleanNum s = Some v -> 2 ^ 53 <= decimal (keep_digits s) ->
        nearest_double (decimal (keep_digits s)) v)
  /\ (forall v, cleanNum s = Some v -> count_value v)
  /\ (forall t, cleanNum (s ++ str "," ++ t) = cleanNum (s ++ t))
  /\ cleanNum (str "13,782") = Some (Fin 13782)
  /\ cleanNum (str "") = None.
Proof.
  split_and!.
  - rewrite cleanNum_eq, <- keep_digits_nil. by destruct (decide _).
  - intros v. rewrite cleanNum_eq. destruct (decide _) as [He|Hne].
    + split; [done | by intros [? _]].
    + split; [intros H; by inversion H | by intros [_ ->]].
  - intros Hne Hle. rewrite cleanNum_eq, decide_False by done.
    by rewrite to_double_exact.
  - intros v. rewrite cleanNum_eq. destruct (decide _); [done|].
    intros H Hn. inversion H. by apply to_double_nearest.
  - intros v. apply cleanNum_count.
  - intros t. rewrite !cleanNum_eq. unfold keep_digits.
    by rewrite !List.filter_app.
  - reflexivity.
  - reflexivity.
Qed.

(** C6, as stated, fails past 2^53: the digits of "9007199254740993" are
    not the value that [cleanNum] answers, which is the double next to it. *)
Lemma cleanNum_rounds_past_2_53 :
  decimal (keep_digits (str "9007199254740993")) = 9007199254740993
  /\ cleanNum (str "9007199254740993") = Some (Fin 9007199254740992)
  /\ cleanNum (str "9007199254740993") <> Some (Fin 9007199254740993).
Proof. split_and!; [reflexivity | reflexivity | vm_compute; discriminate]. Qed.

(** C7.  The card-number extractor answers [null] exactly when the text has
    no fraction token (one to four digits, a slash, one to four digits,
    white space allowed around the slash); otherwise its answer is the first
    fraction of the text and nothing else: the token that starts at the
    leftmost place where a fraction stands and whose denominator takes every
    digit that follows, up to four, with its white space removed.  The
    answer is digits, slash, digits, and extraction from it gives it back. *)
Theorem extractCardNumberChunk_first_token (text : jsstring) :
  (extractCardNumberChunk text = None <-> ~ has_fraction text)
  /\ (forall out, extractCardNumberChunk text = Some out <-> first_fraction text out)
  /\ (forall out, extractCardNumberChunk text = Some out ->
        card_number_form out /\ extractCardNumberChunk out = Some out)
  /\ extractCardNumberChunk (str "215/203") = Some (str "215/203")
  /\ extractCardNumberChunk (str "215 / 203 extra text") = Some (str "215/203")
  /\ extractCardNumberChunk (str "12/1025") = Some (str "12/1025")
  /\ extractCardNumberChunk (str "12345/67890") = Some (str "2345/6789").
Proof.
  split_and!.
  - apply extractCardNumberChunk_none.
  - intros out. apply extractCardNumberChunk_iff.
  - intros out H. pose proof (extractCardNumberChunk_form _ _ H) as Hform.
    split; [done | by apply extractCardNumberChunk_normal].
  - reflexivity.
  - reflexivity.
  - reflexivity.
  - reflexivity.
Qed.

(** C4, as the code has it.  The broad sweeps ([src/unnamed/part_003] and
    the first file of [src/unnamed/part_002]) look for "Population" followed
    by a number, with "Total" before it or not; [src/api/scrapeSet.js] and
    the second and third file of [src/unnamed/part_002] ask for "Total".
    Each answers [null] when the text has no phrase of its kind.  Otherwise
    it reads one number and no other: that of the phrase that starts
    leftmost, with every digit and comma that follows taken; its answer is
    what [cleanNum] makes of that number, so [null] if it is commas only.
    "Population 123" gives 123 in the former and [null] in the latter. *)
Theorem extractTotal_by_variant (text : jsstring) :
  ((forall pre num, ~ phrase_at population_phrase text pre num) ->
     extractTotal_optional text = None)
  /\ ((exists pre num, phrase_at population_phrase text pre num) ->
      exists num, first_population text num)
  /\ (forall num, first_population text num ->
        extractTotal_optional text = cleanNum num)
  /\ ((forall pre num, ~ phrase_at total_population_phrase text pre num) ->
      Structural.extractTotal text = None)
  /\ ((exists pre num, phrase_at total_population_phrase text pre num) ->
      exists num, first_total_population text num)
  /\ (forall num, first_total_population text num ->
        Structural.extractTotal text = cleanNum num)
  /\ extractTotal_optional (str "Population 123") = Some (Fin 123)
  /\ extractTotal_optional (str "Population 12") = Some (Fin 12)
  /\ extractTotal_optional (str "Total Population 18,361") = Some (Fin 18361)
  /\ extractTotal_optional (str "Population ,") = None
  /\ Structural.extractTotal (str "Population 123") = None
  /\ Structural.extractTotal (str "Total Population 18,361") = Some (Fin 18361).
Proof.
  split_and!.
  - apply extractTotal_optional_none.
  - intros H. destruct (extractTotal_optional_exists _ H) as (num & Hf & _). by exists num.
  - apply extractTotal_optional_first.
  - apply Structural_extractTotal_none.
  - intros H. destruct (Structural_extractTotal_exists _ H) as (num & Hf & _). by exists num.
  - apply Structural_extractTotal_first.
  - reflexivity.
  - reflexivity.
  - reflexivity.
  - reflexivity.
  - reflexivity.
  - reflexivity.
Qed.

(** C4, as stated, fails on [src/api/scrapeSet.js]: "Population 123" has no
    "Total", and the extractor of that file answers [null], not 123. *)
Lemma extractTotal_needs_Total :
  Structural.extractTotal (str "Population 123") <> Some (Fin 123).
Proof. vm_compute. discriminate. Qed.

(** C2, as the code has it.  The mapping-only extractor ([extractGrades],
    and [extractGradesMap], which is the same function) has, for every grade
    [g], the value of the LAST occurrence "PSA g v" whose value has a digit,
    and no entry for [g] when there is none; every entry comes from such an
    occurrence.  The occurrences are those of the text from left to right,
    and the text has one list of them: each is read at the leftmost place
    where one stands after the one before, its count takes every digit and
    comma that stands there and is read by [cleanNum], and its grade takes
    two digits unless no count could follow them.  The loops that collect
    them end by themselves, whatever bound above the length of the text
    they are given. *)
Theorem extractGrades_last_occurrence (text : jsstring) :
  extractGrades text = Strict.extractGradesMap text
  /\ (forall l, Occurrences text l <-> l = Strict.findGrades text)
  /\ (forall fuel, (length text < fuel)%nat ->
        Strict.findGrades_loop fuel [] text = Strict.findGrades text
        /\ extractGrades_loop fuel [] text ∅ = extractGrades text)
  /\ (forall g, extractGrades text !! grade_key g
                = last_parsed g (Strict.findGrades text))
  /\ (forall k v, extractGrades text !! k = Some v ->
        exists e, e ∈ Strict.findGrades text
                  /\ k = grade_key (Strict.grade e) /\ Strict.value e = Some v)
  /\ map_to_list (extractGrades (str "PSA 10 13,782 PSA9 1,204"))
     ≡ₚ [(str "PSA 10", Fin 13782); (str "PSA 9", Fin 1204)]
  /\ Strict.findGrades (str "PSA 10 13,782")
     = [Strict.GradeEntry (str "10") (Some (Fin 13782))]
  /\ Strict.findGrades (str "PSA 10") = [Strict.GradeEntry (str "1") (Some (Fin 0))].
Proof.
  assert (Hocc : Occurrences text (Strict.findGrades text))
    by (by apply (findGrades_loop_occurrences (length text))).
  split_and!.
  - apply extractGrades_is_map.
  - intros l. split; [|by intros ->].
    intros Hl. by apply (Occurrences_unique _ _ Hl).
  - intros fuel Hf. split; [|by apply extractGrades_loop_fuel].
    apply findGrades_loop_fuel; lia.
  - intros g. rewrite extractGrades_is_map. unfold Strict.extractGradesMap.
    rewrite fold_grades_lookup. by destruct (last_parsed _ _).
  - intros k v. rewrite extractGrades_is_map. unfold Strict.extractGradesMap.
    intros H. by destruct (fold_grades_key _ _ _ _ H) as [Hempty | He].
  - vm_compute. apply Permutation_swap.
  - reflexivity.
  - reflexivity.
Qed.

(** C2, as stated, fails: of two occurrences of grade 10 the mapping keeps
    the value of the second, 7, not that of the first, 5. *)
Lemma extractGrades_keeps_last :
  Strict.findGrades (str "PSA 10 5 PSA 10 7")
    = [Strict.GradeEntry (str "10") (Some (Fin 5)); Strict.GradeEntry (str "10") (Some (Fin 7))]
  /\ extractGrades (str "PSA 10 5 PSA 10 7") !! str "PSA 10" = Some (Fin 7)
  /\ Strict.extractGradesMap (str "PSA 10 5 PSA 10 7") !! str "PSA 10" <> Some (Fin 5).
Proof. split_and!; vm_compute; done. Qed.

(** C1, as the code has it.  The record assembler of the strict broad sweep
    accepts a block exactly when its text has a card-number fraction, three
    distinct grades among its occurrences "PSA g v", and a grade mapping that
    is not empty; a block that lacks one of the three is discarded.  The
    assembler of the loose broad sweep accepts a block exactly when its
    grade mapping is not empty or its text has a card-number fraction. *)
Theorem broad_sweep_acceptance (el : node) :
  (is_Some (Strict.kept_of el) <->
     has_fraction (block_text el)
     /\ (exists g1 g2 g3,
            g1 ∈ Strict.grade <$> Strict.findGrades (block_text el)
            /\ g2 ∈ Strict.grade <$> Strict.findGrades (block_text el)
            /\ g3 ∈ Strict.grade <$> Strict.findGrades (block_text el)
            /\ g1 <> g2 /\ g1 <> g3 /\ g2 <> g3)
     /\ Strict.extractGradesMap (block_text el) <> ∅)
  /\ (is_Some (Loose.block_of el) <->
        extractGrades (block_text el) <> ∅ \/ has_fraction (block_text el)).
Proof.
  split.
  - rewrite Strict_kept_of_accepts. unfold Strict.distinctGrades.
    by rewrite three_distinct.
  - apply Loose_block_of_accepts.
Qed.

(** C1, as stated, fails on [src/unnamed/part_003]: a block whose text has a
    card-number fraction and no grade at all is accepted there. *)
Lemma loose_sweep_keeps_number_only_block :
  has_fraction (block_text number_only_block)
  /\ Strict.distinctGrades (Strict.findGrades (block_text number_only_block)) = 0%nat
  /\ size (extractGrades (block_text number_only_block)) = 0%nat
  /\ is_Some (Loose.block_of number_only_block).
Proof.
  split_and!.
  - apply extractCardNumberChunk_truthy. reflexivity.
  - reflexivity.
  - reflexivity.
  - apply Loose_block_of_accepts. right.
    apply extractCardNumberChunk_truthy. reflexivity.
Qed.

(** C3.  Deduplication goes through the records in selection order and
    keeps a record unless an earlier one has the same identity key, the
    lower-case name and the card number joined by a bar; in the loose sweep
    the key of a record with neither name nor number is the bar alone and
    never counts as seen, so every such record is kept; in the strict sweep
    every record has a card number, so that key does not occur. *)
Theorem dedup_keeps_first_per_key :
  Loose.dedup [] = []
  /\ (forall bs b,
        Loose.dedup (bs ++ [b]) =
        if decide (Loose.key_of b ∈ Loose.key_of <$> bs /\ Loose.key_of b <> str "|")
        then Loose.dedup bs else Loose.dedup bs ++ [b])
  /\ (forall b, Loose.key_of b = str "|" <->
                name (rest b) = []
                /\ (cardNumber (rest b) = None \/ cardNumber (rest b) = Some []))
  /\ (forall b1 b2,
        Loose.key_of b1 = Loose.key_of b2 -> Loose.key_of b1 <> str "|" ->
        Loose.dedup [b1; b2] = [b1])
  /\ (forall b1 b2,
        Loose.key_of b1 = str "|" -> Loose.key_of b2 = str "|" ->
        Loose.dedup [b1; b2] = [b1; b2])
  /\ (forall cands b1 b2,
        b1 ∈ Loose.blocks_of cands -> b2 ∈ Loose.blocks_of cands ->
        (Loose.key_of b1 = Loose.key_of b2 <->
         toLowerCase (name (rest b1)) = toLowerCase (name (rest b2))
         /\ cardNumber (rest b1) = cardNumber (rest b2)))
  /\ Strict.dedup [] = []
  /\ (forall bs b,
        Strict.dedup (bs ++ [b]) =
        if decide (Strict.key_of b ∈ Strict.key_of <$> bs)
        then Strict.dedup bs else Strict.dedup bs ++ [b])
  /\ (forall cands b, b ∈ Strict.kept cands -> Strict.key_of b <> str "|")
  /\ (forall cands b1 b2,
        b1 ∈ Strict.kept cands -> b2 ∈ Strict.kept cands ->
        (Strict.key_of b1 = Strict.key_of b2 <->
         toLowerCase (name (rest b1)) = toLowerCase (name (rest b2))
         /\ cardNumber (rest b1) = cardNumber (rest b2))).
Proof.
  split_and!.
  - reflexivity.
  - intros bs b. rewrite Loose_dedup_snoc.
    destruct (decide _) as [[Hin Hne]|Hn].
    + rewrite bool_decide_eq_true_2 by done.
      destruct (jsstring_eqb _ _) eqn:He; [by apply jsstring_eqb_eq in He|].
      simpl. by rewrite app_nil_r.
    + destruct (bool_decide _) eqn:Hb; [|done].
      apply bool_decide_eq_true in Hb.
      destruct (jsstring_eqb _ _) eqn:He; [done|]. simpl.
      exfalso. apply Hn. split; [done|]. intros Hk.
      apply jsstring_eqb_eq in Hk. congruence.
  - apply Loose_key_bar.
  - intros b1 b2 Hk Hne. change [b1; b2] with ([b1] ++ [b2]).
    rewrite Loose_dedup_snoc. simpl. rewrite bool_decide_eq_true_2 by (rewrite Hk; by left).
    destruct (jsstring_eqb _ _) eqn:He; [|done].
    apply jsstring_eqb_eq in He. rewrite <- Hk in He. done.
  - intros b1 b2 H1 H2. change [b1; b2] with ([b1] ++ [b2]).
    rewrite Loose_dedup_snoc, H2. simpl. by rewrite andb_false_r.
  - intros cands b1 b2 H1 H2.
    apply list_elem_of_omap in H1 as (e1 & _ & H1), H2 as (e2 & _ & H2).
    apply Loose_key_eq; by eapply Loose_block_number.
  - reflexivity.
  - intros bs b. rewrite Strict_dedup_snoc.
    destruct (decide _) as [Hin|Hn].
    + rewrite bool_decide_eq_true_2 by done. by rewrite app_nil_r.
    + by rewrite bool_decide_eq_false_2.
  - intros cands b Hb. apply Strict_kept_elem in Hb as (el & _ & Hk).
    apply Strict_key_not_bar. destruct (Strict_kept_number _ _ Hk) as (num & Hn & Hf).
    exists num. split; [done|]. by apply card_number_form_nonempty.
  - intros cands b1 b2 H1 H2.
    apply Strict_kept_elem in H1 as (e1 & _ & H1), H2 as (e2 & _ & H2).
    apply Strict_key_eq; by eapply Strict_kept_number.
Qed.

(** C5.  The structural block selector runs every query of its list and
    ends with the result of greatest size, the first of that size when
    several queries find as many; the first query that finds something does
    not stop it.  Only when every query finds nothing does it fall back to
    the [div] nodes whose lower-cased text holds "total population". *)
Theorem select_blocks_greatest_count (sels : list jsstring) (doc : document) :
  ((exists sel, sel ∈ sels /\ doc sel <> []) ->
     exists l1 sel l2,
       sels = l1 ++ sel :: l2
       /\ Structural.select_blocks sels doc = (Some sel, doc sel)
       /\ (forall s, s ∈ sels -> (length (doc s) <= length (doc sel))%nat)
       /\ (forall s, s ∈ l1 -> (length (doc s) < length (doc sel))%nat))
  /\ ((forall sel, sel ∈ sels -> doc sel = []) ->
      Structural.select_blocks sels doc
      = (Some Structural.heuristic_selector, Structural.fallback_candidates doc))
  /\ (forall el, el ∈ Structural.fallback_candidates doc <->
        el ∈ doc (str "div")
        /\ exists pre post,
             toLowerCase (node_text el) = pre ++ str "total population" ++ post)
  /\ Structural.select_blocks Structural.CANDIDATE_CARD_SELECTORS two_articles
     = (Some (str "article"), [card_node; card_node]).
Proof.
  unfold Structural.select_blocks.
  destruct (select_best_inv doc sels) as [Hmax Hshape]. cbv zeta in Hmax, Hshape.
  split_and!.
  - intros (sel & Hin & Hne).
    destruct Hshape as [Hst | (l1 & s0 & l2 & Hs & Hst & Hpos & Hfirst)].
    + specialize (Hmax _ Hin). rewrite Hst in Hmax. simpl in Hmax.
      destruct (doc sel); [done | simpl in Hmax; lia].
    + exists l1, s0, l2. rewrite Hst in *. simpl in *.
      destruct (length (doc s0) =? 0)%nat eqn:Hz; [apply Nat.eqb_eq in Hz; lia|].
      done.
  - intros Hall.
    destruct Hshape as [Hst | (l1 & s0 & l2 & Hs & Hst & Hpos & Hfirst)].
    + by rewrite Hst.
    + rewrite (Hall s0) in Hpos; [simpl in Hpos; lia|].
      rewrite Hs. apply elem_of_app. right. by left.
  - intros el. unfold Structural.fallback_candidates.
    by rewrite filter_elem_of, includes_spec.
  - reflexivity.
Qed.

Lemma apply_limit_given {A} Number s (l : list A) :
  s <> [] ->
  apply_limit Number (Some s) l =
  match clamp_count (Number s) with Some n => take n l | None => l end.
Proof. intros Hs. rewrite apply_limit_spec. by destruct s. Qed.

(** C8, as the code has it.  Without a limit (the parameter absent or
    empty) the filtered list is returned whole.  With a limit whose numeric
    value is [v], the list is cut to its first [n] records, where [n] is [v]
    brought into the range from 1 to 200; the order is kept.  A limit of 0
    does what a limit of 1 does, and a limit of 500 what a limit of 200
    does.  A limit that is present and is not a number is not clamped: the
    code tests [lim], which is [NaN], before it slices, and the list goes
    out whole. *)
Theorem limit_is_clamped {A : Type} (Number : jsstring -> jsnum)
    (limit : option jsstring) (filtered : list A) :
  (truthy_opt limit = false -> apply_limit Number limit filtered = filtered)
  /\ (truthy_opt limit = true ->
      forall n, clamp_count (Number (String_of limit)) = Some n ->
        (1 <= n <= 200)%nat /\ apply_limit Number limit filtered = take n filtered)
  /\ (truthy_opt limit = true ->
      Number (String_of limit) <> NaN ->
      exists n, clamp_count (Number (String_of limit)) = Some n)
  /\ (truthy_opt limit = true ->
      Number (String_of limit) = NaN -> apply_limit Number limit filtered = filtered)
  /\ (Number (str "0") = Fin 0 -> Number (str "1") = Fin 1 ->
      apply_limit Number (Some (str "0")) filtered = take 1 filtered
      /\ apply_limit Number (Some (str "0")) filtered
         = apply_limit Number (Some (str "1")) filtered)
  /\ (Number (str "500") = Fin 500 -> Number (str "200") = Fin 200 ->
      apply_limit Number (Some (str "500")) filtered = take 200 filtered
      /\ apply_limit Number (Some (str "500")) filtered
         = apply_limit Number (Some (str "200")) filtered).
Proof.
  split_and!.
  - intros H. rewrite apply_limit_spec. by rewrite H.
  - intros H n Hn. rewrite apply_limit_spec, H, Hn.
    split; [by eapply clamp_count_range | done].
  - intros _ Hv. destruct (Number (String_of limit)); simpl; by eauto.
  - intros H Hv. rewrite apply_limit_spec, H, Hv. done.
  - intros H0 H1. rewrite !apply_limit_given, H0, H1 by done. done.
  - intros H500 H200. rewrite !apply_limit_given, H500, H200 by done. done.
Qed.

Lemma limit_is_clamped_witness :
  apply_limit Number_decimal (Some (str "0")) [10; 20; 30] = [10]
  /\ apply_limit Number_decimal (Some (str "0")) [10; 20; 30]
     = apply_limit Number_decimal (Some (str "1")) [10; 20; 30].
Proof.
  destruct (limit_is_clamped Number_decimal (Some (str "0")) [10; 20; 30])
    as (_ & _ & _ & _ & H & _).
  apply H; reflexivity.
Defined.

(** C8, as stated, fails for a limit that is present and is not a number.
    [Number("abc")] is [NaN], [Math.min] and [Math.max] keep it, [lim] is
    falsy, and the list goes out whole: 201 records here, where the claim
    promises at most 200. *)
Lemma limit_not_a_number_is_no_limit :
  (forall (Number : jsstring -> jsnum) (filtered : list nat),
     Number (str "abc") = NaN ->
     apply_limit Number (Some (str "abc")) filtered = filtered)
  /\ Number_decimal (str "abc") = NaN
  /\ length (apply_limit Number_decimal (Some (str "abc")) (seq 0 201)) = 201%nat.
Proof.
  split_and!.
  - intros Number filtered H. by rewrite apply_limit_given, H.
  - reflexivity.
  - reflexivity.
Qed.

(** C9.  On records whose card number is absent or not empty, the two
    filters together keep, in their order, exactly the records that pass
    every filter that is given: a name query asks that the name or the
    details hold it with case ignored, a number query that the card number
    without white space be the query without white space; a filter whose
    parameter is absent or empty keeps everything. *)
Theorem filters_compose_by_and (q : query) (rows : list CardRecord) :
  Forall (fun r => cardNumber r <> Some []) rows ->
  Structural.filter_rows q rows `sublist_of` rows
  /\ (forall r, r ∈ Structural.filter_rows q rows <->
        r ∈ rows
        /\ (forall nq, pokemonName q = Some nq -> nq <> [] ->
              contains_ignoring_case (name r) nq
              \/ contains_ignoring_case (details r) nq)
        /\ (forall cq, q_cardNumber q = Some cq -> cq <> [] ->
              exists c, cardNumber r = Some c
                        /\ remove_spaces c = remove_spaces cq))
  /\ Structural.filter_rows (Query (Some (str "pika")) None None) [pikachu; raichu]
     = [pikachu]
  /\ Structural.filter_rows (Query None (Some (str "5/102")) None) [pikachu; raichu]
     = [raichu]
  /\ Structural.filter_rows (Query (Some (str "pika")) (Some (str "5/102")) None)
       [pikachu; raichu] = [].
Proof.
  intros Hrows. rewrite Forall_forall in Hrows. unfold Structural.filter_rows.
  rewrite filter_by_name_spec, filter_by_number_spec, filter_filter_and.
  split_and!; [apply filter_sublist | | reflexivity | reflexivity | reflexivity].
  intros r. rewrite filter_elem_of. unfold id.
  split.
  - intros [Hin Hb]. apply andb_true_iff in Hb as [Hn Hc]. split_and!; [done | |].
    + intros nq Hq Hne. rewrite Hq in Hn. destruct nq as [|a nq]; [done|].
      change (name_matches (toLowerCase (a :: nq)) r = true) in Hn.
      by apply name_matches_spec in Hn.
    + intros cq Hq Hne. rewrite Hq in Hc. destruct cq as [|a cq]; [done|].
      change (number_matches (remove_spaces (a :: cq)) r = true) in Hc.
      apply number_matches_spec in Hc; [done | by apply Hrows].
  - intros (Hin & Hn & Hc). split; [done|]. apply andb_true_iff. split.
    + destruct (pokemonName q) as [[|a nq]|] eqn:Hq; [done | | done].
      change (name_matches (toLowerCase (a :: nq)) r = true).
      apply name_matches_spec; [done|]. by apply Hn.
    + destruct (q_cardNumber q) as [[|a cq]|] eqn:Hq; [done | | done].
      change (number_matches (remove_spaces (a :: cq)) r = true).
      apply number_matches_spec; [by apply Hrows|]. by apply Hc.
Qed.

Lemma filters_compose_by_and_witness :
  Structural.filter_rows (Query (Some (str "pika")) (Some (str "5/102")) None)
    [pikachu; raichu] = [].
Proof.
  apply (filters_compose_by_and
           (Query (Some (str "pika")) (Some (str "5/102")) None) [pikachu; raichu]).
  repeat constructor; discriminate.
Defined.

(** C10.  Every record in the [cards] of the strict variant has a card
    number of the form digits, slash, digits, and a grade mapping that is not
    empty; the records of the response are the blocks without their [_len],
    so each has the five fields of a card record and nothing else.  The
    loose variant strips [_len] in the same way. *)
Theorem strict_cards_are_well_formed (Number : jsstring -> jsnum)
    (doc : document) (q : query) :
  (forall r, r ∈ sw_cards (Strict.handler Number doc q) ->
     (exists num, cardNumber r = Some num /\ card_number_form num)
     /\ grades r <> ∅)
  /\ (exists out : list block,
        sw_cards (Strict.handler Number doc q) = rest <$> out
        /\ sw_returned (Strict.handler Number doc q) = length out
        /\ out `sublist_of`
             sort_by_len (Strict.filter_rows q
                            (Strict.dedup (Strict.kept (Strict.candidates doc)))))
  /\ (exists out : list block,
        sw_cards (Loose.handler Number doc q) = rest <$> out
        /\ sw_returned (Loose.handler Number doc q) = length out
        /\ out `sublist_of`
             sort_by_len (Loose.filter_rows q
                            (Loose.dedup (Loose.blocks_of (Loose.candidates doc))))).
Proof.
  split_and!.
  - intros r Hr. apply Strict_card_from_block in Hr as (el & b & _ & Hk & ->).
    split; [by eapply Strict_kept_number|].
    by destruct (Strict_kept_of_some _ _ Hk) as (_ & _ & _ & _ & Hne & _).
  - eexists. split_and!; [reflexivity | reflexivity | apply apply_limit_sublist].
  - eexists. split_and!; [reflexivity | reflexivity | apply apply_limit_sublist].
Qed.

(** * Further properties of the code *)

(** ** Normalized text *)

Lemma collapse_plain b s : plain_spaces (collapse_spaces_from b s).
Proof.
  revert b. induction s as [|a s IH]; intros b; simpl; [constructor|].
  destruct (is_space a) eqn:Ha.
  - destruct b; [apply IH|]. constructor; [done | apply IH].
  - constructor; [congruence | apply IH].
Qed.

Lemma collapse_single b s :
  single_spaced (collapse_spaces_from b s)
  /\ (b = true -> starts_with_space (collapse_spaces_from b s) = false).
Proof.
  revert b. induction s as [|a s IH]; intros b; simpl; [done|].
  destruct (is_space a) eqn:Ha.
  - destruct b.
    + apply IH.
    + destruct (IH true) as [Hs Hh]. split; [|done].
      simpl. split; [|done]. intros _. by apply Hh.
  - destruct (IH false) as [Hs _]. split.
    + simpl. split; [congruence | done].
    + intros _. simpl. done.
Qed.

Lemma collapse_keeps_words b s :
  remove_spaces (collapse_spaces_from b s) = remove_spaces s.
Proof.
  revert b. unfold remove_spaces.
  induction s as [|a s IH]; intros b; simpl; [done|].
  destruct (is_space a) eqn:Ha; simpl.
  - destruct b; simpl; apply IH.
  - rewrite Ha. simpl. by rewrite IH.
Qed.

Lemma drop_spaces_split s :
  exists x, s = x ++ drop_spaces s /\ all_of is_space x
            /\ starts_with_space (drop_spaces s) = false.
Proof.
  induction s as [|a s (x & Hs & Hx & Hh)]; simpl.
  - exists []. split_and!; [done | constructor | done].
  - destruct (is_space a) eqn:Ha.
    + exists (a :: x). split_and!; [by rewrite Hs at 1 | by constructor | done].
    + exists []. split_and!; [done | constructor | simpl; done].
Qed.

Lemma drop_spaces_id s : starts_with_space s = false -> drop_spaces s = s.
Proof. destruct s as [|a s]; simpl; [done|]. by intros ->. Qed.

Lemma starts_with_space_app x s :
  x <> [] -> starts_with_space (x ++ s) = starts_with_space x.
Proof. by destruct x. Qed.

(** [trim] cuts white space off both ends and nothing else. *)
Lemma trim_split s :
  exists x y, s = x ++ trim s ++ y /\ all_of is_space x /\ all_of is_space y
              /\ starts_with_space (trim s) = false
              /\ ends_with_space (trim s) = false.
Proof.
  unfold trim, ends_with_space.
  destruct (drop_spaces_split s) as (x & Hs & Hx & Hh).
  destruct (drop_spaces_split (rev (drop_spaces s))) as (y & Hr & Hy & Hh').
  set (s1 := drop_spaces s) in *. set (d := drop_spaces (rev s1)) in *.
  assert (Hs1 : s1 = rev d ++ rev y).
  { rewrite <- (rev_involutive s1), Hr, rev_app_distr. done. }
  exists x, (rev y). split_and!.
  - by rewrite <- Hs1.
  - done.
  - unfold all_of. rewrite Forall_forall. intros a Ha.
    apply list_elem_of_In, List.in_rev, list_elem_of_In in Ha. unfold all_of in Hy. rewrite Forall_forall in Hy. by apply Hy.
  - destruct (rev d) as [|a r] eqn:Hd; [done|].
    rewrite Hs1 in Hh. simpl in *. done.
  - by rewrite rev_involutive.
Qed.

Lemma trim_id s :
  starts_with_space s = false -> ends_with_space s = false -> trim s = s.
Proof.
  intros H1 H2. unfold trim. rewrite (drop_spaces_id s H1).
  unfold ends_with_space in H2. rewrite (drop_spaces_id _ H2).
  apply rev_involutive.
Qed.

Lemma plain_spaces_app x s y :
  plain_spaces (x ++ s ++ y) -> plain_spaces s.
Proof.
  unfold plain_spaces. rewrite !Forall_app. by intros (_ & H & _).
Qed.

Lemma single_spaced_app_r x s : single_spaced (x ++ s) -> single_spaced s.
Proof. induction x as [|a x IH]; simpl; [done|]. intros [_ H]. by apply IH. Qed.

Lemma single_spaced_app_l s y : single_spaced (s ++ y) -> single_spaced s.
Proof.
  induction s as [|a s IH]; simpl; [done|]. intros [Ha H]. split; [|by apply IH].
  intros Hsp. specialize (Ha Hsp). destruct s; [done|]. done.
Qed.

Lemma remove_spaces_all_space x : all_of is_space x -> remove_spaces x = [].
Proof.
  unfold remove_spaces. induction 1 as [|a x Ha _ IH]; simpl; [done|]. by rewrite Ha.
Qed.

Lemma trim_keeps_words s : remove_spaces (trim s) = remove_spaces s.
Proof.
  destruct (trim_split s) as (x & y & Hs & Hx & Hy & _).
  rewrite Hs at 2. unfold remove_spaces at 2. rewrite !List.filter_app.
  fold (remove_spaces x). fold (remove_spaces y). fold (remove_spaces (trim s)).
  by rewrite (remove_spaces_all_space x), (remove_spaces_all_space y), app_nil_r.
Qed.

Lemma normalize_normalized s : normalized (trim (collapse_spaces s)).
Proof.
  destruct (trim_split (collapse_spaces s)) as (x & y & Hs & Hx & Hy & Hh & Hl).
  pose proof (collapse_plain false s) as Hp.
  destruct (collapse_single false s) as [Hsg _].
  fold (collapse_spaces s) in Hp, Hsg. rewrite Hs in Hp, Hsg.
  split_and!; try done.
  - by eapply plain_spaces_app.
  - eapply single_spaced_app_l, single_spaced_app_r. exact Hsg.
Qed.

Lemma collapse_id b s :
  plain_spaces s -> single_spaced s -> (b = true -> starts_with_space s = false) ->
  collapse_spaces_from b s = s.
Proof.
  intros Hp. revert b. induction Hp as [|a s Ha _ IH]; intros b Hs Hb; simpl; [done|].
  destruct Hs as [Hn Hs]. destruct (is_space a) eqn:Hsp.
  - destruct b; [simpl in Hb; rewrite Hb in Hsp by done; done|].
    rewrite (Ha eq_refl). f_equal. apply IH; [done|]. intros _. by apply Hn.
  - f_equal. by apply IH.
Qed.

Lemma normalize_id s : normalized s -> trim (collapse_spaces s) = s.
Proof.
  intros (Hp & Hs & Hh & Hl). unfold collapse_spaces.
  rewrite collapse_id by done. by apply trim_id.
Qed.

(** X1.  The text handed to the extractors,
    [$el.text().replace(/\s+/g, " ").trim()], is in normal form whatever
    the text of the node: its only white space is single plain spaces
    between other characters.  Normalizing keeps the other characters and
    their order, and leaves a text already in normal form as it is. *)
Theorem block_text_is_normalized (el : node) :
  normalized (block_text el)
  /\ remove_spaces (block_text el) = remove_spaces (node_text el)
  /\ (forall s, normalized s -> trim (collapse_spaces s) = s).
Proof.
  unfold block_text. split_and!.
  - apply normalize_normalized.
  - rewrite trim_keeps_words. apply collapse_keeps_words.
  - apply normalize_id.
Qed.

(** ** The shape of the records *)

Lemma trim_trim s : trim (trim s) = trim s.
Proof.
  destruct (trim_split s) as (_ & _ & _ & _ & _ & Hh & Hl). by apply trim_id.
Qed.

Lemma or_else_trimmed a b : trim a = a -> trim b = b -> trim (or_else a b) = or_else a b.
Proof. unfold or_else. by destruct (truthy a). Qed.

Lemma cleanNum_group_nonneg o n : cleanNum_group o = Some n -> count_value n.
Proof. destruct o; simpl; [apply cleanNum_count | done]. Qed.

Lemma Structural_extractTotal_nonneg text n :
  Structural.extractTotal text = Some n -> count_value n.
Proof.
  unfold Structural.extractTotal. destruct (exec _ _ _); [|done].
  apply cleanNum_group_nonneg.
Qed.

Lemma extractTotal_optional_nonneg text n :
  extractTotal_optional text = Some n -> count_value n.
Proof.
  unfold extractTotal_optional. destruct (exec _ _ _); [|done].
  apply cleanNum_group_nonneg.
Qed.

Lemma extractGradesMap_entry text k v :
  Strict.extractGradesMap text !! k = Some v -> grade_label k /\ count_value v.
Proof.
  unfold Strict.extractGradesMap. intros H.
  destruct (fold_grades_key _ _ _ _ H) as [He | (e & He & -> & Hv)]; [done|].
  destruct (findGrades_loop_sound _ _ _ _ He)
    as (before & w & after & num & _ & (P & ws1 & ws2 & _ & _ & _ & Hg & Hl & _) & Hc).
  split.
  - by exists (Strict.grade e).
  - rewrite Hv in Hc. symmetry in Hc. by eapply cleanNum_count.
Qed.

Lemma extractGrades_entry text k v :
  extractGrades text !! k = Some v -> grade_label k /\ count_value v.
Proof. rewrite extractGrades_is_map. apply extractGradesMap_entry. Qed.

Lemma or_null_form o :
  (forall s, o = Some s -> s <> [] -> card_number_form s) ->
  or_null o = None \/ exists num, or_null o = Some num /\ card_number_form num.
Proof.
  intros H. unfold or_null. destruct o as [[|a s]|]; simpl; [by left | | by left].
  right. exists (a :: s). split; [done|]. by apply H.
Qed.

Lemma or_null_keeps o : truthy_opt o = true -> or_null o = o.
Proof. unfold or_null. by intros ->. Qed.

Lemma marker_matches prev w rest c c' :
  Matches true rx_total_marker prev w rest c c' <-> total_marker w /\ c' = c.
Proof.
  unfold rx_total_marker. split.
  - intros H. inv_matches. split; [|done].
    do 3 eexists. split_and!; [reflexivity | eassumption | eassumption | eassumption].
  - intros [(T & ws & P & -> & HT & Hws & HP) ->].
    eapply M_Seq; [by constructor|].
    eapply M_Seq; [constructor; [done | apply within_star]|].
    by constructor.
Qed.

Lemma test_marker text :
  test true rx_total_marker text = true <-> has_total_marker text.
Proof.
  rewrite test_true. unfold has_total_marker, matches_at. split.
  - intros (pre & w & post & c & Ht & M). apply marker_matches in M as [Hm _].
    by exists pre, w, post.
  - intros (pre & w & post & Ht & Hm). exists pre, w, post, ∅.
    split; [done|]. by apply marker_matches.
Qed.

Lemma Structural_names_trimmed el :
  trim (fst (Structural.extractNameAndDetails el)) = fst (Structural.extractNameAndDetails el)
  /\ trim (snd (Structural.extractNameAndDetails el)) = snd (Structural.extractNameAndDetails el).
Proof.
  unfold Structural.extractNameAndDetails. simpl. split.
  - repeat apply or_else_trimmed; try apply trim_trim. done.
  - repeat apply or_else_trimmed; try apply trim_trim. done.
Qed.

Lemma Structural_row_of_some el r :
  Structural.row_of el = Some r ->
  has_total_marker (block_text el)
  /\ name r = fst (Structural.extractNameAndDetails el)
  /\ details r = snd (Structural.extractNameAndDetails el)
  /\ (name r <> [] \/ details r <> [])
  /\ cardNumber r = or_null (or_opt (extractCardNumberChunk (block_text el))
                                    (extractCardNumberChunk (details r)))
  /\ totalPop r = Structural.extractTotal (block_text el)
  /\ grades r = extractGrades (block_text el).
Proof.
  unfold Structural.row_of. cbv zeta.
  destruct (test true rx_total_marker (block_text el)) eqn:Ht; [|discriminate].
  simpl negb. cbv iota.
  destruct (Structural.extractNameAndDetails el) as [n d] eqn:Hnd.
  destruct (negb (truthy n) && negb (truthy d)) eqn:Hb; [discriminate|].
  intros H. inversion H; subst r; simpl. split_and!; try done.
  - by apply test_marker.
  - apply andb_false_iff in Hb as [Hb | Hb]; apply negb_false_iff in Hb.
    + left. by destruct n.
    + right. by destruct d.
Qed.

Lemma Structural_row_well_formed el r :
  Structural.row_of el = Some r -> well_formed_card r.
Proof.
  intros H. destruct (Structural_row_of_some _ _ H) as (_ & Hn & Hd & _ & Hc & Ht & Hg).
  destruct (Structural_names_trimmed el) as [Htn Htd].
  unfold well_formed_card. split_and!.
  - by rewrite Hn.
  - by rewrite Hd.
  - rewrite Hc. apply or_null_form. intros s Hs _.
    unfold or_opt in Hs. destruct (truthy_opt _); by eapply extractCardNumberChunk_form.
  - intros n. rewrite Ht. apply Structural_extractTotal_nonneg.
  - intros k v. rewrite Hg. apply extractGrades_entry.
Qed.

(** X2.  The row loop of the structural variant turns a node into a record
    exactly when its normalized text has the marker "total population"
    (any case, white space between the words or none) and the node yields a
    name or details that are not empty. *)
Theorem structural_row_acceptance (el : node) :
  is_Some (Structural.row_of el) <->
  has_total_marker (block_text el)
  /\ (fst (Structural.extractNameAndDetails el) <> []
      \/ snd (Structural.extractNameAndDetails el) <> []).
Proof.
  split.
  - intros [r Hr]. destruct (Structural_row_of_some _ _ Hr) as (Hm & Hn & Hd & Hne & _).
    split; [done|]. by rewrite <- Hn, <- Hd.
  - intros [Hm Hne]. apply test_marker in Hm. unfold Structural.row_of. cbv zeta.
    rewrite Hm. simpl negb. cbv iota.
    destruct (Structural.extractNameAndDetails el) as [n d]. simpl in Hne.
    destruct (negb (truthy n) && negb (truthy d)) eqn:Hb; [|done].
    apply andb_true_iff in Hb as [Hn Hd]. apply negb_true_iff in Hn, Hd.
    destruct n, d; try done. by destruct Hne.
Qed.

(** X3.  In the structural variant the card number of a record is read from
    the text of the block, and from the details only when the text has no
    fraction; it is [null] exactly when neither has one. *)
Theorem structural_number_falls_back_to_details (el : node) (r : CardRecord) :
  Structural.row_of el = Some r ->
  (has_fraction (block_text el) ->
     cardNumber r = extractCardNumberChunk (block_text el))
  /\ (~ has_fraction (block_text el) ->
      cardNumber r = extractCardNumberChunk (details r))
  /\ (cardNumber r = None <->
      ~ has_fraction (block_text el) /\ ~ has_fraction (details r)).
Proof.
  intros H. destruct (Structural_row_of_some _ _ H) as (_ & _ & _ & _ & Hc & _).
  rewrite Hc. unfold or_opt.
  destruct (truthy_opt (extractCardNumberChunk (block_text el))) eqn:Ht.
  - pose proof Ht as Hf. apply extractCardNumberChunk_truthy in Hf.
    rewrite or_null_keeps by done. split_and!; [done | done |].
    split; [|by intros [? _]].
    intros He. rewrite He in Ht. done.
  - assert (Hnf : ~ has_fraction (block_text el)).
    { intros Hf. apply extractCardNumberChunk_truthy in Hf. congruence. }
    destruct (truthy_opt (extractCardNumberChunk (details r))) eqn:Hd.
    + rewrite or_null_keeps by done. split_and!; [done | done |].
      split.
      * intros He. rewrite He in Hd. done.
      * intros [_ Hn]. apply extractCardNumberChunk_truthy in Hd. done.
    + assert (Hnd : ~ has_fraction (details r)).
      { intros Hf. apply extractCardNumberChunk_truthy in Hf. congruence. }
      apply extractCardNumberChunk_none in Hnd as Hnone.
      unfold or_null. rewrite Hd. split_and!; [done | by rewrite Hnone | done].
Qed.

Lemma structural_number_falls_back_to_details_witness :
  exists r, Structural.row_of charizard_node = Some r
            /\ (cardNumber r = None <->
                ~ has_fraction (block_text charizard_node)
                /\ ~ has_fraction (details r)).
Proof.
  eexists. split; [reflexivity|].
  apply (structural_number_falls_back_to_details charizard_node). reflexivity.
Defined.

(** ** The responses *)

Lemma apply_limit_length {A} Number limit (l : list A) :
  (length (apply_limit Number limit l) <= length l)%nat
  /\ (truthy_opt limit = true -> Number (String_of limit) <> NaN ->
      (length (apply_limit Number limit l) <= 200)%nat).
Proof.
  rewrite apply_limit_spec. split.
  - destruct (if truthy_opt limit then _ else _); [rewrite length_take|]; lia.
  - intros -> Hn. destruct (clamp_count (Number (String_of limit))) as [n|] eqn:Hc.
    + apply clamp_count_range in Hc. rewrite length_take. lia.
    + by destruct (Number (String_of limit)).
Qed.

Lemma Structural_filter_rows_sublist q rows :
  Structural.filter_rows q rows `sublist_of` rows.
Proof.
  unfold Structural.filter_rows. rewrite filter_by_name_spec, filter_by_number_spec.
  etrans; apply filter_sublist.
Qed.

Lemma Structural_cards_sublist sels Number doc q :
  Structural.cards (Structural.handler_with sels Number doc q)
    `sublist_of` Structural.rows_of (snd (Structural.select_blocks sels doc)).
Proof.
  unfold Structural.handler_with. destruct (Structural.select_blocks sels doc) as [sel best].
  simpl. etrans; [apply apply_limit_sublist | apply Structural_filter_rows_sublist].
Qed.

(** X4.  The response of the structural variant is coherent: [returned] is
    the number of cards sent, which is at most [totalFound], the number of
    rows before filtering, and at most 200 when the limit is a number; the
    cards are rows of the selected blocks in their order; [selectorUsed] is
    never [null], it names a query of the list or the heuristic. *)
Theorem structural_response_counts (sels : list jsstring)
    (Number : jsstring -> jsnum) (doc : document) (q : query) :
  let resp := Structural.handler_with sels Number doc q in
  Structural.returned resp = length (Structural.cards resp)
  /\ (Structural.returned resp <= Structural.totalFound resp)%nat
  /\ Structural.totalFound resp
     = length (Structural.rows_of (snd (Structural.select_blocks sels doc)))
  /\ Structural.cards resp
       `sublist_of` Structural.rows_of (snd (Structural.select_blocks sels doc))
  /\ (truthy_opt (limit q) = true -> Number (String_of (limit q)) <> NaN ->
      (Structural.returned resp <= 200)%nat)
  /\ (exists sel, Structural.selectorUsed resp = Some sel
                  /\ (sel ∈ sels \/ sel = Structural.heuristic_selector)).
Proof.
  intros resp. pose proof (Structural_cards_sublist sels Number doc q) as Hsub.
  subst resp. unfold Structural.handler_with in *.
  destruct (Structural.select_blocks sels doc) as [sel best] eqn:Hsel. simpl in *.
  split_and!; try done.
  - apply sublist_length in Hsub. done.
  - apply (proj2 (apply_limit_length _ _ _)).
  - unfold Structural.select_blocks in Hsel.
    destruct (select_best_inv doc sels) as [_ Hshape]. cbv zeta in Hshape.
    destruct (length (snd (Structural.select_best sels doc)) =? 0)%nat eqn:Hz.
    + inversion Hsel. eexists. split; [done | by right].
    + destruct Hshape as [Hst | (l1 & s0 & l2 & Hs & Hst & _)];
        rewrite Hst in Hz, Hsel; [done|].
      inversion Hsel. exists s0. split; [done|]. left.
      rewrite Hs. apply elem_of_app. right. by left.
Qed.

(** X5.  Every card in the response of the structural variant is well
    formed, and has a name or details that are not empty. *)
Theorem structural_cards_well_formed (sels : list jsstring)
    (Number : jsstring -> jsnum) (doc : document) (q : query) (r : CardRecord) :
  r ∈ Structural.cards (Structural.handler_with sels Number doc q) ->
  well_formed_card r /\ (name r <> [] \/ details r <> []).
Proof.
  intros Hr. apply (sublist_elem_of _ _ _ (Structural_cards_sublist _ _ _ _)) in Hr.
  apply list_elem_of_omap in Hr as (el & _ & Hel). split.
  - by eapply Structural_row_well_formed.
  - by destruct (Structural_row_of_some _ _ Hel) as (_ & _ & _ & Hne & _).
Qed.

Lemma structural_cards_well_formed_witness :
  exists r,
    Structural.cards (Structural.handler Number_decimal one_card_page
                        (Query None None None)) = [r]
    /\ well_formed_card r /\ (name r <> [] \/ details r <> []).
Proof.
  eexists. split; [reflexivity|].
  apply (structural_cards_well_formed Structural.CANDIDATE_CARD_SELECTORS
           Number_decimal one_card_page (Query None None None)).
  rewrite list_elem_of_In. vm_compute. by left.
Defined.

(** ** The responses of the broad sweeps *)

Lemma sweep_names_trimmed el :
  trim (fst (extractNameAndDetails_sweep el)) = fst (extractNameAndDetails_sweep el)
  /\ trim (snd (extractNameAndDetails_sweep el)) = snd (extractNameAndDetails_sweep el).
Proof.
  unfold extractNameAndDetails_sweep. simpl.
  split; apply or_else_trimmed; try apply trim_trim; done.
Qed.

Lemma fallbackNameFromText_trimmed text :
  trim (Strict.fallbackNameFromText text) = Strict.fallbackNameFromText text.
Proof.
  unfold Strict.fallbackNameFromText. destruct (exec _ _ _); [apply trim_trim | done].
Qed.

Lemma Loose_block_of_some el b :
  Loose.block_of el = Some b ->
  name (rest b) = fst (extractNameAndDetails_sweep el)
  /\ details (rest b) = snd (extractNameAndDetails_sweep el)
  /\ cardNumber (rest b) = or_null (extractCardNumberChunk (block_text el))
  /\ totalPop (rest b) = extractTotal_optional (block_text el)
  /\ grades (rest b) = extractGrades (block_text el)
  /\ _len b = length (block_text el)
  /\ (grades (rest b) <> ∅ \/ cardNumber (rest b) <> None).
Proof.
  unfold Loose.block_of. cbv zeta.
  destruct (negb (test true rx_card_hint (block_text el))); [discriminate|].
  unfold Loose.extractNameAndDetails, Loose.extractTotal.
  destruct (extractNameAndDetails_sweep el) as [n d].
  destruct ((size (extractGrades (block_text el)) =? 0)%nat
            && negb (truthy_opt (extractCardNumberChunk (block_text el)))) eqn:Hb;
    [discriminate|].
  intros H. inversion H; subst b; simpl. split_and!; try done.
  apply andb_false_iff in Hb as [Hb | Hb].
  - left. intros He. apply size_zero_empty in He. congruence.
  - right. apply negb_false_iff in Hb. rewrite or_null_keeps by done.
    intros He. rewrite He in Hb. done.
Qed.

Lemma Loose_block_well_formed el b :
  Loose.block_of el = Some b -> well_formed_card (rest b).
Proof.
  intros H. pose proof (Loose_block_number _ _ H) as Hnum.
  destruct (Loose_block_of_some _ _ H) as (Hn & Hd & _ & Ht & Hg & _).
  destruct (sweep_names_trimmed el) as [Htn Htd].
  unfold well_formed_card. split_and!.
  - by rewrite Hn.
  - by rewrite Hd.
  - done.
  - intros n. rewrite Ht. apply extractTotal_optional_nonneg.
  - intros k v. rewrite Hg. apply extractGrades_entry.
Qed.

Lemma Strict_block_well_formed el b :
  Strict.kept_of el = Some b -> well_formed_card (rest b).
Proof.
  intros H. pose proof (Strict_kept_number _ _ H) as Hnum.
  destruct (Strict_kept_of_some _ _ H) as (_ & _ & _ & Hg & _ & Ht & Hd & _).
  destruct (sweep_names_trimmed el) as [Htn Htd].
  unfold well_formed_card. split_and!.
  - revert H. unfold Strict.kept_of. cbv zeta.
    destruct (negb (truthy (block_text el))); [discriminate|].
    destruct (negb (truthy_opt _)); [discriminate|].
    destruct (Strict.distinctGrades _ <? 3)%nat; [discriminate|].
    unfold Strict.extractNameAndDetails.
    destruct (extractNameAndDetails_sweep el) as [n d].
    destruct (size _ =? 0)%nat; [discriminate|].
    intros H. inversion H; simpl. simpl in Htn.
    destruct (negb (truthy n)); [|done].
    destruct (truthy (Strict.fallbackNameFromText (block_text el))); [|done].
    apply fallbackNameFromText_trimmed.
  - by rewrite Hd.
  - by right.
  - intros n. rewrite Ht. apply extractTotal_optional_nonneg.
  - intros k v. rewrite Hg. apply extractGradesMap_entry.
Qed.

Lemma Loose_dedup_sublist bs : Loose.dedup bs `sublist_of` bs.
Proof.
  induction bs as [|b bs IH] using rev_ind; [done|].
  rewrite Loose_dedup_snoc. destruct (bool_decide _ && negb _).
  - rewrite app_nil_r. by apply sublist_inserts_r.
  - by apply sublist_app.
Qed.

Lemma Loose_filter_rows_sublist q rows : Loose.filter_rows q rows `sublist_of` rows.
Proof.
  unfold Loose.filter_rows. rewrite filter_by_name_spec, filter_by_number_spec.
  etrans; apply filter_sublist.
Qed.

Lemma Loose_card_from_block Number doc q r :
  r ∈ sw_cards (Loose.handler Number doc q) ->
  exists el b, el ∈ Loose.candidates doc /\ Loose.block_of el = Some b /\ r = rest b.
Proof.
  unfold Loose.handler, strip_len. simpl. intros Hr.
  apply list_elem_of_fmap in Hr as (b & -> & Hb).
  apply (sublist_elem_of _ _ _ (apply_limit_sublist _ _ _)) in Hb.
  rewrite sort_by_len_perm in Hb.
  apply (sublist_elem_of _ _ _ (Loose_filter_rows_sublist _ _)) in Hb.
  apply (sublist_elem_of _ _ _ (Loose_dedup_sublist _)) in Hb.
  unfold Loose.blocks_of in Hb. apply list_elem_of_omap in Hb as (el & Hel & Hk).
  by exists el, b.
Qed.

(** X6.  Every card in the response of either broad sweep is well formed;
    a card of the loose sweep has a grade or a card number. *)
Theorem sweep_cards_well_formed (Number : jsstring -> jsnum) (doc : document)
    (q : query) (r : CardRecord) :
  (r ∈ sw_cards (Loose.handler Number doc q) ->
     well_formed_card r /\ (grades r <> ∅ \/ cardNumber r <> None))
  /\ (r ∈ sw_cards (Strict.handler Number doc q) -> well_formed_card r).
Proof.
  split.
  - intros Hr. apply Loose_card_from_block in Hr as (el & b & _ & Hb & ->).
    split; [by eapply Loose_block_well_formed|].
    by destruct (Loose_block_of_some _ _ Hb) as (_ & _ & _ & _ & _ & _ & H).
  - intros Hr. apply Strict_card_from_block in Hr as (el & b & _ & Hb & ->).
    by eapply Strict_block_well_formed.
Qed.

(** X7.  The response of either broad sweep is coherent: [returned] is the
    number of cards sent, at most [totalFound], the number of records after
    deduplication, and at most 200 when the limit is a number. *)
Theorem sweep_response_counts (Number : jsstring -> jsnum) (doc : document)
    (q : query) :
  (sw_returned (Loose.handler Number doc q)
     = length (sw_cards (Loose.handler Number doc q))
   /\ (sw_returned (Loose.handler Number doc q)
       <= sw_totalFound (Loose.handler Number doc q))%nat
   /\ sw_totalFound (Loose.handler Number doc q)
      = length (Loose.dedup (Loose.blocks_of (Loose.candidates doc)))
   /\ (truthy_opt (limit q) = true -> Number (String_of (limit q)) <> NaN ->
       (sw_returned (Loose.handler Number doc q) <= 200)%nat))
  /\ (sw_returned (Strict.handler Number doc q)
        = length (sw_cards (Strict.handler Number doc q))
      /\ (sw_returned (Strict.handler Number doc q)
          <= sw_totalFound (Strict.handler Number doc q))%nat
      /\ sw_totalFound (Strict.handler Number doc q)
         = length (Strict.dedup (Strict.kept (Strict.candidates doc)))
      /\ (truthy_opt (limit q) = true -> Number (String_of (limit q)) <> NaN ->
          (sw_returned (Strict.handler Number doc q) <= 200)%nat)).
Proof.
  unfold Loose.handler, Strict.handler, strip_len.
  cbv zeta. cbn [sw_returned sw_cards sw_totalFound].
  split; split_and!; try done.
  - by rewrite length_fmap.
  - etrans; [apply (proj1 (apply_limit_length _ _ _))|].
    rewrite sort_by_len_perm. apply sublist_length, Loose_filter_rows_sublist.
  - apply (proj2 (apply_limit_length _ _ _)).
  - by rewrite length_fmap.
  - etrans; [apply (proj1 (apply_limit_length _ _ _))|].
    rewrite sort_by_len_perm. apply sublist_length, Strict_filter_rows_sublist.
  - apply (proj2 (apply_limit_length _ _ _)).
Qed.

Lemma sweep_cards_well_formed_witness :
  exists r,
    sw_cards (Loose.handler Number_decimal one_block_page (Query None None None)) = [r]
    /\ well_formed_card r /\ (grades r <> ∅ \/ cardNumber r <> None).
Proof.
  eexists. split; [reflexivity|].
  apply (sweep_cards_well_formed Number_decimal one_block_page (Query None None None)).
  rewrite list_elem_of_In. vm_compute. by left.
Defined.

(** ** The sort by length *)

Lemma insert_by_len_split x l :
  exists l1 l2,
    l = l1 ++ l2 /\ insert_by_len x l = l1 ++ x :: l2
    /\ Forall (fun y => (_len x < _len y)%nat) l1
    /\ match l2 with [] => True | y :: _ => (_len y <= _len x)%nat end.
Proof.
  induction l as [|y l (l1 & l2 & Hl & Hi & H1 & H2)]; simpl.
  - exists [], []. split_and!; [done | done | constructor | done].
  - destruct (_len x <? _len y)%nat eqn:Hlt.
    + apply Nat.ltb_lt in Hlt. exists (y :: l1), l2.
      split_and!; [by rewrite Hl | by rewrite Hi | by constructor | done].
    + apply Nat.ltb_ge in Hlt. exists [], (y :: l).
      split_and!; [done | done | constructor | done].
Qed.

Lemma descending_len_app l1 l2 :
  descending_len (l1 ++ l2) <->
  descending_len l1 /\ descending_len l2
  /\ Forall (fun x => Forall (fun y => (_len y <= _len x)%nat) l2) l1.
Proof.
  induction l1 as [|x l1 IH]; simpl.
  - split; [intros H; split_and!; [done | done | constructor] | by intros (_ & H & _)].
  - rewrite IH, Forall_app, Forall_cons. tauto.
Qed.

Lemma insert_by_len_descending x l :
  descending_len l -> descending_len (insert_by_len x l).
Proof.
  intros Hl. destruct (insert_by_len_split x l) as (l1 & l2 & -> & -> & H1 & H2).
  apply descending_len_app in Hl as (Hd1 & Hd2 & H12).
  apply descending_len_app. split_and!; [done | |].
  - simpl. split; [|done]. destruct l2 as [|y l2]; [constructor|].
    simpl in Hd2. destruct Hd2 as [Hy _]. constructor; [done|].
    eapply Forall_impl; [exact Hy|]. simpl. intros z Hz. lia.
  - rewrite Forall_forall in H1, H12. apply Forall_forall. intros z Hz.
    constructor; [specialize (H1 _ Hz); lia | by apply H12].
Qed.

Lemma sort_by_len_descending l : descending_len (sort_by_len l).
Proof.
  induction l as [|x l IH]; simpl; [done|]. by apply insert_by_len_descending.
Qed.

Lemma of_len_insert n x l :
  of_len n (insert_by_len x l) = of_len n (x :: l).
Proof.
  destruct (insert_by_len_split x l) as (l1 & l2 & -> & -> & H1 & _).
  unfold of_len. simpl. rewrite !List.filter_app. simpl.
  destruct (_len x =? n)%nat eqn:Hx; [|done].
  apply Nat.eqb_eq in Hx.
  assert (List.filter (fun b => (_len b =? n)%nat) l1 = []) as ->; [|done].
  apply filter_none. eapply Forall_impl; [exact H1|].
  simpl. intros y Hy. apply Nat.eqb_neq. lia.
Qed.

Lemma of_len_sort n l : of_len n (sort_by_len l) = of_len n l.
Proof.
  induction l as [|x l IH]; simpl; [done|].
  rewrite of_len_insert. unfold of_len in *. simpl. by rewrite IH.
Qed.

Lemma insert_by_len_head x l :
  Forall (fun y => (_len y <= _len x)%nat) l -> insert_by_len x l = x :: l.
Proof.
  destruct l as [|y l]; simpl; [done|]. intros H. inversion H; subst.
  destruct (_len x <? _len y)%nat eqn:Hlt; [|done]. apply Nat.ltb_lt in Hlt. lia.
Qed.

Lemma sort_by_len_sorted l : descending_len l -> sort_by_len l = l.
Proof.
  induction l as [|x l IH]; simpl; [done|]. intros [Hx Hl].
  rewrite IH by done. by apply insert_by_len_head.
Qed.

(** X8.  The sort of the broad sweeps,
    [filtered.sort((a, b) => (b._len || 0) - (a._len || 0))], rearranges the
    records so that none is longer than one before it, keeps records of the
    same length in the order they had, and leaves a list already in that
    order as it is. *)
Theorem sort_by_len_is_a_stable_sort (l : list block) :
  sort_by_len l ≡ₚ l
  /\ descending_len (sort_by_len l)
  /\ (forall n, of_len n (sort_by_len l) = of_len n l)
  /\ sort_by_len (sort_by_len l) = sort_by_len l.
Proof.
  split_and!.
  - apply sort_by_len_perm.
  - apply sort_by_len_descending.
  - intros n. apply of_len_sort.
  - apply sort_by_len_sorted, sort_by_len_descending.
Qed.

Lemma descending_len_take_drop l n b b' :
  descending_len l -> b ∈ take n l -> b' ∈ drop n l -> (_len b' <= _len b)%nat.
Proof.
  intros Hd Hb Hb'. rewrite <- (take_drop n l) in Hd.
  apply descending_len_app in Hd as (_ & _ & H).
  rewrite Forall_forall in H. specialize (H _ Hb).
  rewrite Forall_forall in H. by apply H.
Qed.

(** X9.  When a broad sweep cuts its response to a limit, the cards sent are
    those of the longest blocks: the sorted records split into the ones
    sent, in their order, and the ones dropped, and no dropped record is
    longer than a record sent. *)
Theorem sweep_limit_keeps_longest (Number : jsstring -> jsnum) (doc : document)
    (q : query) :
  (exists out dropped,
      sort_by_len (Loose.filter_rows q
                     (Loose.dedup (Loose.blocks_of (Loose.candidates doc))))
        = out ++ dropped
      /\ sw_cards (Loose.handler Number doc q) = rest <$> out
      /\ descending_len out
      /\ forall b b', b ∈ out -> b' ∈ dropped -> (_len b' <= _len b)%nat)
  /\ (exists out dropped,
        sort_by_len (Strict.filter_rows q
                       (Strict.dedup (Strict.kept (Strict.candidates doc))))
          = out ++ dropped
        /\ sw_cards (Strict.handler Number doc q) = rest <$> out
        /\ descending_len out
        /\ forall b b', b ∈ out -> b' ∈ dropped -> (_len b' <= _len b)%nat).
Proof.
  assert (Hgen : forall l : list block,
             exists out dropped,
               sort_by_len l = out ++ dropped
               /\ apply_limit Number (limit q) (sort_by_len l) = out
               /\ descending_len out
               /\ forall b b', b ∈ out -> b' ∈ dropped -> (_len b' <= _len b)%nat).
  { intros l. pose proof (sort_by_len_descending l) as Hd.
    rewrite apply_limit_spec.
    destruct (if truthy_opt (limit q) then _ else _) as [n|].
    - exists (take n (sort_by_len l)), (drop n (sort_by_len l)).
      split_and!; [by rewrite take_drop | done | |].
      + rewrite <- (take_drop n (sort_by_len l)) in Hd.
        by apply descending_len_app in Hd as (H & _).
      + intros b b'. by apply descending_len_take_drop.
    - exists (sort_by_len l), []. rewrite app_nil_r. split_and!; try done.
      intros b b' _ Hb'. by apply elem_of_nil in Hb'. }
  split.
  - destruct (Hgen (Loose.filter_rows q
                      (Loose.dedup (Loose.blocks_of (Loose.candidates doc)))))
      as (out & dropped & H1 & H2 & H3 & H4).
    exists out, dropped. split_and!; try done.
    unfold Loose.handler, strip_len. cbv zeta. cbn [sw_cards]. by rewrite H2.
  - destruct (Hgen (Strict.filter_rows q
                      (Strict.dedup (Strict.kept (Strict.candidates doc)))))
      as (out & dropped & H1 & H2 & H3 & H4).
    exists out, dropped. split_and!; try done.
    unfold Strict.handler, strip_len. cbv zeta. cbn [sw_cards]. by rewrite H2.
Qed.

(** ** Deduplication as a whole *)

Lemma Strict_dedup_keys bs :
  (forall k, k ∈ Strict.key_of <$> Strict.dedup bs <-> k ∈ Strict.key_of <$> bs)
  /\ NoDup (Strict.key_of <$> Strict.dedup bs).
Proof.
  induction bs as [|b bs [IHk IHn]] using rev_ind; [split; [done | constructor]|].
  rewrite Strict_dedup_snoc.
  destruct (bool_decide (Strict.key_of b ∈ Strict.key_of <$> bs)) eqn:Hb.
  - apply bool_decide_eq_true in Hb. rewrite app_nil_r. split; [|done].
    intros k. rewrite IHk, fmap_app, elem_of_app. simpl.
    rewrite list_elem_of_singleton. split; [by left|]. by intros [H | ->].
  - apply bool_decide_eq_false in Hb. split.
    + intros k. rewrite !fmap_app, !elem_of_app, IHk. done.
    + rewrite fmap_app. apply NoDup_app. split_and!; [done | | apply NoDup_singleton].
      intros k Hk Hk'. simpl in Hk'. apply list_elem_of_singleton in Hk' as ->.
      apply Hb. by apply IHk.
Qed.

Lemma Strict_dedup_fixed bs :
  NoDup (Strict.key_of <$> bs) -> Strict.dedup bs = bs.
Proof.
  induction bs as [|b bs IH] using rev_ind; [done|].
  rewrite fmap_app. intros Hn. apply NoDup_app in Hn as (Hn & Hd & _).
  rewrite Strict_dedup_snoc, IH by done.
  rewrite bool_decide_eq_false_2; [done|].
  intros Hin. apply (Hd _ Hin). simpl. by left.
Qed.

(** X10.  Deduplication in the strict sweep leaves no two records with the
    same key, loses no key, keeps the order, and changes nothing when run
    again. *)
Theorem strict_dedup_is_a_set_of_keys (bs : list block) :
  NoDup (Strict.key_of <$> Strict.dedup bs)
  /\ (forall k, k ∈ Strict.key_of <$> Strict.dedup bs <-> k ∈ Strict.key_of <$> bs)
  /\ Strict.dedup bs `sublist_of` bs
  /\ Strict.dedup (Strict.dedup bs) = Strict.dedup bs.
Proof.
  destruct (Strict_dedup_keys bs) as [Hk Hn]. split_and!; try done.
  - apply Strict_dedup_sublist.
  - by apply Strict_dedup_fixed.
Qed.

Lemma filter_singleton {A} (f : A -> bool) x :
  List.filter f [x] = if f x then [x] else [].
Proof. reflexivity. Qed.

Lemma proper_keys_app bs cs : proper_keys (bs ++ cs) = proper_keys bs ++ proper_keys cs.
Proof. unfold proper_keys. by rewrite fmap_app, List.filter_app. Qed.

Lemma proper_keys_elem k bs :
  k ∈ proper_keys bs <-> k ∈ Loose.key_of <$> bs /\ k <> str "|".
Proof.
  unfold proper_keys. rewrite filter_elem_of, negb_true_iff.
  split; intros [H1 H2]; (split; [done|]).
  - intros ->. by rewrite (proj2 (jsstring_eqb_eq _ _) eq_refl) in H2.
  - destruct (jsstring_eqb k (str "|")) eqn:He; [|done].
    by apply jsstring_eqb_eq in He.
Qed.

Lemma Loose_dedup_keys bs :
  (forall k, k ∈ Loose.key_of <$> Loose.dedup bs <-> k ∈ Loose.key_of <$> bs)
  /\ NoDup (proper_keys (Loose.dedup bs))
  /\ anonymous (Loose.dedup bs) = anonymous bs.
Proof.
  induction bs as [|b bs (IHk & IHn & IHa)] using rev_ind;
    [split_and!; [done | constructor | done]|].
  rewrite Loose_dedup_snoc.
  destruct (bool_decide (Loose.key_of b ∈ Loose.key_of <$> bs)
            && negb (jsstring_eqb (Loose.key_of b) (str "|"))) eqn:Hb.
  - apply andb_true_iff in Hb as [Hin Hne]. apply bool_decide_eq_true in Hin.
    rewrite app_nil_r. split_and!; [| done |].
    + intros k. rewrite IHk, fmap_app, elem_of_app. simpl.
      rewrite list_elem_of_singleton. split; [by left|]. by intros [H | ->].
    + unfold anonymous in *. rewrite List.filter_app, filter_singleton.
      apply negb_true_iff in Hne. rewrite Hne, app_nil_r. done.
  - split_and!.
    + intros k. rewrite !fmap_app, !elem_of_app, IHk. done.
    + rewrite proper_keys_app. apply NoDup_app. split_and!; [done | |].
      * intros k Hk Hk'. apply proper_keys_elem in Hk as [Hk Hne].
        apply proper_keys_elem in Hk' as [Hk' _]. simpl in Hk'.
        apply list_elem_of_singleton in Hk' as ->.
        apply andb_false_iff in Hb as [Hb | Hb].
        -- apply bool_decide_eq_false in Hb. apply Hb. by apply IHk.
        -- apply negb_false_iff, jsstring_eqb_eq in Hb. done.
      * unfold proper_keys. change (Loose.key_of <$> [b]) with [Loose.key_of b].
        rewrite filter_singleton. destruct (negb _); [apply NoDup_singleton | constructor].
    + unfold anonymous in *. rewrite !List.filter_app. by rewrite IHa.
Qed.

Lemma Loose_dedup_fixed bs :
  NoDup (proper_keys bs) -> Loose.dedup bs = bs.
Proof.
  induction bs as [|b bs IH] using rev_ind; [done|].
  rewrite proper_keys_app. intros Hn. apply NoDup_app in Hn as (Hn & Hd & _).
  rewrite Loose_dedup_snoc, IH by done.
  destruct (bool_decide (Loose.key_of b ∈ Loose.key_of <$> bs)
            && negb (jsstring_eqb (Loose.key_of b) (str "|"))) eqn:Hb; [|done].
  exfalso. apply andb_true_iff in Hb as [Hin Hne]. apply bool_decide_eq_true in Hin.
  apply negb_true_iff in Hne.
  assert (Hk : Loose.key_of b <> str "|").
  { intros He. apply jsstring_eqb_eq in He. congruence. }
  apply (Hd (Loose.key_of b)).
  - by apply proper_keys_elem.
  - apply proper_keys_elem. split; [|done]. simpl. by left.
Qed.

(** X11.  Deduplication in the loose sweep leaves no two records with the
    same key, apart from the records with neither name nor number, which
    are all kept; it loses no key, keeps the order, and changes nothing when
    run again. *)
Theorem loose_dedup_is_a_set_of_keys (bs : list block) :
  NoDup (proper_keys (Loose.dedup bs))
  /\ anonymous (Loose.dedup bs) = anonymous bs
  /\ (forall k, k ∈ Loose.key_of <$> Loose.dedup bs <-> k ∈ Loose.key_of <$> bs)
  /\ Loose.dedup bs `sublist_of` bs
  /\ Loose.dedup (Loose.dedup bs) = Loose.dedup bs.
Proof.
  destruct (Loose_dedup_keys bs) as (Hk & Hn & Ha). split_and!; try done.
  - apply Loose_dedup_sublist.
  - by apply Loose_dedup_fixed.
Qed.

(** ** The grade mapping as a whole *)

Lemma fold_grades_dom : forall l acc,
  dom (fold_left (fun grades e => set_grade grades (Strict.grade e) (Strict.value e)) l acc)
  = dom acc ∪ list_to_set (grade_key <$> parsed_grades l).
Proof.
  induction l as [|e l IH]; intros acc; simpl.
  - set_solver.
  - rewrite IH. unfold set_grade, parsed_grades. simpl.
    destruct (Strict.value e) as [v|]; simpl.
    + rewrite dom_insert_L. set_solver.
    + done.
Qed.

Lemma parsed_grades_subset l g :
  g ∈ parsed_grades l -> g ∈ Strict.grade <$> l.
Proof.
  unfold parsed_grades. intros H. apply list_elem_of_omap in H as (e & He & Hg).
  destruct (Strict.value e); [|done]. inversion Hg; subst.
  apply list_elem_of_fmap. by exists e.
Qed.

Lemma parsed_grades_nil l :
  parsed_grades l = [] <-> Forall (fun e => Strict.value e = None) l.
Proof.
  unfold parsed_grades. induction l as [|e l IH]; simpl; [split; [constructor | done]|].
  destruct (Strict.value e) eqn:Hv; simpl.
  - split; [done|]. inversion 1. congruence.
  - rewrite IH. split; [by constructor | by inversion 1].
Qed.

Lemma size_image_le {A B} `{Countable A, Countable B} (f : A -> B) (l : list A) :
  (size (list_to_set (f <$> l) : gset B) <= size (list_to_set l : gset A))%nat.
Proof.
  induction l as [|x l IH]; [done|].
  rewrite fmap_cons, !list_to_set_cons.
  destruct (decide (x ∈ l)) as [Hin|Hnin].
  - assert (({[x]} ∪ list_to_set l : gset A) = list_to_set l) as -> by set_solver.
    assert (({[f x]} ∪ list_to_set (f <$> l) : gset B) = list_to_set (f <$> l)) as ->;
      [|done].
    assert (f x ∈ f <$> l) by (apply list_elem_of_fmap; by exists x). set_solver.
  - rewrite (size_union {[x]}) by set_solver. rewrite size_singleton.
    rewrite size_union_alt, size_singleton.
    etrans; [|apply le_n_S, IH]. apply le_n_S, subseteq_size. set_solver.
Qed.

Lemma list_to_set_empty {A} `{Countable A} (l : list A) :
  (list_to_set l : gset A) = ∅ <-> l = [].
Proof.
  split; [|by intros ->]. destruct l as [|x l]; [done|].
  rewrite list_to_set_cons. intros He. assert (x ∈ (∅ : gset A)) by (rewrite <- He; set_solver).
  set_solver.
Qed.

(** X12.  The grade mapping has one entry for each distinct grade with an
    occurrence whose count has a digit, so never more entries than the text
    has distinct grade labels; it is empty exactly when no occurrence has a
    digit in its count, which is the only way the last sanity check of the
    strict sweep can reject a block with three distinct grades. *)
Theorem grade_map_entries (text : jsstring) :
  dom (Strict.extractGradesMap text)
    = list_to_set (grade_key <$> parsed_grades (Strict.findGrades text))
  /\ (size (Strict.extractGradesMap text)
      <= Strict.distinctGrades (Strict.findGrades text))%nat
  /\ (Strict.extractGradesMap text = ∅ <->
      Forall (fun e => Strict.value e = None) (Strict.findGrades text))
  /\ (forall k v, Strict.extractGradesMap text !! k = Some v ->
        grade_label k /\ count_value v).
Proof.
  assert (Hdom : dom (Strict.extractGradesMap text)
                 = list_to_set (grade_key <$> parsed_grades (Strict.findGrades text))).
  { unfold Strict.extractGradesMap. rewrite fold_grades_dom. set_solver. }
  split_and!.
  - done.
  - rewrite <- size_dom, Hdom. unfold Strict.distinctGrades.
    etrans; [apply size_image_le|]. apply subseteq_size.
    intros g Hg. apply elem_of_list_to_set in Hg. apply elem_of_list_to_set.
    by apply parsed_grades_subset.
  - rewrite <- parsed_grades_nil, <- dom_empty_iff_L, Hdom, list_to_set_empty.
    split; [|by intros ->]. by destruct (parsed_grades _).
  - intros k v. apply extractGradesMap_entry.
Qed.

(** ** The filters of the broad sweeps *)

Lemma card_number_form_no_space c : card_number_form c -> remove_spaces c = c.
Proof. intros (d1 & d2 & -> & [H1 _] & [H2 _]). by apply remove_spaces_normal. Qed.

Lemma number_is_matches want r :
  (cardNumber r = None \/ exists num, cardNumber r = Some num /\ card_number_form num) ->
  Strict.number_is want r = number_matches want r.
Proof.
  unfold Strict.number_is, number_matches.
  intros [-> | (num & -> & Hf)]; [done|].
  rewrite (card_number_form_no_space _ Hf).
  apply card_number_form_nonempty in Hf. by destruct num.
Qed.

(** X13.  On records whose card number is absent or digits, slash, digits,
    as every record of the sweeps is, the filters of the strict and of the
    loose sweep keep the same records: those that pass every filter given,
    where the name query must occur in the name or the details with case
    ignored and the number query, white space removed, must be the card
    number. *)
Theorem sweep_filters_agree (q : query) (rows : list block) :
  Forall (fun b => cardNumber (rest b) = None
                   \/ exists num, cardNumber (rest b) = Some num
                                  /\ card_number_form num) rows ->
  Strict.filter_rows q rows = Loose.filter_rows q rows
  /\ Loose.filter_rows q rows `sublist_of` rows
  /\ (forall b, b ∈ Loose.filter_rows q rows <->
        b ∈ rows
        /\ (forall nq, pokemonName q = Some nq -> nq <> [] ->
              contains_ignoring_case (name (rest b)) nq
              \/ contains_ignoring_case (details (rest b)) nq)
        /\ (forall cq, q_cardNumber q = Some cq -> cq <> [] ->
              cardNumber (rest b) = Some (remove_spaces cq))).
Proof.
  intros Hrows. rewrite Forall_forall in Hrows. split_and!.
  - unfold Strict.filter_rows, Loose.filter_rows, filter_by_number.
    destruct (truthy_opt (q_cardNumber q)); [|done]. cbv zeta.
    apply List.filter_ext_in. intros b Hb. apply number_is_matches, Hrows.
    apply list_elem_of_In in Hb. eapply elem_of_sublist; [exact Hb|].
    rewrite filter_by_name_spec. apply filter_sublist.
  - apply Loose_filter_rows_sublist.
  - intros b. unfold Loose.filter_rows.
    rewrite filter_by_name_spec, filter_by_number_spec, filter_filter_and, filter_elem_of.
    split.
    + intros [Hin Hb]. apply andb_true_iff in Hb as [Hn Hc]. split_and!; [done | |].
      * intros nq Hq Hne. rewrite Hq in Hn. destruct nq as [|a nq]; [done|].
        change (name_matches (toLowerCase (a :: nq)) (rest b) = true) in Hn.
        by apply name_matches_spec in Hn.
      * intros cq Hq Hne. rewrite Hq in Hc. destruct cq as [|a cq]; [done|].
        change (number_matches (remove_spaces (a :: cq)) (rest b) = true) in Hc.
        rewrite <- number_is_matches in Hc by by apply Hrows.
        unfold Strict.number_is in Hc. destruct (cardNumber (rest b)); [|done].
        apply jsstring_eqb_eq in Hc. by subst.
    + intros (Hin & Hn & Hc). split; [done|]. apply andb_true_iff. split.
      * destruct (pokemonName q) as [[|a nq]|] eqn:Hq; [done | | done].
        change (name_matches (toLowerCase (a :: nq)) (rest b) = true).
        apply name_matches_spec; [done|]. by apply Hn.
      * destruct (q_cardNumber q) as [[|a cq]|] eqn:Hq; [done | | done].
        change (number_matches (remove_spaces (a :: cq)) (rest b) = true).
        rewrite <- number_is_matches by by apply Hrows.
        unfold Strict.number_is. rewrite (Hc (a :: cq)) by done.
        by apply jsstring_eqb_eq.
Qed.

Lemma sweep_filters_agree_witness :
  Strict.filter_rows (Query None (Some (str "5 / 102")) None)
    [Block pikachu 40; Block raichu 30]
  = Loose.filter_rows (Query None (Some (str "5 / 102")) None)
      [Block pikachu 40; Block raichu 30].
Proof.
  apply (sweep_filters_agree (Query None (Some (str "5 / 102")) None)
           [Block pikachu 40; Block raichu 30]).
  apply Forall_cons. split; [|apply Forall_cons; split; [|by apply Forall_nil]].
  - right. exists (str "4/102"). split; [reflexivity|].
    exists (str "4"), (str "102").
    split_and!; [reflexivity | split; [by repeat constructor | simpl; lia]
                | split; [by repeat constructor | simpl; lia]].
  - right. exists (str "5/102"). split; [reflexivity|].
    exists (str "5"), (str "102").
    split_and!; [reflexivity | split; [by repeat constructor | simpl; lia]
                | split; [by repeat constructor | simpl; lia]].
Defined.

(** ** The fallback name *)

Lemma name_span_matches prev w rest c c' :
  Matches false rx_name_before_number prev w rest c c' ->
  exists span ws f,
    w = span ++ ws ++ f
    /\ all_of is_name_char span /\ (2 <= length span <= 60)%nat
    /\ all_of is_space ws /\ ws <> []
    /\ fraction_token f
    /\ c' !! 1%nat = Some span.
Proof.
  unfold rx_name_before_number. intros H.
  inversion H as [| |? ? ? span w1 ? ? ? ? H1 H1'| | | | | | |]; subst; clear H.
  inversion H1' as [| |? ? ? ws f ? ? ? ? H2 H2'| | | | | | |]; subst; clear H1'.
  apply fraction_matches in H2' as [Hf ->].
  inv_matches.
  exists span, ws, f. unfold within in *. split_and!; try done; try lia.
  - intros ->. simpl in *. lia.
  - by rewrite lookup_insert_eq.
Qed.

Lemma replace_first_empty_parts ic r s :
  exists pre cut post,
    s = pre ++ cut ++ post /\ replace_first_empty ic r s = pre ++ post.
Proof.
  unfold replace_first_empty. destruct (exec ic r s) as [m|] eqn:He.
  - destruct (exec_sound _ _ _ _ He) as (Hs & _). by exists (m_pre m), (m_all m), (m_post m).
  - exists s, [], []. by rewrite !app_nil_r.
Qed.

Lemma fallbackNameFromText_span text :
  Strict.fallbackNameFromText text <> [] ->
  exists before span ws f after,
    text = before ++ span ++ ws ++ f ++ after
    /\ all_of is_name_char span /\ (2 <= length span <= 60)%nat
    /\ all_of is_space ws /\ ws <> [] /\ fraction_token f
    /\ Strict.fallbackNameFromText text
       = trim (replace_first_empty true rx_pop_report span).
Proof.
  unfold Strict.fallbackNameFromText.
  destruct (exec false rx_name_before_number text) as [m|] eqn:He; [|done].
  intros _. destruct (exec_sound _ _ _ _ He) as (Ht & M & _).
  apply name_span_matches in M as (span & ws & f & Hw & Hs & Hl & Hws & Hne & Hf & Hc).
  exists (m_pre m), span, ws, f, (m_post m). split_and!; try done; try lia.
  - rewrite Ht, Hw, <- !app_assoc. done.
  - cbv beta iota. unfold group_text, group. by rewrite Hc.
Qed.

(** X14.  [fallbackNameFromText] answers the empty string unless the text
    has a span of two to sixty name characters, then white space, then a
    card-number fraction; its answer is made of characters of that span, so
    of letters, digits, apostrophes, hyphens, spaces and colons only, is no
    longer than the span, and has no white space at its ends. *)
Theorem fallbackNameFromText_shape (text : jsstring) :
  (~ has_fraction text -> Strict.fallbackNameFromText text = [])
  /\ (Strict.fallbackNameFromText text <> [] ->
      exists before span ws f after,
        text = before ++ span ++ ws ++ f ++ after
        /\ all_of is_name_char span /\ (2 <= length span <= 60)%nat
        /\ all_of is_space ws /\ ws <> [] /\ fraction_token f)
  /\ all_of is_name_char (Strict.fallbackNameFromText text)
  /\ (length (Strict.fallbackNameFromText text) <= 60)%nat
  /\ trim (Strict.fallbackNameFromText text) = Strict.fallbackNameFromText text.
Proof.
  assert (Hshape : Strict.fallbackNameFromText text = []
                   \/ exists span, all_of is_name_char span /\ (length span <= 60)%nat
                        /\ exists x pre cut post y,
                             span = pre ++ cut ++ post
                             /\ pre ++ post = x ++ Strict.fallbackNameFromText text ++ y).
  { destruct (decide (Strict.fallbackNameFromText text = [])) as [|Hne]; [by left|].
    right. destruct (fallbackNameFromText_span _ Hne)
      as (b & span & ws & f & a & _ & Hs & Hl & _ & _ & _ & Hr).
    exists span. split_and!; [done | lia |].
    destruct (replace_first_empty_parts true rx_pop_report span) as (pre & cut & post & Hsp & Hrep).
    destruct (trim_split (replace_first_empty true rx_pop_report span))
      as (x & y & Htr & _).
    exists x, pre, cut, post, y. split; [done|]. rewrite Hr, <- Hrep. done. }
  split_and!.
  - intros Hn. destruct (decide (Strict.fallbackNameFromText text = [])) as [|Hne]; [done|].
    exfalso. apply Hn.
    destruct (fallbackNameFromText_span _ Hne)
      as (b & span & ws & f & a & Ht & _ & _ & _ & _ & Hf & _).
    exists (b ++ span ++ ws), f, a. split; [|done]. by rewrite Ht, <- !app_assoc.
  - intros Hne. destruct (fallbackNameFromText_span _ Hne)
      as (b & span & ws & f & a & Ht & Hs & Hl & Hws & Hwn & Hf & _).
    by exists b, span, ws, f, a.
  - destruct Hshape as [-> | (span & Hs & _ & x & pre & cut & post & y & Hsp & Hr)];
      [constructor|].
    rewrite Hsp in Hs. unfold all_of in *. rewrite !Forall_app in Hs.
    destruct Hs as (Hpre & _ & Hpost).
    assert (Hall : Forall (fun a => is_name_char a = true) (pre ++ post))
      by (by apply Forall_app).
    rewrite Hr, !Forall_app in Hall. by destruct Hall as (_ & H & _).
  - destruct Hshape as [-> | (span & _ & Hl & x & pre & cut & post & y & Hsp & Hr)];
      [simpl; lia|].
    apply (f_equal length) in Hsp. apply (f_equal length) in Hr.
    rewrite !length_app in Hsp. rewrite !length_app in Hr. lia.
  - apply fallbackNameFromText_trimmed.
Qed.

(** ** The address of the page *)

Lemma lower_char_not_upper a : is_upper (lower_char a) = false.
Proof. by_chars a. Qed.

Lemma lower_char_idem a : lower_char (lower_char a) = lower_char a.
Proof. by_chars a. Qed.

Lemma lower_char_space a : is_space (lower_char a) = is_space a.
Proof. by_chars a. Qed.

Lemma toLowerCase_idem s : toLowerCase (toLowerCase s) = toLowerCase s.
Proof.
  unfold toLowerCase. rewrite List.map_map. apply List.map_ext. apply lower_char_idem.
Qed.

Lemma remove_spaces_lower s :
  remove_spaces (toLowerCase s) = toLowerCase (remove_spaces s).
Proof.
  unfold remove_spaces, toLowerCase. induction s as [|a s IH]; simpl; [done|].
  rewrite lower_char_space. destruct (is_space a); simpl; by rewrite IH.
Qed.

Lemma remove_spaces_idem s : remove_spaces (remove_spaces s) = remove_spaces s.
Proof.
  unfold remove_spaces. induction s as [|a s IH]; simpl; [done|].
  destruct (is_space a) eqn:Ha; simpl; [done|]. by rewrite Ha, IH.
Qed.

(** X15.  The slug that addresses the page is the [setSlug] of the request
    in lower case with its white space removed: it has no white space and no
    upper-case letter, requests that differ only in case get the same slug,
    and a slug is its own slug. *)
Theorem slug_is_normalized (setSlug : jsstring) :
  Forall (fun a => is_space a = false /\ is_upper a = false) (slug_of setSlug)
  /\ slug_of (toLowerCase setSlug) = slug_of setSlug
  /\ slug_of (slug_of setSlug) = slug_of setSlug.
Proof.
  unfold slug_of. split_and!.
  - apply Forall_forall. intros a Ha. apply list_elem_of_In in Ha.
    unfold remove_spaces in Ha. apply List.filter_In in Ha as [Hin Hsp].
    split; [by apply negb_true_iff in Hsp|].
    unfold toLowerCase in Hin. apply List.in_map_iff in Hin as (b & <- & _).
    apply lower_char_not_upper.
  - by rewrite toLowerCase_idem.
  - by rewrite remove_spaces_lower, remove_spaces_idem, remove_spaces_lower,
      toLowerCase_idem, <- remove_spaces_lower.
Qed.

Lemma hex_digit_unreserved n : is_unreserved (hex_digit n) = true.
Proof.
  unfold hex_digit. do 16 (destruct n as [|n]; [reflexivity|]).
  simpl. by destruct n.
Qed.

Lemma hex_digit_inj i j :
  (i < 16)%nat -> (j < 16)%nat -> hex_digit i = hex_digit j -> i = j.
Proof.
  intros Hi Hj H.
  do 16 (destruct i as [|i];
         [do 16 (destruct j as [|j]; [by (reflexivity || discriminate H)|]); lia|]).
  lia.
Qed.

Lemma three_inj {A} (a b c a' b' c' : A) x y :
  [a; b; c] ++ x = [a'; b'; c'] ++ y -> b = b' /\ c = c' /\ x = y.
Proof. simpl. by inversion 1. Qed.

Lemma percent_byte_inj n m x y :
  (n < 256)%nat -> (m < 256)%nat ->
  percent_byte n ++ x = percent_byte m ++ y -> n = m /\ x = y.
Proof.
  intros Hn Hm H. unfold percent_byte in H.
  apply three_inj in H as (H1 & H2 & Hx).
  apply hex_digit_inj in H1; [| apply Nat.Div0.div_lt_upper_bound; lia
                              | apply Nat.Div0.div_lt_upper_bound; lia].
  apply hex_digit_inj in H2; [| apply Nat.mod_upper_bound; lia
                              | apply Nat.mod_upper_bound; lia].
  split; [|done].
  rewrite (Nat.div_mod_eq n 16), (Nat.div_mod_eq m 16). lia.
Qed.

Lemma code_bound a : (code a < 256)%nat.
Proof. apply nat_ascii_bounded. Qed.

Lemma code_inj a b : code a = code b -> a = b.
Proof.
  unfold code. intros H.
  rewrite <- (ascii_nat_embedding a), <- (ascii_nat_embedding b). by rewrite H.
Qed.

Lemma encode_unit_chars a :
  Forall (fun c => is_unreserved c = true \/ c = "%"%char) (encode_unit a).
Proof.
  unfold encode_unit, percent_byte. destruct (is_unreserved a) eqn:Ha.
  - constructor; [by left | constructor].
  - destruct (code a <? 128)%nat; simpl;
      repeat (constructor; [(by right) || (left; apply hex_digit_unreserved)|]);
      constructor.
Qed.

Lemma encode_unit_prefix_free a b x y :
  encode_unit a ++ x = encode_unit b ++ y -> a = b /\ x = y.
Proof.
  pose proof (code_bound a) as Ba. pose proof (code_bound b) as Bb.
  unfold encode_unit.
  destruct (is_unreserved a) eqn:Ha, (is_unreserved b) eqn:Hb.
  - simpl. by inversion 1.
  - destruct (code b <? 128)%nat; simpl; inversion 1; subst; done.
  - destruct (code a <? 128)%nat; simpl; inversion 1; subst; done.
  - destruct (Nat.ltb_spec (code a) 128) as [La|La],
             (Nat.ltb_spec (code b) 128) as [Lb|Lb].
    + intros H. apply percent_byte_inj in H as [H ->]; [|lia|lia].
      split; [by apply code_inj | done].
    + rewrite <- app_assoc. intros H.
      assert (Hdb : (code b / 64 < 4)%nat) by (apply Nat.Div0.div_lt_upper_bound; lia).
      apply percent_byte_inj in H as [H _]; [exfalso; lia | lia | lia].
    + rewrite <- app_assoc. intros H.
      assert (Hda : (code a / 64 < 4)%nat) by (apply Nat.Div0.div_lt_upper_bound; lia).
      apply percent_byte_inj in H as [H _]; [exfalso; lia | lia | lia].
    + rewrite <- !app_assoc. intros H.
      assert (Hda : (code a / 64 < 4)%nat) by (apply Nat.Div0.div_lt_upper_bound; lia).
      assert (Hdb : (code b / 64 < 4)%nat) by (apply Nat.Div0.div_lt_upper_bound; lia).
      assert (Hma : (code a mod 64 < 64)%nat) by (apply Nat.mod_upper_bound; lia).
      assert (Hmb : (code b mod 64 < 64)%nat) by (apply Nat.mod_upper_bound; lia).
      apply percent_byte_inj in H as [Hq H]; [|lia|lia].
      apply percent_byte_inj in H as [Hr ->]; [|lia|lia].
      split; [|done]. apply code_inj.
      rewrite (Nat.div_mod_eq (code a) 64), (Nat.div_mod_eq (code b) 64). lia.
Qed.

Lemma encode_unit_nonempty a : encode_unit a <> [].
Proof.
  unfold encode_unit. destruct (is_unreserved a); [done|].
  by destruct (code a <? 128)%nat.
Qed.

Lemma encodeURIComponent_inj s t :
  encodeURIComponent s = encodeURIComponent t -> s = t.
Proof.
  unfold encodeURIComponent. revert t.
  induction s as [|a s IH]; intros [|b t]; simpl; intros H.
  - done.
  - symmetry in H. apply app_eq_nil in H as [H _]. by apply encode_unit_nonempty in H.
  - apply app_eq_nil in H as [H _]. by apply encode_unit_nonempty in H.
  - apply encode_unit_prefix_free in H as [-> H]. f_equal. by apply IH.
Qed.

Lemma encodeURIComponent_unreserved s :
  all_of is_unreserved s -> encodeURIComponent s = s.
Proof.
  unfold encodeURIComponent. induction 1 as [|a s Ha _ IH]; [done|].
  cbn [flat_map]. rewrite IH. unfold encode_unit. by rewrite Ha.
Qed.

(** X16.  The address fetched is the fixed prefix followed by the encoded
    slug.  The encoding sends nothing but unreserved characters and percent
    signs, so no slash, question mark or hash can leave the path segment;
    it never sends two slugs to the same address; and a slug of unreserved
    characters, such as "baseset", is sent as it is. *)
Theorem page_url_is_safe (slug : jsstring) :
  Forall (fun c => is_unreserved c = true \/ c = "%"%char) (encodeURIComponent slug)
  /\ Forall (fun c => c <> "/"%char /\ c <> "?"%char /\ c <> "#"%char
                      /\ is_space c = false) (encodeURIComponent slug)
  /\ (forall slug', page_url slug = page_url slug' -> slug = slug')
  /\ (all_of is_unreserved slug -> page_url slug
        = str "https://www.pikawiz.com/cards/pop-report/" ++ slug).
Proof.
  assert (Hc : Forall (fun c => is_unreserved c = true \/ c = "%"%char)
                 (encodeURIComponent slug)).
  { unfold encodeURIComponent. induction slug as [|a s IH]; simpl; [constructor|].
    apply Forall_app. split; [apply encode_unit_chars | done]. }
  split_and!.
  - done.
  - eapply Forall_impl; [exact Hc|]. simpl. intros c [H | ->]; [|done].
    revert H. destruct c as [[] [] [] [] [] [] [] []]; vm_compute; intros H;
      try discriminate H; split_and!; try reflexivity; intros E; discriminate E.
  - intros slug' H. unfold page_url in H. apply app_inv_head in H.
    by apply encodeURIComponent_inj.
  - intros H. unfold page_url. by rewrite encodeURIComponent_unreserved.
Qed.

(** ** The marker before and after normalizing *)

Lemma collapse_all_space b ws :
  all_of is_space ws -> all_of is_space (collapse_spaces_from b ws).
Proof.
  intros H. revert b. induction H as [|a ws Ha _ IH]; intros b; simpl; [constructor|].
  rewrite Ha. destruct b; [apply IH|]. constructor; [done | apply IH].
Qed.

Lemma collapse_word b x a s :
  is_space a = false ->
  collapse_spaces_from b (x ++ a :: s)
  = collapse_spaces_from b x ++ a :: collapse_spaces_from false s.
Proof.
  intros Ha. revert b. induction x as [|c x IH]; intros b; simpl.
  - by rewrite Ha.
  - destruct (is_space c); [destruct b|]; by rewrite IH.
Qed.

Lemma collapse_solid u s :
  Forall (fun a => is_space a = false) u ->
  collapse_spaces_from false (u ++ s) = u ++ collapse_spaces_from false s.
Proof.
  induction 1 as [|a u Ha _ IH]; simpl; [done|]. by rewrite Ha, IH.
Qed.

Lemma drop_spaces_word A t R :
  is_space t = false -> drop_spaces (A ++ t :: R) = drop_spaces A ++ t :: R.
Proof.
  intros Ht. induction A as [|a A IH]; simpl.
  - by rewrite Ht.
  - by destruct (is_space a).
Qed.

Lemma trim_infix A t M z B :
  is_space t = false -> is_space z = false ->
  trim (A ++ t :: M ++ z :: B)
  = drop_spaces A ++ t :: M ++ z :: rev (drop_spaces (rev B)).
Proof.
  intros Ht Hz. unfold trim. rewrite drop_spaces_word by done.
  assert (E : drop_spaces A ++ t :: M ++ z :: B = (drop_spaces A ++ t :: M) ++ z :: B)
    by (by rewrite <- app_assoc).
  rewrite E, rev_app_distr. simpl rev at 2. rewrite <- app_assoc. simpl app at 2.
  rewrite drop_spaces_word by done.
  rewrite rev_app_distr. simpl rev at 1. rewrite rev_involutive, <- !app_assoc.
  done.
Qed.

Lemma collapse_suffix b s A R :
  collapse_spaces_from b s = A ++ R ->
  exists s1 s2 b', s = s1 ++ s2 /\ collapse_spaces_from b' s2 = R.
Proof.
  revert b A. induction s as [|a s IH]; intros b A H.
  - simpl in H. symmetry in H. apply app_eq_nil in H as [_ ->]. by exists [], [], b.
  - destruct A as [|c A]; [by exists [], (a :: s), b|].
    simpl in H. destruct (is_space a).
    + destruct b.
      * destruct (IH true (c :: A) H) as (s1 & s2 & b' & -> & Hr).
        by exists (a :: s1), s2, b'.
      * inversion H as [[Hc Hr]].
        destruct (IH _ _ Hr) as (s1 & s2 & b' & -> & Hr'). by exists (a :: s1), s2, b'.
    + inversion H as [[Hc Hr]].
      destruct (IH _ _ Hr) as (s1 & s2 & b' & -> & Hr'). by exists (c :: s1), s2, b'.
Qed.

Lemma collapse_gap_inv b s ws p R :
  collapse_spaces_from b s = ws ++ p :: R ->
  all_of is_space ws -> is_space p = false ->
  exists ws' s', s = ws' ++ p :: s' /\ all_of is_space ws'
                 /\ collapse_spaces_from false s' = R.
Proof.
  intros H Hws Hp. revert b ws H Hws.
  induction s as [|a s IH]; intros b ws H Hws.
  - simpl in H. by destruct ws.
  - simpl in H. destruct (is_space a) eqn:Ha.
    + destruct b.
      * destruct (IH _ _ H Hws) as (ws' & s' & -> & Hw & Hr).
        exists (a :: ws'), s'. split_and!; [done | by constructor | done].
      * destruct ws as [|c ws].
        { inversion H; subst. done. }
        inversion H as [[Hc Hr]]. inversion Hws; subst.
        destruct (IH _ _ Hr) as (ws' & s' & -> & Hw & Hr'); [done|].
        exists (a :: ws'), s'. split_and!; [done | by constructor | done].
    + destruct ws as [|c ws].
      * inversion H; subst. exists [], s. split_and!; [done | constructor | done].
      * inversion H; subst. inversion Hws; subst. congruence.
Qed.

Lemma collapse_solid_inv s u R :
  collapse_spaces_from false s = u ++ R ->
  Forall (fun a => is_space a = false) u ->
  exists s', s = u ++ s' /\ collapse_spaces_from false s' = R.
Proof.
  intros H Hu. revert s H. induction Hu as [|a u Ha _ IH]; intros s H.
  - by exists s.
  - destruct s as [|c s]; [done|]. simpl in H. destruct (is_space c) eqn:Hc.
    + inversion H; subst. done.
    + inversion H; subst. destruct (IH _ H2) as (s' & -> & Hr). by exists s'.
Qed.

Lemma canonicalize_space a : is_space (canonicalize a) = is_space a.
Proof. by_chars a. Qed.

Lemma word_char_solid b : is_word b = true -> is_space (canonicalize b) = false.
Proof. by_chars b. Qed.

Lemma spelled_solid pat w :
  all_of is_word pat -> spelled true pat w -> Forall (fun a => is_space a = false) w.
Proof.
  intros Hp Hs. revert Hp. induction Hs as [|b a pat w Hc _ IH]; intros Hp; [constructor|].
  inversion Hp; subst. constructor; [|by apply IH].
  unfold char_match in Hc. apply ascii_eqb_eq in Hc.
  rewrite <- canonicalize_space, <- Hc. by apply word_char_solid.
Qed.

Lemma total_marker_parts w :
  total_marker w ->
  exists t T ws p P z,
    w = t :: T ++ ws ++ p :: P ++ [z]
    /\ Forall (fun a => is_space a = false) (t :: T)
    /\ all_of is_space ws
    /\ Forall (fun a => is_space a = false) (p :: P ++ [z])
    /\ spelled true (str "total") (t :: T)
    /\ spelled true (str "population") (p :: P ++ [z]).
Proof.
  intros (T & ws & P & -> & HT & Hws & HP).
  assert (HsT : Forall (fun a => is_space a = false) T).
  { eapply spelled_solid; [|exact HT]. by repeat constructor. }
  assert (HsP : Forall (fun a => is_space a = false) P).
  { eapply spelled_solid; [|exact HP]. by repeat constructor. }
  pose proof (spelled_length _ _ _ HT) as LT. pose proof (spelled_length _ _ _ HP) as LP.
  destruct T as [|t T]; [done|].
  destruct P as [|p P]; [done|].
  destruct P as [|p1 [|p2 [|p3 [|p4 [|p5 [|p6 [|p7 [|p8 [|z [|? ?]]]]]]]]]]; try done.
  by exists t, T, ws, p, [p1; p2; p3; p4; p5; p6; p7; p8], z.
Qed.

Lemma marker_normalized text :
  has_total_marker text -> has_total_marker (trim (collapse_spaces text)).
Proof.
  intros (pre & w & post & -> & Hm).
  destruct (total_marker_parts _ Hm) as (t & T & ws & p & P & z & -> & HT & Hws & HP & ST & SP).
  inversion HT as [|? ? Ht HT']; subst. inversion HP as [|? ? Hp HP']; subst.
  apply Forall_app in HP' as [HP' Hz]. inversion Hz as [|? ? Hz' _]; subst.
  unfold collapse_spaces.
  assert (E : collapse_spaces_from false
                (pre ++ (t :: T ++ ws ++ p :: P ++ [z]) ++ post)
              = collapse_spaces_from false pre
                ++ t :: (T ++ collapse_spaces_from false ws ++ p :: P)
                     ++ z :: collapse_spaces_from false post).
  { simpl app. rewrite collapse_word by done. f_equal. f_equal.
    rewrite <- !app_assoc. rewrite collapse_solid by done. f_equal.
    simpl app. rewrite collapse_word by done. f_equal. f_equal.
    rewrite <- app_assoc. rewrite collapse_solid by done. f_equal.
    simpl. by rewrite Hz'. }
  rewrite E, trim_infix by done.
  eexists (drop_spaces _), (t :: T ++ collapse_spaces_from false ws ++ p :: P ++ [z]), _.
  split.
  - simpl. rewrite <- !app_assoc. simpl. rewrite <- !app_assoc. reflexivity.
  - exists (t :: T), (collapse_spaces_from false ws), (p :: P ++ [z]).
    split_and!; [done | done | by apply collapse_all_space | done].
Qed.

Lemma marker_from_normalized text :
  has_total_marker (trim (collapse_spaces text)) -> has_total_marker text.
Proof.
  intros (pre & w & post & Hn & Hm).
  destruct (total_marker_parts _ Hm) as (t & T & ws & p & P & z & -> & HT & Hws & HP & ST & SP).
  inversion HT as [|? ? Ht HT']; subst. inversion HP as [|? ? Hp HP']; subst.
  destruct (trim_split (collapse_spaces text)) as (x & y & Hc & _).
  rewrite Hn in Hc. unfold collapse_spaces in Hc.
  assert (E : x ++ (pre ++ (t :: T ++ ws ++ p :: P ++ [z]) ++ post) ++ y
              = (x ++ pre) ++ [] ++ t :: (T ++ ws ++ p :: (P ++ [z]) ++ post ++ y)).
  { repeat (rewrite <- app_assoc || rewrite <- app_comm_cons). reflexivity. }
  rewrite E in Hc. clear E.
  apply collapse_suffix in Hc as (s1 & s2 & b' & -> & Hc).
  apply collapse_gap_inv in Hc as (ws0 & s3 & -> & Hws0 & Hc); [|constructor|done].
  apply collapse_solid_inv in Hc as (s4 & -> & Hc); [|done].
  apply collapse_gap_inv in Hc as (ws' & s5 & -> & Hws' & Hc); [|done|done].
  apply collapse_solid_inv in Hc as (s6 & -> & Hc); [|done].
  exists (s1 ++ ws0), (t :: T ++ ws' ++ p :: P ++ [z]), s6. split.
  - simpl. rewrite <- !app_assoc. simpl. by rewrite <- !app_assoc.
  - by exists (t :: T), ws', (p :: P ++ [z]).
Qed.

Lemma lower_char_match a : char_match true (lower_char a) a = true.
Proof. by_chars a. Qed.

Lemma toLowerCase_spelled w : spelled true (toLowerCase w) w.
Proof.
  unfold spelled, toLowerCase. induction w as [|a w IH]; simpl; constructor; [|done].
  apply lower_char_match.
Qed.

Lemma lower_char_is_space a : lower_char a = " "%char -> is_space a = true.
Proof. intros H. rewrite <- lower_char_space, H. done. Qed.

Lemma includes_marker text :
  includes (toLowerCase text) (str "total population") = true ->
  has_total_marker text.
Proof.
  intros H. apply includes_spec in H as (pre & post & H).
  unfold toLowerCase in H.
  apply List.map_eq_app in H as (pre' & r & -> & _ & H).
  apply List.map_eq_app in H as (w & post' & -> & Hw & _).
  change (str "total population") with (str "total" ++ [" "%char] ++ str "population") in Hw.
  apply List.map_eq_app in Hw as (T & r & -> & HT & Hw).
  apply List.map_eq_app in Hw as (ws & P & -> & Hsp & HP).
  exists pre', (T ++ ws ++ P), post'. split; [done|].
  exists T, ws, P. split_and!; [done | | | ].
  - rewrite <- HT. apply toLowerCase_spelled.
  - destruct ws as [|c [|? ?]]; try done. inversion Hsp as [Hc].
    constructor; [by apply lower_char_is_space | constructor].
  - rewrite <- HP. apply toLowerCase_spelled.
Qed.

(** X17.  The sanity check of the row loop, made on the normalized text,
    finds the marker exactly when the text of the node has it: "total",
    white space of any length or none, "population", in any case.  Every
    candidate of the fallback, chosen for the words "total population" in
    its lower-cased text, passes the check, so the fallback loses a node
    only for want of both a name and details. *)
Theorem fallback_candidates_pass_the_marker_check (doc : document) (el : node) :
  (test true rx_total_marker (block_text el) = true <-> has_total_marker (node_text el))
  /\ (el ∈ Structural.fallback_candidates doc ->
      test true rx_total_marker (block_text el) = true)
  /\ (el ∈ Structural.fallback_candidates doc ->
      (is_Some (Structural.row_of el) <->
       fst (Structural.extractNameAndDetails el) <> []
       \/ snd (Structural.extractNameAndDetails el) <> [])).
Proof.
  assert (Hiff : test true rx_total_marker (block_text el) = true
                 <-> has_total_marker (node_text el)).
  { rewrite test_marker. unfold block_text. split.
    - apply marker_from_normalized.
    - apply marker_normalized. }
  assert (Hc : el ∈ Structural.fallback_candidates doc ->
               test true rx_total_marker (block_text el) = true).
  { intros Hel. apply Hiff. unfold Structural.fallback_candidates in Hel.
    apply list_elem_of_In, List.filter_In in Hel as [_ Hel].
    by apply includes_marker. }
  split_and!; [done | done |].
  intros Hel. specialize (Hc Hel).
  unfold Structural.row_of. cbv zeta. rewrite Hc. simpl negb. cbv iota.
  destruct (Structural.extractNameAndDetails el) as [n d]. simpl fst. simpl snd.
  destruct n, d; simpl;
    (split; [ intros [? ?]; try done; ((by left) || by right)
            | intros [?|?]; try done; by eexists ]).
Qed.

(** ** The card list of the page *)

Lemma App_addCard_cases st :
  (App.addCard st = st
   /\ (App.form_name st = [] \/ App.truthy_field (App.form_price st) = false
       \/ App.truthy_field (App.form_population st) = false))
  \/ (App.addCard st
      = App.State (App.cards st
                   ++ [App.Card (App.form_name st) (App.form_price st)
                         (App.form_population st)]) [] App.Blank App.Blank
      /\ App.complete (App.Card (App.form_name st) (App.form_price st)
                         (App.form_population st))).
Proof.
  unfold App.addCard, App.complete. destruct st as [cs n p q]. simpl.
  destruct n as [|a n]; simpl; [left; split; [done | by left]|].
  destruct p as [|x]; simpl; [left; split; [done | right; by left]|].
  destruct (truthy_num x) eqn:Hx; simpl; [|left; split; [done | right; by left]].
  destruct q as [|y]; simpl; [left; split; [done | right; by right]|].
  destruct (truthy_num y) eqn:Hy; simpl; [|left; split; [done | right; by right]].
  right. split; [done|]. split; [done|]. by exists x, y.
Qed.

Lemma App_step_cards Number st e :
  App.cards (App.step Number st e) = App.cards st
  \/ (e = App.ClickAdd
      /\ exists c, App.cards (App.step Number st e) = App.cards st ++ [c]
                   /\ App.complete c).
Proof.
  destruct e; simpl; try by left.
  destruct (App_addCard_cases st) as [[-> _] | [-> Hc]]; [by left|].
  right. split; [done|]. by eexists.
Qed.

Lemma App_run_snoc Number st es e :
  App.run Number st (es ++ [e]) = App.step Number (App.run Number st es) e.
Proof. unfold App.run. by rewrite fold_left_app. Qed.

(** X18.  Whatever the user types and however often the button is clicked,
    the list only grows at its end, by at most one card for each click, and
    every card added has a name and a price and a population that are
    numbers other than zero and [NaN]; so the list shown, which starts
    empty, never holds an incomplete card. *)
Theorem listed_cards_are_complete (Number : jsstring -> jsnum)
    (st : App.state) (es : list App.event) :
  (exists added,
     App.cards (App.run Number st es) = App.cards st ++ added
     /\ Forall App.complete added
     /\ (length added <= length (List.filter App.is_click es))%nat)
  /\ Forall App.complete (App.cards (App.run Number App.initial es)).
Proof.
  assert (H : forall st0, exists added,
     App.cards (App.run Number st0 es) = App.cards st0 ++ added
     /\ Forall App.complete added
     /\ (length added <= length (List.filter App.is_click es))%nat).
  { intros st0. induction es as [|e es IH] using rev_ind.
    - exists []. split_and!; [by rewrite app_nil_r | constructor | done].
    - destruct IH as (added & Hc & Hf & Hl). rewrite App_run_snoc.
      rewrite List.filter_app, length_app.
      destruct (App_step_cards Number (App.run Number st0 es) e)
        as [-> | (-> & c & -> & Hcc)].
      + exists added. split_and!; [done | done | lia].
      + exists (added ++ [c]). split_and!.
        * by rewrite Hc, <- app_assoc.
        * apply Forall_app. split; [done | by constructor].
        * rewrite length_app. simpl. lia. }
  split; [apply H|].
  destruct (H App.initial) as (added & -> & Hf & _). done.
Qed.

(** X19.  A click that adds no card leaves the whole state as it was, the
    form included; a second click right after a first adds nothing; and
    the total market cap after a card is added is the total before plus
    the product of its price and population, the sum and the product being
    those of the language. *)
Theorem addCard_and_the_total (add mul : jsnum -> jsnum -> jsnum) (st : App.state) :
  (App.cards (App.addCard st) = App.cards st -> App.addCard st = st)
  /\ App.addCard (App.addCard st) = App.addCard st
  /\ (forall cs c,
        App.totalMarketCap add mul (cs ++ [c])
        = add (App.totalMarketCap add mul cs)
              (mul (App.to_number (App.price c)) (App.to_number (App.population c))))
  /\ (App.addCard st <> st ->
      App.totalMarketCap add mul (App.cards (App.addCard st))
      = add (App.totalMarketCap add mul (App.cards st))
            (mul (App.to_number (App.form_price st))
                 (App.to_number (App.form_population st)))).
Proof.
  assert (Hsnoc : forall cs c,
        App.totalMarketCap add mul (cs ++ [c])
        = add (App.totalMarketCap add mul cs)
              (mul (App.to_number (App.price c)) (App.to_number (App.population c)))).
  { intros cs c. unfold App.totalMarketCap. by rewrite fold_left_app. }
  split_and!.
  - destruct (App_addCard_cases st) as [[-> _] | [-> _]]; [done|].
    simpl. intros H. apply (f_equal length) in H. rewrite length_app in H.
    simpl in H. lia.
  - destruct (App_addCard_cases st) as [[He _] | [He _]]; rewrite He; [exact He | done].
  - exact Hsnoc.
  - intros Hne. destruct (App_addCard_cases st) as [[He _] | [-> _]]; [done|].
    simpl App.cards. by rewrite Hsnoc.
Qed.
